(** * Validity masks for pattern insertion (trojai/datagen/insert_utils.py)

    A shallow embedding of [pattern_fit], [valid_location], the perimeter
    walk helpers and [valid_locations], followed by the properties of the
    validity mask.

    Conventions.
    - Python integers are [Z]; array extents are [nat] (a shape is never
      negative) and are converted to [Z] where the source does arithmetic on
      them.
    - A numpy array is a shape together with its cell lookup.  Cells are only
      ever read inside the shape; slices follow Python's rule (a negative
      bound counts from the end, both bounds are clipped to the extent).
    - Pixel values are integers; [np.mean(...) <= t] is compared exactly
      (sum and count), without floating-point rounding. *)

From stdpp Require Import base numbers list strings gmap sets.
From Stdlib Require Import ZArith Lia Bool Sorted.

Local Open Scope Z_scope.
#[local] Set Warnings "-clear-no-such-hyp".

(** ** Arrays and slices *)

Record ndarray2 (A : Type) : Type := Ndarray2 {
  nrows : nat;
  ncols : nat;
  at2 : Z → Z → A
}.
Arguments Ndarray2 {A} _ _ _.
Arguments nrows {A} _.
Arguments ncols {A} _.
Arguments at2 {A} _ _ _.

Record ndarray3 (A : Type) : Type := Ndarray3 {
  dim_rows : nat;
  dim_cols : nat;
  dim_chans : nat;
  at3 : Z → Z → nat → A
}.
Arguments Ndarray3 {A} _ _ _ _.
Arguments dim_rows {A} _.
Arguments dim_cols {A} _.
Arguments dim_chans {A} _.
Arguments at3 {A} _ _ _ _.

(** [a[:, :, k]]: a view of one channel. *)
Definition channel {A} (a : ndarray3 A) (k : nat) : ndarray2 A :=
  Ndarray2 (dim_rows a) (dim_cols a) (λ i j, at3 a i j k).

(** A literal array, given by its rows (used for concrete inputs). *)
Definition of_rows {A} (d : A) (w : nat) (rows : list (list A)) : ndarray2 A :=
  Ndarray2 (length rows) w
    (λ i j, nth (Z.to_nat j) (nth (Z.to_nat i) rows []) d).

(** A single-channel 3-D array from a 2-D one. *)
Definition stack1 {A} (a : ndarray2 A) : ndarray3 A :=
  Ndarray3 (nrows a) (ncols a) 1 (λ i j _, at2 a i j).

(** An array of a given shape whose cells all hold [v] (contents are never
    read when only the shape matters, as for the pattern). *)
Definition full3 {A} (h w c : nat) (v : A) : ndarray3 A :=
  Ndarray3 h w c (λ _ _ _, v).

(** One bound of a slice of a dimension of extent [n]. *)
Definition slice_bound (n x : Z) : Z :=
  if x <? 0 then Z.max (x + n) 0 else Z.min x n.

(** [i] is selected by [start:stop] in a dimension of extent [n]. *)
Definition in_slice (n start stop i : Z) : bool :=
  (slice_bound n start <=? i) && (i <? slice_bound n stop).

(** The indices selected by [start:stop], in increasing order. *)
Definition slice_range (n start stop : Z) : list Z :=
  seqZ (slice_bound n start) (slice_bound n stop - slice_bound n start).

(** [m[r0:r1, c0:c1] = v] *)
Definition assign_slice {A} (m : ndarray2 A) (r0 r1 c0 c1 : Z) (v : A)
  : ndarray2 A :=
  Ndarray2 (nrows m) (ncols m)
    (λ i j, if in_slice (Z.of_nat (nrows m)) r0 r1 i
               && in_slice (Z.of_nat (ncols m)) c0 c1 j
            then v else at2 m i j).

(** [m[i][j] = v] for an index pair inside the array. *)
Definition assign_cell {A} (m : ndarray2 A) (i j : Z) (v : A) : ndarray2 A :=
  Ndarray2 (nrows m) (ncols m)
    (λ i' j', if (i' =? i) && (j' =? j) then v else at2 m i' j').

(** [np.nonzero(m)] zipped into coordinate pairs, in row-major order. *)
Definition nonzero (m : ndarray2 bool) : list (Z * Z) :=
  i ← seqZ 0 (Z.of_nat (nrows m));
  j ← seqZ 0 (Z.of_nat (ncols m));
  if at2 m i j then [(i, j)] else [].

(** Truth value of a number. *)
Definition truthy (v : Z) : bool := negb (v =? 0).

(** [np.logical_or.reduce(a[r0:r1, c0:c1], axis=None)] *)
Definition logical_or_reduce_slice (a : ndarray2 Z) (r0 r1 c0 c1 : Z) : bool :=
  existsb (λ i,
    existsb (λ j, truthy (at2 a i j))
            (slice_range (Z.of_nat (ncols a)) c0 c1))
    (slice_range (Z.of_nat (nrows a)) r0 r1).

(** ** Single-location checks *)

Definition valid_location (chan_img chan_pattern : ndarray2 Z)
    (chan_location : Z * Z) : bool :=
  let p_rows := Z.of_nat (nrows chan_pattern) in
  let p_cols := Z.of_nat (ncols chan_pattern) in
  let '(r, c) := chan_location in
  if logical_or_reduce_slice chan_img r (r + p_rows) c (c + p_cols)
  then false
  else true.

Definition pattern_fit (chan_img chan_pattern : ndarray2 Z)
    (chan_location : Z * Z) : bool :=
  let p_rows := Z.of_nat (nrows chan_pattern) in
  let p_cols := Z.of_nat (ncols chan_pattern) in
  let '(r, c) := chan_location in
  let i_rows := Z.of_nat (nrows chan_img) in
  let i_cols := Z.of_nat (ncols chan_img) in
  if (r + p_rows >? i_rows) || (c + p_cols >? i_cols) then false
  else if negb (valid_location chan_img chan_pattern chan_location) then false
  else true.

(** ** Configuration, errors *)

(** A parameter given either as one number or as one value per channel. *)
Inductive per_channel (A : Type) : Type :=
| Uniform (v : A)
| PerChannel (vs : list A).
Arguments Uniform {A} _.
Arguments PerChannel {A} _.

(** Modelled from the spec: the class [InsertAtRandomLocationConfig] lives
    in trojai/datagen/config.py, which is not among the sources.  The record
    has the configuration fields the spec lists and [valid_locations] reads:
    the algorithm tag, [min_val] and [threshold_val] (a number or one number
    per channel) and [num_boxes]. *)
Record InsertAtRandomLocationConfig : Type := {
  algorithm : string;
  min_val : per_channel Z;
  threshold_val : per_channel Z;
  num_boxes : Z
}.

(** The source raises [ValueError] with three different messages; they are
    kept apart here.  [IndexError] is Python's own error for a sequence read
    past its end.  [FuelExhausted] is not a Python exception: it marks a
    loop of the model that hit its iteration bound, and is shown never to
    be returned. *)
Inductive error : Type :=
| ShapeMismatch
| ConfigMismatch
| UnsupportedMode
| IndexError
| FuelExhausted.

Inductive result (A : Type) : Type :=
| Ok (a : A)
| Raise (e : error).
Arguments Ok {A} _.
Arguments Raise {A} _.

Definition bind_result {A B} (r : result A) (k : A → result B) : result B :=
  match r with
  | Ok a => k a
  | Raise e => Raise e
  end.

(** [v] if scalar, [v[chan_idx]] if its length is the channel count,
    otherwise the configuration error. *)
Definition resolve (p : per_channel Z) (num_chans chan_idx : nat) : result Z :=
  match p with
  | Uniform v => Ok v
  | PerChannel vs =>
      if (length vs =? num_chans)%nat then
        match vs !! chan_idx with
        | Some v => Ok v
        | None => Raise IndexError
        end
      else Raise ConfigMismatch
  end.

(** ** Element-wise operations and the 3x3 filters *)

(** [chan_img <= min_val] *)
Definition le_scalar (a : ndarray2 Z) (v : Z) : ndarray2 bool :=
  Ndarray2 (nrows a) (ncols a) (λ i j, at2 a i j <=? v).

Definition logical_not (a : ndarray2 bool) : ndarray2 bool :=
  Ndarray2 (nrows a) (ncols a) (λ i j, negb (at2 a i j)).

Definition logical_and (a b : ndarray2 bool) : ndarray2 bool :=
  Ndarray2 (nrows a) (ncols a) (λ i j, at2 a i j && at2 b i j).

Definition logical_xor (a b : ndarray2 bool) : ndarray2 bool :=
  Ndarray2 (nrows a) (ncols a) (λ i j, xorb (at2 a i j) (at2 b i j)).

(** A cell read with [mode='constant', cval=0.0]: outside the array the
    value is 0 (false). *)
Definition padded (a : ndarray2 bool) (i j : Z) : bool :=
  if (0 <=? i) && (i <? Z.of_nat (nrows a))
     && (0 <=? j) && (j <? Z.of_nat (ncols a))
  then at2 a i j else false.

(** Offsets of the 3x3 window centred on a cell. *)
Definition window3 : list (Z * Z) :=
  [(-1, -1); (-1, 0); (-1, 1); (0, -1); (0, 0); (0, 1); (1, -1); (1, 0); (1, 1)].

(** [scipy.ndimage.maximum_filter(a, 3, mode='constant', cval=0.0)] on a
    boolean array (scipy is an external library: this is its documented
    result, the largest value in the window). *)
Definition maximum_filter (a : ndarray2 bool) : ndarray2 bool :=
  Ndarray2 (nrows a) (ncols a)
    (λ i j, existsb (λ d, padded a (i + d.1) (j + d.2)) window3).

(** [scipy.ndimage.minimum_filter(a, 3, mode='constant', cval=0.0)]: the
    smallest value in the window. *)
Definition minimum_filter (a : ndarray2 bool) : ndarray2 bool :=
  Ndarray2 (nrows a) (ncols a)
    (λ i j, forallb (λ d, padded a (i + d.1) (j + d.2)) window3).

(** Lines 199-205: the coordinates of the edge pixels, in row-major order. *)
Definition edge_pixel_coords (img_mask : ndarray2 bool) : list (Z * Z) :=
  nonzero
    (logical_and
       (logical_xor (maximum_filter img_mask) (minimum_filter img_mask))
       img_mask).

(** ** Perimeter walk *)

Definition DIRECTIONS : list (Z * Z) :=
  [(-1, -1); (-1, 1); (1, 1); (1, -1); (0, -1); (-1, 0); (0, 1); (1, 0)].

(** The [while] loop of [_get_edge_length_in_direction].  The set is
    threaded through (the source removes from the caller's set); [None] is
    returned only when [fuel] iterations did not end the loop. *)
Fixpoint edge_length_loop (fuel : nat)
    (curr_i curr_j dir_i dir_j i_rows i_cols : Z)
    (edge_pixels : gset (Z * Z)) (len : Z) : option (Z * gset (Z * Z)) :=
  if (0 <=? curr_i + dir_i) && (curr_i + dir_i <? i_rows)
     && (0 <=? curr_j + dir_j) && (curr_j + dir_j <? i_cols)
     && bool_decide ((curr_i + dir_i, curr_j + dir_j) ∈ edge_pixels)
  then
    match fuel with
    | O => None
    | S fuel =>
        let edge_pixels := edge_pixels ∖ {[ (curr_i + dir_i, curr_j + dir_j) ]} in
        let len := len + 1 in
        let curr_i := curr_i + dir_i in
        let curr_j := curr_j + dir_j in
        if negb (dir_i =? 0) && negb (dir_j =? 0)
        then Some (len, edge_pixels)
        else edge_length_loop fuel curr_i curr_j dir_i dir_j i_rows i_cols
               edge_pixels len
    end
  else Some (len, edge_pixels).

(** Every iteration removes a pixel, so the size of the set bounds the
    number of iterations. *)
Definition _get_edge_length_in_direction
    (curr_i curr_j dir_i dir_j i_rows i_cols : Z)
    (edge_pixels : gset (Z * Z)) : option (Z * gset (Z * Z)) :=
  edge_length_loop (size edge_pixels) curr_i curr_j dir_i dir_j i_rows i_cols
    edge_pixels 0.

(** The [for] loop of [_get_next_edge_from_pixel] over the directions still
    to try.  The inner option is Python's [Optional] result. *)
Fixpoint next_edge_loop (dirs : list (Z * Z)) (curr_i curr_j i_rows i_cols : Z)
    (edge_pixels : gset (Z * Z)) : option (option (Z * Z) * gset (Z * Z)) :=
  match dirs with
  | [] => Some (None, edge_pixels)
  | (dir_i, dir_j) :: dirs =>
      match _get_edge_length_in_direction curr_i curr_j dir_i dir_j
              i_rows i_cols edge_pixels with
      | None => None
      | Some (len, edge_pixels) =>
          if negb (len =? 0)
          then Some (Some (dir_i * len, dir_j * len), edge_pixels)
          else next_edge_loop dirs curr_i curr_j i_rows i_cols edge_pixels
      end
  end.

Definition _get_next_edge_from_pixel (curr_i curr_j i_rows i_cols : Z)
    (edge_pixels : gset (Z * Z)) : option (option (Z * Z) * gset (Z * Z)) :=
  next_edge_loop DIRECTIONS curr_i curr_j i_rows i_cols edge_pixels.

(** Lines 229-248: the strips invalidated after the move
    [(action_i, action_j)] that ended at [(curr_i, curr_j)]. *)
Definition update_invalidation (p_rows p_cols : Z) (mask : ndarray2 bool)
    (curr_i curr_j action_i action_j : Z) : ndarray2 bool :=
  let top_index := Z.max 0 (curr_i - p_rows + 1) in
  let left_index := Z.max 0 (curr_j - p_cols + 1) in
  let mask :=
    if action_i <? 0 then
      assign_slice mask top_index (top_index - action_i)
        left_index (curr_j + 1) false
    else if action_i >? 0 then
      assign_slice mask (curr_i - action_i + 1) (curr_i + 1)
        left_index (curr_j + 1) false
    else mask in
  if action_j <? 0 then
    assign_slice mask top_index (curr_i + 1)
      left_index (left_index - action_j) false
  else if action_j >? 0 then
    assign_slice mask top_index (curr_i + 1)
      (curr_j - action_j + 1) (curr_j + 1) false
  else mask.

(** Lines 223-251: [while move is not None]. *)
Fixpoint trace_loop (fuel : nat) (p_rows p_cols i_rows i_cols : Z)
    (mask : ndarray2 bool) (curr_i curr_j : Z) (move : option (Z * Z))
    (edge_pixel_set : gset (Z * Z))
  : option (ndarray2 bool * gset (Z * Z)) :=
  match move with
  | None => Some (mask, edge_pixel_set)
  | Some (action_i, action_j) =>
      match fuel with
      | O => None
      | S fuel =>
          let curr_i := curr_i + action_i in
          let curr_j := curr_j + action_j in
          let mask :=
            update_invalidation p_rows p_cols mask curr_i curr_j
              action_i action_j in
          match _get_next_edge_from_pixel curr_i curr_j i_rows i_cols
                  edge_pixel_set with
          | None => None
          | Some (move, edge_pixel_set) =>
              trace_loop fuel p_rows p_cols i_rows i_cols mask curr_i curr_j
                move edge_pixel_set
          end
      end
  end.

Section EdgeTracing.

(** [set.pop()] removes an arbitrary element.  Which one is left to [pick]:
    the popped element is the one at position [pick s mod len(s)] of the
    set's elements, so every choice function is a legal behaviour. *)
Variable pick : gset (Z * Z) → nat.

(** Lines 212-251: [while len(edge_pixel_set) != 0]. *)
Fixpoint edge_tracing_loop (fuel : nat) (p_rows p_cols i_rows i_cols : Z)
    (mask : ndarray2 bool) (edge_pixel_set : gset (Z * Z))
  : option (ndarray2 bool) :=
  match elements edge_pixel_set with
  | [] => Some mask
  | first :: others =>
      match fuel with
      | O => None
      | S fuel =>
          let '(start_i, start_j) :=
            nth (pick edge_pixel_set `mod` S (length others))%nat
                (first :: others) first in
          let edge_pixel_set := edge_pixel_set ∖ {[ (start_i, start_j) ]} in
          let top_boundary := Z.max 0 (start_i - p_rows + 1) in
          let left_boundary := Z.max 0 (start_j - p_cols + 1) in
          let mask :=
            assign_slice mask top_boundary (start_i + 1)
              left_boundary (start_j + 1) false in
          match trace_loop (S (size edge_pixel_set)) p_rows p_cols
                  i_rows i_cols mask start_i start_j (Some (0, 0))
                  edge_pixel_set with
          | None => None
          | Some (mask, edge_pixel_set) =>
              edge_tracing_loop fuel p_rows p_cols i_rows i_cols
                mask edge_pixel_set
          end
      end
  end.

(** The [edge_tracing] branch: [edge_pixel_set = set(edge_pixels)], then the
    loop; each iteration pops a pixel. *)
Definition edge_tracing (p_rows p_cols i_rows i_cols : Z)
    (mask : ndarray2 bool) (edge_pixels : list (Z * Z))
  : option (ndarray2 bool) :=
  let edge_pixel_set : gset (Z * Z) := list_to_set edge_pixels in
  edge_tracing_loop (size edge_pixel_set) p_rows p_cols i_rows i_cols
    mask edge_pixel_set.

End EdgeTracing.

(** ** The other strategies *)

(** The loop shared by [brute_force] and [threshold] (lines 254-255 and
    258-259). *)
Definition brute_force (p_rows p_cols : Z) (mask : ndarray2 bool)
    (edge_pixels : list (Z * Z)) : ndarray2 bool :=
  foldl (λ mask '(i, j),
           assign_slice mask (Z.max 0 (i - p_rows + 1)) (i + 1)
             (Z.max 0 (j - p_cols + 1)) (j + 1) false)
        mask edge_pixels.

(** The cells of [a[r0:r1, c0:c1]]. *)
Definition slice_cells (a : ndarray2 Z) (r0 r1 c0 c1 : Z) : list Z :=
  i ← slice_range (Z.of_nat (nrows a)) r0 r1;
  j ← slice_range (Z.of_nat (ncols a)) c0 c1;
  [at2 a i j].

(** [np.mean(cells) <= t], compared exactly on the sum and the count.
    numpy rounds the mean to a 64-bit float before it compares, so the two
    can differ for pixel values near 2^53; apart from the one scenario that
    evaluates it (a mean of 0.25 against 1), no property below depends on
    how this comparison comes out.  The mean of no cells is [nan], which
    compares false with everything. *)
Definition mean_le (cells : list Z) (t : Z) : bool :=
  match cells with
  | [] => false
  | _ => foldr Z.add 0 cells <=? t * Z.of_nat (length cells)
  end.

(** Lines 276-278, over the coordinates collected at lines 261-262. *)
Definition threshold_pass (chan_img : ndarray2 Z) (p_rows p_cols threshold_val : Z)
    (mask : ndarray2 bool) (possible_locations : list (Z * Z)) : ndarray2 bool :=
  foldl (λ mask '(i, j),
           if mean_le (slice_cells chan_img i (i + p_rows) j (j + p_cols))
                threshold_val
           then assign_cell mask i j true
           else mask)
        mask possible_locations.

(** [a[r0:r1, c0:c1]] as an array of its own. *)
Definition view2 {A} (a : ndarray2 A) (r0 r1 c0 c1 : Z) : ndarray2 A :=
  let top := slice_bound (Z.of_nat (nrows a)) r0 in
  let left := slice_bound (Z.of_nat (ncols a)) c0 in
  Ndarray2
    (Z.to_nat (slice_bound (Z.of_nat (nrows a)) r1 - top))
    (Z.to_nat (slice_bound (Z.of_nat (ncols a)) c1 - left))
    (λ i j, at2 a (top + i) (left + j)).

(** [np.nonzero(np.logical_or.reduce(img, axis=1))[0]] *)
Definition row_bounds (img : ndarray2 bool) : list Z :=
  filter (λ i, existsb (λ j, at2 img i j) (seqZ 0 (Z.of_nat (ncols img))) = true)
         (seqZ 0 (Z.of_nat (nrows img))).

(** [np.nonzero(np.logical_or.reduce(img, axis=0))[0]] *)
Definition col_bounds (img : ndarray2 bool) : list Z :=
  filter (λ j, existsb (λ i, at2 img i j) (seqZ 0 (Z.of_nat (nrows img))) = true)
         (seqZ 0 (Z.of_nat (ncols img))).

Definition _get_bounding_box (img : ndarray2 bool) : option (Z * Z * Z * Z) :=
  match row_bounds img, col_bounds img with
  | top :: rows, left_ :: cols =>
      let bottom := List.last rows top in
      let right_ := List.last cols left_ in
      Some (left_, top, right_ - left_ + 1, bottom - top + 1)
  | _, _ => None
  end.

(** Lines 282-293. *)
Definition bounding_boxes (num_boxes p_rows p_cols i_rows i_cols : Z)
    (img_mask mask : ndarray2 bool) : ndarray2 bool :=
  foldl (λ mask i,
    foldl (λ mask j,
      let left_ := (j * i_cols) `div` num_boxes in
      let top := (i * i_rows) `div` num_boxes in
      let right_ := ((j + 1) * i_cols) `div` num_boxes in
      let bottom := ((i + 1) * i_rows) `div` num_boxes in
      match _get_bounding_box (view2 img_mask top bottom left_ right_) with
      | Some (x, y, w, h) =>
          assign_slice mask (Z.max 0 (top + y - p_rows + 1)) (top + y + h)
            (Z.max 0 (left_ + x - p_cols + 1)) (left_ + x + w) false
      | None => mask
      end) mask (seqZ 0 num_boxes)) mask (seqZ 0 num_boxes).

(** ** [valid_locations] *)

Section ValidLocations.

Variable pick : gset (Z * Z) → nat.

(** Lines 198-294: the edge pixels and the strategy selected by
    [algo_config.algorithm], applied to the working [mask]. *)
Definition apply_algorithm (algo_config : InsertAtRandomLocationConfig)
    (num_chans chan_idx : nat) (chan_img : ndarray2 Z) (p_rows p_cols : Z)
    (img_mask mask : ndarray2 bool) : result (ndarray2 bool) :=
  let i_rows := Z.of_nat (nrows chan_img) in
  let i_cols := Z.of_nat (ncols chan_img) in
  let edge_pixels := edge_pixel_coords img_mask in
  if String.eqb (algorithm algo_config) "edge_tracing" then
    match edge_tracing pick p_rows p_cols i_rows i_cols mask edge_pixels with
    | Some mask => Ok mask
    | None => Raise FuelExhausted
    end
  else if String.eqb (algorithm algo_config) "brute_force" then
    Ok (brute_force p_rows p_cols mask edge_pixels)
  else if String.eqb (algorithm algo_config) "threshold" then
    let mask := brute_force p_rows p_cols mask edge_pixels in
    let possible_locations := nonzero mask in
    bind_result (resolve (threshold_val algo_config) num_chans chan_idx)
      (λ threshold_val,
         Ok (threshold_pass chan_img p_rows p_cols threshold_val mask
               possible_locations))
  else if String.eqb (algorithm algo_config) "bounding_boxes" then
    Ok (bounding_boxes (num_boxes algo_config) p_rows p_cols i_rows i_cols
          img_mask mask)
  else Ok mask.

(** Lines 195-196: [mask[i_rows - p_rows + 1:i_rows, :] = False] and
    [mask[:, i_cols - p_cols + 1:i_cols] = False]. *)
Definition remove_boundaries (p_rows p_cols : Z) (mask : ndarray2 bool)
  : ndarray2 bool :=
  let i_rows := Z.of_nat (nrows mask) in
  let i_cols := Z.of_nat (ncols mask) in
  let mask := assign_slice mask (i_rows - p_rows + 1) i_rows 0 i_cols false in
  assign_slice mask 0 i_rows (i_cols - p_cols + 1) i_cols false.

(** Lines 179-294: the mask of one channel that does not allow overlap. *)
Definition channel_mask (algo_config : InsertAtRandomLocationConfig)
    (num_chans chan_idx : nat) (chan_img chan_pattern : ndarray2 Z)
  : result (ndarray2 bool) :=
  let p_rows := Z.of_nat (nrows chan_pattern) in
  let p_cols := Z.of_nat (ncols chan_pattern) in
  bind_result (resolve (min_val algo_config) num_chans chan_idx)
    (λ min_val,
       let mask := le_scalar chan_img min_val in
       let img_mask := logical_not mask in
       let mask := remove_boundaries p_rows p_cols mask in
       apply_algorithm algo_config num_chans chan_idx chan_img p_rows p_cols
         img_mask mask).

(** [allow_overlap]: one flag, or one flag per channel. *)
Definition broadcast (allow_overlap : per_channel bool) (num_chans : nat)
  : list bool :=
  match allow_overlap with
  | Uniform b => replicate num_chans b
  | PerChannel bs => bs
  end.

(** [np.zeros(shape, dtype=bool)] *)
Definition zeros (h w c : nat) : ndarray3 bool := Ndarray3 h w c (λ _ _ _, false).

(** [out[0:r1, 0:c1, k] = True] *)
Definition assign_true3 (out : ndarray3 bool) (r1 c1 : Z) (k : nat)
  : ndarray3 bool :=
  Ndarray3 (dim_rows out) (dim_cols out) (dim_chans out)
    (λ i j k', if in_slice (Z.of_nat (dim_rows out)) 0 r1 i
                  && in_slice (Z.of_nat (dim_cols out)) 0 c1 j
                  && (k' =? k)%nat
               then true else at3 out i j k').

(** [out[:, :, k] = mask] *)
Definition assign_channel (out : ndarray3 bool) (k : nat) (mask : ndarray2 bool)
  : ndarray3 bool :=
  Ndarray3 (dim_rows out) (dim_cols out) (dim_chans out)
    (λ i j k', if (k' =? k)%nat then at2 mask i j else at3 out i j k').

(** Lines 167-300: the loop over the channels still to do. *)
Fixpoint channels_loop (img pattern : ndarray3 Z)
    (algo_config : InsertAtRandomLocationConfig) (protect_wrap : bool)
    (allow_overlap : list bool) (chans : list nat) (output_mask : ndarray3 bool)
  : result (ndarray3 bool) :=
  match chans with
  | [] => Ok output_mask
  | chan_idx :: chans =>
      let chan_img := channel img chan_idx in
      let chan_pattern := channel pattern chan_idx in
      let i_rows := Z.of_nat (nrows chan_img) in
      let i_cols := Z.of_nat (ncols chan_img) in
      let p_rows := Z.of_nat (nrows chan_pattern) in
      let p_cols := Z.of_nat (ncols chan_pattern) in
      match allow_overlap !! chan_idx with
      | None => Raise IndexError
      | Some true =>
          channels_loop img pattern algo_config protect_wrap allow_overlap chans
            (assign_true3 output_mask (i_rows - p_rows + 1) (i_cols - p_cols + 1)
               chan_idx)
      | Some false =>
          if protect_wrap then
            bind_result
              (channel_mask algo_config (dim_chans img) chan_idx
                 chan_img chan_pattern)
              (λ mask,
                 channels_loop img pattern algo_config protect_wrap
                   allow_overlap chans
                   (assign_channel output_mask chan_idx mask))
          else Raise UnsupportedMode
      end
  end.

Definition valid_locations (img pattern : ndarray3 Z)
    (algo_config : InsertAtRandomLocationConfig)
    (protect_wrap : bool) (allow_overlap : per_channel bool)
  : result (ndarray3 bool) :=
  let num_chans := dim_chans img in
  let allow_overlap := broadcast allow_overlap num_chans in
  if negb (dim_chans pattern =? num_chans)%nat then Raise ShapeMismatch
  else
    let output_mask := zeros (dim_rows img) (dim_cols img) (dim_chans img) in
    channels_loop img pattern algo_config protect_wrap allow_overlap
      (seq 0 num_chans) output_mask.

End ValidLocations.

(** ** The same call over a store of array objects

    Here arrays are objects in a store and the code holds references to
    them.  The arguments [img] and [pattern] are references; [chan_img] and
    [chan_pattern] are views of their objects: a read through a view reads
    the object as it is at that moment, and a write through a view changes
    the object.  Every in-place assignment of the source is a store
    operation that names the array it writes, and it is defined on every
    kind of array, as item assignment is in numpy (a boolean written into a
    numeric array is stored as 0 or 1).  [TypeError] is raised when a
    reference holds no array, or one whose number of dimensions does not
    fit the operation. *)

Inductive object : Type :=
| NumArray (a : ndarray3 Z)
| MaskArray (a : ndarray2 bool)
| OutArray (a : ndarray3 bool).

(** A two-dimensional array as the code holds it: an object of its own, or
    the view [base[:, :, k]] of a three-dimensional object. *)
Inductive array2 : Type :=
| Whole (l : nat)
| View (l : nat) (k : nat).

Inductive outcome (A : Type) : Type :=
| Done (a : A) (σ : gmap nat object)
| Fail (e : error)
| TypeError.
Arguments Done {A} _ _.
Arguments Fail {A} _.
Arguments TypeError {A}.

Definition M (A : Type) : Type := gmap nat object → outcome A.

Definition ret {A} (a : A) : M A := λ σ, Done a σ.

Definition bind {A B} (c : M A) (k : A → M B) : M B :=
  λ σ, match c σ with
       | Done a σ' => k a σ'
       | Fail e => Fail e
       | TypeError => TypeError
       end.

Notation "'let*' x := c 'in' k" := (bind c (λ x, k))
  (at level 10, x pattern, c at level 100, k at level 200, only parsing).

Definition lift {A} (r : result A) : M A :=
  λ σ, match r with
       | Ok a => Done a σ
       | Raise e => Fail e
       end.

(** A [for] loop whose body acts on the store. *)
Fixpoint for_each {A} (xs : list A) (body : A → M unit) : M unit :=
  match xs with
  | [] => ret ()
  | x :: xs => let* _ := body x in for_each xs body
  end.

(** A new object, at a reference not in use. *)
Definition new (o : object) : M nat :=
  λ σ, let l := fresh (dom σ) in Done l (<[l := o]> σ).

(** [a[r0:r1, c0:c1, k] = v] *)
Definition assign_slice3 {A} (a : ndarray3 A) (r0 r1 c0 c1 : Z) (k : nat) (v : A)
  : ndarray3 A :=
  Ndarray3 (dim_rows a) (dim_cols a) (dim_chans a)
    (λ i j k', if in_slice (Z.of_nat (dim_rows a)) r0 r1 i
                  && in_slice (Z.of_nat (dim_cols a)) c0 c1 j
                  && (k' =? k)%nat
               then v else at3 a i j k').

(** [a[r0:r1, c0:c1] = v] on a three-dimensional array: every channel. *)
Definition assign_slice_chans {A} (a : ndarray3 A) (r0 r1 c0 c1 : Z) (v : A)
  : ndarray3 A :=
  Ndarray3 (dim_rows a) (dim_cols a) (dim_chans a)
    (λ i j k', if in_slice (Z.of_nat (dim_rows a)) r0 r1 i
                  && in_slice (Z.of_nat (dim_cols a)) c0 c1 j
               then v else at3 a i j k').

(** [a[:, :, k][i][j] = v] *)
Definition assign_cell3 {A} (a : ndarray3 A) (i j : Z) (k : nat) (v : A)
  : ndarray3 A :=
  Ndarray3 (dim_rows a) (dim_cols a) (dim_chans a)
    (λ i' j' k', if (i' =? i) && (j' =? j) && (k' =? k)%nat
                 then v else at3 a i' j' k').

(** [a[i][j] = v] on a three-dimensional array: every channel of the
    pixel. *)
Definition assign_cell_chans {A} (a : ndarray3 A) (i j : Z) (v : A)
  : ndarray3 A :=
  Ndarray3 (dim_rows a) (dim_cols a) (dim_chans a)
    (λ i' j' k', if (i' =? i) && (j' =? j) then v else at3 a i' j' k').

(** [h.shape] of a two-dimensional array. *)
Definition shape2 (h : array2) : M (nat * nat) :=
  λ σ, match h with
       | Whole l =>
           match σ !! l with
           | Some (MaskArray a) => Done (nrows a, ncols a) σ
           | _ => TypeError
           end
       | View l k =>
           match σ !! l with
           | Some (NumArray a) => Done (dim_rows a, dim_cols a) σ
           | Some (OutArray a) => Done (dim_rows a, dim_cols a) σ
           | _ => TypeError
           end
       end.

(** [a.shape] of a three-dimensional array. *)
Definition shape3 (l : nat) : M (nat * nat * nat) :=
  λ σ, match σ !! l with
       | Some (NumArray a) => Done (dim_rows a, dim_cols a, dim_chans a) σ
       | Some (OutArray a) => Done (dim_rows a, dim_cols a, dim_chans a) σ
       | _ => TypeError
       end.

(** The numbers read through [h], as the object holds them now. *)
Definition get_num (h : array2) : M (ndarray2 Z) :=
  λ σ, match h with
       | View l k =>
           match σ !! l with
           | Some (NumArray a) => Done (channel a k) σ
           | _ => TypeError
           end
       | Whole _ => TypeError
       end.

(** The booleans read through [h], as the object holds them now. *)
Definition get_mask (h : array2) : M (ndarray2 bool) :=
  λ σ, match h with
       | Whole l =>
           match σ !! l with
           | Some (MaskArray a) => Done a σ
           | _ => TypeError
           end
       | View l k =>
           match σ !! l with
           | Some (OutArray a) => Done (channel a k) σ
           | _ => TypeError
           end
       end.

(** [h[r0:r1, c0:c1] = v] *)
Definition setitem_slice (h : array2) (r0 r1 c0 c1 : Z) (v : bool) : M unit :=
  λ σ, match h with
       | Whole l =>
           match σ !! l with
           | Some (MaskArray a) =>
               Done () (<[l := MaskArray (assign_slice a r0 r1 c0 c1 v)]> σ)
           | Some (NumArray a) =>
               Done () (<[l := NumArray
                                 (assign_slice_chans a r0 r1 c0 c1 (Z.b2z v))]> σ)
           | Some (OutArray a) =>
               Done () (<[l := OutArray (assign_slice_chans a r0 r1 c0 c1 v)]> σ)
           | None => TypeError
           end
       | View l k =>
           match σ !! l with
           | Some (NumArray a) =>
               Done () (<[l := NumArray
                                 (assign_slice3 a r0 r1 c0 c1 k (Z.b2z v))]> σ)
           | Some (OutArray a) =>
               Done () (<[l := OutArray (assign_slice3 a r0 r1 c0 c1 k v)]> σ)
           | _ => TypeError
           end
       end.

(** [h[i][j] = v] *)
Definition setitem_cell (h : array2) (i j : Z) (v : bool) : M unit :=
  λ σ, match h with
       | Whole l =>
           match σ !! l with
           | Some (MaskArray a) =>
               Done () (<[l := MaskArray (assign_cell a i j v)]> σ)
           | Some (NumArray a) =>
               Done () (<[l := NumArray (assign_cell_chans a i j (Z.b2z v))]> σ)
           | Some (OutArray a) =>
               Done () (<[l := OutArray (assign_cell_chans a i j v)]> σ)
           | None => TypeError
           end
       | View l k =>
           match σ !! l with
           | Some (NumArray a) =>
               Done () (<[l := NumArray (assign_cell3 a i j k (Z.b2z v))]> σ)
           | Some (OutArray a) =>
               Done () (<[l := OutArray (assign_cell3 a i j k v)]> σ)
           | _ => TypeError
           end
       end.

(** [dst[:, :, k] = src] for a boolean [src]. *)
Definition setitem_chan (dst : nat) (k : nat) (src : array2) : M unit :=
  let* m := get_mask src in
  λ σ, match σ !! dst with
       | Some (OutArray a) => Done () (<[dst := OutArray (assign_channel a k m)]> σ)
       | Some (NumArray a) =>
           Done () (<[dst := NumArray
                               (Ndarray3 (dim_rows a) (dim_cols a) (dim_chans a)
                                  (λ i j k', if (k' =? k)%nat
                                             then Z.b2z (at2 m i j)
                                             else at3 a i j k'))]> σ)
       | _ => TypeError
       end.

(** [chan_img <= min_val]: a new boolean array. *)
Definition le_scalar_st (h : array2) (v : Z) : M array2 :=
  let* a := get_num h in
  let* l := new (MaskArray (le_scalar a v)) in
  ret (Whole l).

(** [np.logical_not(mask)]: a new boolean array. *)
Definition logical_not_st (h : array2) : M array2 :=
  let* a := get_mask h in
  let* l := new (MaskArray (logical_not a)) in
  ret (Whole l).

(** Lines 195-196. *)
Definition remove_boundaries_st (mask : array2) (p_rows p_cols i_rows i_cols : Z)
  : M unit :=
  let* _ := setitem_slice mask (i_rows - p_rows + 1) i_rows 0 i_cols false in
  setitem_slice mask 0 i_rows (i_cols - p_cols + 1) i_cols false.

(** Lines 254-255 and 258-259. *)
Definition brute_force_st (mask : array2) (p_rows p_cols : Z)
    (edge_pixels : list (Z * Z)) : M unit :=
  for_each edge_pixels
    (λ '(i, j),
       setitem_slice mask (Z.max 0 (i - p_rows + 1)) (i + 1)
         (Z.max 0 (j - p_cols + 1)) (j + 1) false).

(** Lines 276-278: [chan_img] is read through its view at every step. *)
Definition threshold_pass_st (chan_img mask : array2)
    (p_rows p_cols threshold_val : Z) (possible_locations : list (Z * Z))
  : M unit :=
  for_each possible_locations
    (λ '(i, j),
       let* a := get_num chan_img in
       if mean_le (slice_cells a i (i + p_rows) j (j + p_cols)) threshold_val
       then setitem_cell mask i j true
       else ret ()).

(** Lines 282-293. *)
Definition bounding_boxes_st (num_boxes p_rows p_cols i_rows i_cols : Z)
    (img_mask mask : array2) : M unit :=
  for_each (seqZ 0 num_boxes) (λ i,
    for_each (seqZ 0 num_boxes) (λ j,
      let left_ := (j * i_cols) `div` num_boxes in
      let top := (i * i_rows) `div` num_boxes in
      let right_ := ((j + 1) * i_cols) `div` num_boxes in
      let bottom := ((i + 1) * i_rows) `div` num_boxes in
      let* img_mask_v := get_mask img_mask in
      match _get_bounding_box (view2 img_mask_v top bottom left_ right_) with
      | Some (x, y, w, h) =>
          setitem_slice mask (Z.max 0 (top + y - p_rows + 1)) (top + y + h)
            (Z.max 0 (left_ + x - p_cols + 1)) (left_ + x + w) false
      | None => ret ()
      end)).

(** Lines 229-248. *)
Definition update_invalidation_st (mask : array2) (p_rows p_cols : Z)
    (curr_i curr_j action_i action_j : Z) : M unit :=
  let top_index := Z.max 0 (curr_i - p_rows + 1) in
  let left_index := Z.max 0 (curr_j - p_cols + 1) in
  let* _ :=
    if action_i <? 0 then
      setitem_slice mask top_index (top_index - action_i)
        left_index (curr_j + 1) false
    else if action_i >? 0 then
      setitem_slice mask (curr_i - action_i + 1) (curr_i + 1)
        left_index (curr_j + 1) false
    else ret () in
  if action_j <? 0 then
    setitem_slice mask top_index (curr_i + 1)
      left_index (left_index - action_j) false
  else if action_j >? 0 then
    setitem_slice mask top_index (curr_i + 1)
      (curr_j - action_j + 1) (curr_j + 1) false
  else ret ().

(** Lines 223-251.  The set of edge pixels is a local object of the call
    and is threaded through as a value. *)
Fixpoint trace_loop_st (fuel : nat) (mask : array2)
    (p_rows p_cols i_rows i_cols : Z) (curr_i curr_j : Z)
    (move : option (Z * Z)) (edge_pixel_set : gset (Z * Z))
  : M (gset (Z * Z)) :=
  match move with
  | None => ret edge_pixel_set
  | Some (action_i, action_j) =>
      match fuel with
      | O => lift (Raise FuelExhausted)
      | S fuel =>
          let curr_i := curr_i + action_i in
          let curr_j := curr_j + action_j in
          let* _ := update_invalidation_st mask p_rows p_cols curr_i curr_j
                      action_i action_j in
          match _get_next_edge_from_pixel curr_i curr_j i_rows i_cols
                  edge_pixel_set with
          | None => lift (Raise FuelExhausted)
          | Some (move, edge_pixel_set) =>
              trace_loop_st fuel mask p_rows p_cols i_rows i_cols curr_i curr_j
                move edge_pixel_set
          end
      end
  end.

Section ValidLocationsStore.

Variable pick : gset (Z * Z) → nat.

(** Lines 212-251. *)
Fixpoint edge_tracing_loop_st (fuel : nat) (mask : array2)
    (p_rows p_cols i_rows i_cols : Z) (edge_pixel_set : gset (Z * Z))
  : M unit :=
  match elements edge_pixel_set with
  | [] => ret ()
  | first :: others =>
      match fuel with
      | O => lift (Raise FuelExhausted)
      | S fuel =>
          let '(start_i, start_j) :=
            nth (pick edge_pixel_set `mod` S (length others))%nat
                (first :: others) first in
          let edge_pixel_set := edge_pixel_set ∖ {[ (start_i, start_j) ]} in
          let top_boundary := Z.max 0 (start_i - p_rows + 1) in
          let left_boundary := Z.max 0 (start_j - p_cols + 1) in
          let* _ := setitem_slice mask top_boundary (start_i + 1)
                      left_boundary (start_j + 1) false in
          let* edge_pixel_set :=
            trace_loop_st (S (size edge_pixel_set)) mask p_rows p_cols
              i_rows i_cols start_i start_j (Some (0, 0)) edge_pixel_set in
          edge_tracing_loop_st fuel mask p_rows p_cols i_rows i_cols
            edge_pixel_set
      end
  end.

Definition edge_tracing_st (mask : array2) (p_rows p_cols i_rows i_cols : Z)
    (edge_pixels : list (Z * Z)) : M unit :=
  let edge_pixel_set : gset (Z * Z) := list_to_set edge_pixels in
  edge_tracing_loop_st (size edge_pixel_set) mask p_rows p_cols i_rows i_cols
    edge_pixel_set.

(** Lines 198-294: the arrays the filters and [np.nonzero] return are
    temporaries that nothing else refers to; they are kept as values. *)
Definition apply_algorithm_st (algo_config : InsertAtRandomLocationConfig)
    (num_chans chan_idx : nat) (chan_img : array2)
    (p_rows p_cols i_rows i_cols : Z) (img_mask mask : array2) : M unit :=
  let* img_mask_v := get_mask img_mask in
  let edge_pixels := edge_pixel_coords img_mask_v in
  if String.eqb (algorithm algo_config) "edge_tracing" then
    edge_tracing_st mask p_rows p_cols i_rows i_cols edge_pixels
  else if String.eqb (algorithm algo_config) "brute_force" then
    brute_force_st mask p_rows p_cols edge_pixels
  else if String.eqb (algorithm algo_config) "threshold" then
    let* _ := brute_force_st mask p_rows p_cols edge_pixels in
    let* mask_v := get_mask mask in
    let possible_locations := nonzero mask_v in
    let* threshold_val :=
      lift (resolve (threshold_val algo_config) num_chans chan_idx) in
    threshold_pass_st chan_img mask p_rows p_cols threshold_val
      possible_locations
  else if String.eqb (algorithm algo_config) "bounding_boxes" then
    bounding_boxes_st (num_boxes algo_config) p_rows p_cols i_rows i_cols
      img_mask mask
  else ret ().

(** Lines 179-294 for one channel; returns the working [mask]. *)
Definition channel_mask_st (algo_config : InsertAtRandomLocationConfig)
    (num_chans chan_idx : nat) (chan_img : array2)
    (p_rows p_cols i_rows i_cols : Z) : M array2 :=
  let* min_val := lift (resolve (min_val algo_config) num_chans chan_idx) in
  let* mask := le_scalar_st chan_img min_val in
  let* img_mask := logical_not_st mask in
  let* _ := remove_boundaries_st mask p_rows p_cols i_rows i_cols in
  let* _ := apply_algorithm_st algo_config num_chans chan_idx chan_img
              p_rows p_cols i_rows i_cols img_mask mask in
  ret mask.

(** Lines 167-300. *)
Fixpoint channels_loop_st (img pattern : nat)
    (algo_config : InsertAtRandomLocationConfig) (protect_wrap : bool)
    (allow_overlap : list bool) (num_chans : nat) (chans : list nat)
    (output_mask : nat) : M unit :=
  match chans with
  | [] => ret ()
  | chan_idx :: chans =>
      let chan_img := View img chan_idx in
      let chan_pattern := View pattern chan_idx in
      let* i_shape := shape2 chan_img in
      let* p_shape := shape2 chan_pattern in
      let i_rows := Z.of_nat i_shape.1 in
      let i_cols := Z.of_nat i_shape.2 in
      let p_rows := Z.of_nat p_shape.1 in
      let p_cols := Z.of_nat p_shape.2 in
      match allow_overlap !! chan_idx with
      | None => lift (Raise IndexError)
      | Some true =>
          let* _ := setitem_slice (View output_mask chan_idx)
                      0 (i_rows - p_rows + 1) 0 (i_cols - p_cols + 1) true in
          channels_loop_st img pattern algo_config protect_wrap allow_overlap
            num_chans chans output_mask
      | Some false =>
          if protect_wrap then
            let* mask := channel_mask_st algo_config num_chans chan_idx
                           chan_img p_rows p_cols i_rows i_cols in
            let* _ := setitem_chan output_mask chan_idx mask in
            channels_loop_st img pattern algo_config protect_wrap allow_overlap
              num_chans chans output_mask
          else lift (Raise UnsupportedMode)
      end
  end.

(** [valid_locations] on references; returns the reference of the mask. *)
Definition valid_locations_st (img pattern : nat)
    (algo_config : InsertAtRandomLocationConfig)
    (protect_wrap : bool) (allow_overlap : per_channel bool) : M nat :=
  let* img_shape := shape3 img in
  let* pattern_shape := shape3 pattern in
  let num_chans := img_shape.2 in
  let allow_overlap := broadcast allow_overlap num_chans in
  if negb (pattern_shape.2 =? num_chans)%nat then lift (Raise ShapeMismatch)
  else
    let* output_mask :=
      new (OutArray (zeros img_shape.1.1 img_shape.1.2 img_shape.2)) in
    let* _ := channels_loop_st img pattern algo_config protect_wrap
                allow_overlap num_chans (seq 0 num_chans) output_mask in
    ret output_mask.

End ValidLocationsStore.

(** ** Vocabulary of the statements *)

(** The anchor [(r, c)] lies in the rectangle of anchors invalidated for the
    pixel [p]: [max(0, i - p_rows + 1) : i + 1] by
    [max(0, j - p_cols + 1) : j + 1]. *)
Definition covers (p_rows p_cols : Z) (p : Z * Z) (r c : Z) : Prop :=
  Z.max 0 (p.1 - p_rows + 1) ≤ r ≤ p.1 ∧ Z.max 0 (p.2 - p_cols + 1) ≤ c ≤ p.2.

(** [mask] has the shape of [mask0] and, cell by cell inside the array:
    a valid cell was valid in [mask0] and is covered by no pixel of [D];
    an invalid cell was invalid in [mask0] or is covered by a pixel of [E]. *)
Definition tracks (p_rows p_cols : Z) (mask0 : ndarray2 bool)
    (E : gset (Z * Z)) (mask : ndarray2 bool) (D : Z * Z → Prop) : Prop :=
  nrows mask = nrows mask0 ∧ ncols mask = ncols mask0 ∧
  ∀ r c, 0 ≤ r < Z.of_nat (nrows mask0) → 0 ≤ c < Z.of_nat (ncols mask0) →
    (at2 mask r c = true →
     at2 mask0 r c = true ∧ ∀ p, D p → ¬ covers p_rows p_cols p r c)
    ∧ (at2 mask r c = false →
       at2 mask0 r c = false ∨ ∃ p, p ∈ E ∧ covers p_rows p_cols p r c).

(** Two masks of one shape that agree on every cell of the array. *)
Definition same_mask (m1 m2 : ndarray2 bool) : Prop :=
  nrows m1 = nrows m2 ∧ ncols m1 = ncols m2 ∧
  ∀ r c, 0 ≤ r < Z.of_nat (nrows m1) → 0 ≤ c < Z.of_nat (ncols m1) →
    at2 m1 r c = at2 m2 r c.

(** The cells written by the update after the move [(ai, aj)] that ended at
    [(ci, cj)] (lines 236-248). *)
Definition written (p_rows p_cols ci cj ai aj r c : Z) : Prop :=
  let top := Z.max 0 (ci - p_rows + 1) in
  let left_ := Z.max 0 (cj - p_cols + 1) in
  (ai < 0 ∧ top ≤ r < top - ai ∧ left_ ≤ c < cj + 1)
  ∨ (ai > 0 ∧ ci - ai + 1 ≤ r < ci + 1 ∧ left_ ≤ c < cj + 1)
  ∨ (aj < 0 ∧ top ≤ r < ci + 1 ∧ left_ ≤ c < left_ - aj)
  ∨ (aj > 0 ∧ top ≤ r < ci + 1 ∧ cj - aj + 1 ≤ c < cj + 1).

(** What a call of [_get_next_edge_from_pixel] leaves behind: either no
    move and the same set, or a move along a run of pixels taken out of the
    set. *)
Definition next_edge_post (ci cj : Z) (s : gset (Z * Z))
    (move : option (Z * Z)) (s' : gset (Z * Z)) : Prop :=
  s' ⊆ s ∧
  match move with
  | None => s ⊆ s'
  | Some (ai, aj) =>
      ∃ di dj L,
        (di, dj) ∈ DIRECTIONS ∧ 1 ≤ L ∧ (di ≠ 0 → dj ≠ 0 → L ≤ 1)
        ∧ ai = di * L ∧ aj = dj * L
        ∧ (∀ p, p ∈ s → p ∉ s' → ∃ t, 1 ≤ t ≤ L ∧ p = (ci + t * di, cj + t * dj))
        ∧ (∀ t, 1 ≤ t ≤ L → (ci + t * di, cj + t * dj) ∈ s)
        ∧ (size s' < size s)%nat
  end.

(** Two 3-D masks of one shape that agree on every cell. *)
Definition same_mask3 (m1 m2 : ndarray3 bool) : Prop :=
  dim_rows m1 = dim_rows m2 ∧ dim_cols m1 = dim_cols m2
  ∧ dim_chans m1 = dim_chans m2
  ∧ ∀ r c k,
      0 ≤ r < Z.of_nat (dim_rows m1) → 0 ≤ c < Z.of_nat (dim_cols m1) →
      (k < dim_chans m1)%nat →
      at3 m1 r c k = at3 m2 r c k.

(** Two calls end the same way: both return, with masks that agree, or both
    raise the same Python exception. *)
Definition same_outcome (r1 r2 : result (ndarray3 bool)) : Prop :=
  match r1, r2 with
  | Ok m1, Ok m2 => same_mask3 m1 m2
  | Raise e1, Raise e2 => e1 = e2 ∧ e1 ≠ FuelExhausted
  | _, _ => False
  end.

(** [m'] has the shape of [m] and every valid cell of [m'] is valid in [m]:
    [m'] is [m] with some cells cleared. *)
Definition below (m' m : ndarray2 bool) : Prop :=
  nrows m' = nrows m ∧ ncols m' = ncols m ∧
  ∀ r c, at2 m' r c = true → at2 m r c = true.

(** Rows of a mask channel, for display and comparison. *)
Definition to_rows {A} (m : ndarray2 A) : list (list A) :=
  (λ i, (λ j, at2 m i j) <$> seqZ 0 (Z.of_nat (ncols m)))
    <$> seqZ 0 (Z.of_nat (nrows m)).

Definition mask_rows (r : result (ndarray3 bool)) (k : nat)
  : option (list (list bool)) :=
  match r with
  | Ok m => Some (to_rows (channel m k))
  | Raise _ => None
  end.

(** ** Concrete inputs *)

(** The order in which [set.pop()] hands out pixels in the examples. *)
Definition pick_first : gset (Z * Z) → nat := λ _, 0%nat.
Definition pick_last : gset (Z * Z) → nat := λ s, pred (size s).

Definition config (alg : string) (mv tv : Z) : InsertAtRandomLocationConfig :=
  {| algorithm := alg; min_val := Uniform mv; threshold_val := Uniform tv;
     num_boxes := 1 |}.

(** The 10x10 image with a 3x3 block of ones at rows 2..4, columns 2..4. *)
Definition block_img : ndarray3 Z :=
  stack1 (Ndarray2 10 10
    (λ i j, if (2 <=? i) && (i <=? 4) && (2 <=? j) && (j <=? 4) then 1 else 0)).

(** A 2x2 single-channel pattern (its cells are never read). *)
Definition pattern_2x2 : ndarray3 Z := full3 2 2 1 0.

(** A 1x1 channel holding the value 3, and a 1x1 pattern. *)
Definition dim_pixel : ndarray2 Z := of_rows 0 1 [[3]].
Definition pattern_1x1 : ndarray2 Z := of_rows 0 1 [[0]].

(** A 3-channel image against a 2-channel pattern. *)
Definition img_3chan : ndarray3 Z := full3 4 4 3 0.
Definition pattern_2chan : ndarray3 Z := full3 2 2 2 0.

(** A pattern with no rows against a 3x3 image with two foreground pixels. *)
Definition two_pixel_img : ndarray3 Z :=
  stack1 (of_rows 0 3 [[0; 1; 0]; [0; 1; 0]; [0; 0; 0]]).
Definition pattern_0x2 : ndarray3 Z := full3 0 2 1 0.

(** A 3x1 image of zeros and a 5x1 pattern. *)
Definition short_img : ndarray3 Z := full3 3 1 1 0.
Definition tall_pattern : ndarray3 Z := full3 5 1 1 0.

(** A store that holds the scenario image at 0 and the 2x2 pattern at 1. *)
Definition scenario_store : gmap nat object :=
  <[0%nat := NumArray block_img]> (<[1%nat := NumArray pattern_2x2]> ∅).

(** Configurations whose [min_val] or [threshold_val] is a sequence. *)
Definition config_seq (alg : string) (mvs tvs : per_channel Z)
  : InsertAtRandomLocationConfig :=
  {| algorithm := alg; min_val := mvs; threshold_val := tvs; num_boxes := 1 |}.

(** The pixel one step from [(ci, cj)] in direction [d] is inside an
    [i_rows] x [i_cols] array and belongs to [s]. *)
Definition neighbour_in (i_rows i_cols : Z) (s : gset (Z * Z)) (ci cj : Z)
    (d : Z * Z) : Prop :=
  (0 ≤ ci + d.1 < i_rows ∧ 0 ≤ cj + d.2 < i_cols) ∧ (ci + d.1, cj + d.2) ∈ s.

(** A configuration value that is a scalar, or a sequence with one entry
    for each of the [num_chans] channels. *)
Definition per_channel_fits {A} (p : per_channel A) (num_chans : nat) : Prop :=
  match p with
  | Uniform _ => True
  | PerChannel vs => length vs = num_chans
  end.

(** * Properties *)

(** ** Basic facts about slices *)

Lemma slice_bound_nonneg n x : 0 ≤ x → slice_bound n x = Z.min x n.
Proof. unfold slice_bound. destruct (Z.ltb_spec x 0); lia. Qed.

Lemma in_slice_true n s e i :
  in_slice n s e i = true ↔ slice_bound n s ≤ i < slice_bound n e.
Proof. unfold in_slice. rewrite andb_true_iff, Z.leb_le, Z.ltb_lt. tauto. Qed.

Lemma in_slice_nonneg n s e i :
  0 ≤ s → 0 ≤ e →
  in_slice n s e i = true ↔ s ≤ i ∧ i < e ∧ i < n.
Proof.
  intros Hs He. rewrite in_slice_true, !slice_bound_nonneg by done. lia.
Qed.

Lemma elem_of_slice_range n s e i :
  i ∈ slice_range n s e ↔ slice_bound n s ≤ i < slice_bound n e.
Proof. unfold slice_range. rewrite elem_of_seqZ. lia. Qed.

Lemma logical_or_reduce_slice_true a r0 r1 c0 c1 :
  logical_or_reduce_slice a r0 r1 c0 c1 = true ↔
  ∃ i j, in_slice (Z.of_nat (nrows a)) r0 r1 i = true
       ∧ in_slice (Z.of_nat (ncols a)) c0 c1 j = true
       ∧ at2 a i j ≠ 0.
Proof.
  unfold logical_or_reduce_slice. rewrite existsb_exists. split.
  - intros (i & Hi & Hex). apply existsb_exists in Hex as (j & Hj & Hv).
    exists i, j. rewrite !in_slice_true.
    apply list_elem_of_In, elem_of_slice_range in Hi.
    apply list_elem_of_In, elem_of_slice_range in Hj.
    unfold truthy in Hv. apply negb_true_iff, Z.eqb_neq in Hv. done.
  - intros (i & j & Hi & Hj & Hv). rewrite in_slice_true in Hi, Hj.
    exists i. split; [by apply list_elem_of_In, elem_of_slice_range|].
    apply existsb_exists. exists j.
    split; [by apply list_elem_of_In, elem_of_slice_range|].
    unfold truthy. by apply negb_true_iff, Z.eqb_neq.
Qed.

(** ** [pattern_fit] *)

Lemma valid_location_false (chan_img chan_pattern : ndarray2 Z) (r c : Z) :
  valid_location chan_img chan_pattern (r, c) = false ↔
  ∃ i j,
    in_slice (Z.of_nat (nrows chan_img)) r (r + Z.of_nat (nrows chan_pattern)) i = true
    ∧ in_slice (Z.of_nat (ncols chan_img)) c (c + Z.of_nat (ncols chan_pattern)) j = true
    ∧ at2 chan_img i j ≠ 0.
Proof.
  unfold valid_location. rewrite <- logical_or_reduce_slice_true.
  destruct (logical_or_reduce_slice _ _ _ _ _); intuition congruence.
Qed.

Lemma pattern_fit_out_of_bounds (chan_img chan_pattern : ndarray2 Z) (r c : Z) :
  r + Z.of_nat (nrows chan_pattern) > Z.of_nat (nrows chan_img)
  ∨ c + Z.of_nat (ncols chan_pattern) > Z.of_nat (ncols chan_img) →
  pattern_fit chan_img chan_pattern (r, c) = false.
Proof.
  intros Hout. unfold pattern_fit.
  destruct (Z.gtb_spec (r + Z.of_nat (nrows chan_pattern)) (Z.of_nat (nrows chan_img)));
    [done|].
  destruct (Z.gtb_spec (c + Z.of_nat (ncols chan_pattern)) (Z.of_nat (ncols chan_img)));
    [done|].
  lia.
Qed.

Lemma pattern_fit_in_bounds (chan_img chan_pattern : ndarray2 Z) (r c : Z) :
  r + Z.of_nat (nrows chan_pattern) ≤ Z.of_nat (nrows chan_img) →
  c + Z.of_nat (ncols chan_pattern) ≤ Z.of_nat (ncols chan_img) →
  pattern_fit chan_img chan_pattern (r, c)
  = valid_location chan_img chan_pattern (r, c).
Proof.
  intros Hr Hc. unfold pattern_fit.
  destruct (Z.gtb_spec (r + Z.of_nat (nrows chan_pattern)) (Z.of_nat (nrows chan_img)));
    [lia|].
  destruct (Z.gtb_spec (c + Z.of_nat (ncols chan_pattern)) (Z.of_nat (ncols chan_img)));
    [lia|].
  by destruct (valid_location chan_img chan_pattern (r, c)).
Qed.

(** C3, as amended.  [pattern_fit] returns false whenever the footprint
    leaves the image.  For an anchor with non-negative coordinates whose
    footprint is inside the image, it returns false exactly when some pixel of
    the footprint is non-zero: no background threshold takes part, a pixel
    is background exactly when its value is 0. *)
Theorem pattern_fit_spec (chan_img chan_pattern : ndarray2 Z) (r c : Z) :
  let p_rows := Z.of_nat (nrows chan_pattern) in
  let p_cols := Z.of_nat (ncols chan_pattern) in
  let i_rows := Z.of_nat (nrows chan_img) in
  let i_cols := Z.of_nat (ncols chan_img) in
  (r + p_rows > i_rows ∨ c + p_cols > i_cols →
   pattern_fit chan_img chan_pattern (r, c) = false)
  ∧ (0 ≤ r → 0 ≤ c → r + p_rows ≤ i_rows → c + p_cols ≤ i_cols →
     (pattern_fit chan_img chan_pattern (r, c) = false ↔
      ∃ i j, r ≤ i < r + p_rows ∧ c ≤ j < c + p_cols ∧ at2 chan_img i j ≠ 0)).
Proof.
  intros p_rows p_cols i_rows i_cols. split.
  - apply pattern_fit_out_of_bounds.
  - intros Hr Hc Hrb Hcb.
    rewrite pattern_fit_in_bounds, valid_location_false by done.
    split; intros (i & j & Hi & Hj & Hv); exists i, j.
    + rewrite in_slice_nonneg in Hi, Hj by lia. unfold p_rows, p_cols. lia.
    + rewrite !in_slice_nonneg by lia.
      unfold p_rows, p_cols, i_rows, i_cols in *. repeat split; (done || lia).
Qed.

Lemma pattern_fit_spec_witness :
  pattern_fit (channel block_img 0) (channel pattern_2x2 0) (9, 0) = false
  ∧ pattern_fit (channel block_img 0) (channel pattern_2x2 0) (1, 1) = false.
Proof.
  pose proof (pattern_fit_spec (channel block_img 0) (channel pattern_2x2 0) 9 0)
    as [Hout _].
  pose proof (pattern_fit_spec (channel block_img 0) (channel pattern_2x2 0) 1 1)
    as [_ Hin].
  split.
  - apply Hout. left. simpl. lia.
  - apply Hin; simpl; try lia.
    exists 2, 2. repeat split; try lia. simpl. lia.
Defined.

(** C3 as stated fails: with the background threshold [min_val = 5] a pixel
    of value 3 is background (line 189, [chan_img <= min_val]), so no pixel of
    the footprint is foreground, and yet [pattern_fit] returns false. *)
Lemma pattern_fit_ignores_threshold :
  pattern_fit dim_pixel pattern_1x1 (0, 0) = false
  ∧ ¬ ∃ i j, 0 ≤ i < 0 + 1 ∧ 0 ≤ j < 0 + 1
             ∧ at2 (logical_not (le_scalar dim_pixel 5)) i j = true.
Proof.
  split; [reflexivity|].
  intros (i & j & Hi & Hj & Hfg).
  assert (i = 0) as -> by lia. assert (j = 0) as -> by lia.
  discriminate Hfg.
Qed.

(** The same for every threshold: whatever [min_val] is, some one-pixel
    image is classified as all background and still rejected. *)
Lemma pattern_fit_no_threshold_fits :
  ∀ min_val : Z, ∃ chan_img : ndarray2 Z,
    pattern_fit chan_img pattern_1x1 (0, 0) = false
    ∧ at2 (logical_not (le_scalar chan_img min_val)) 0 0 = false.
Proof.
  intros min_val. destruct (decide (min_val = 0)) as [->|Hne].
  - exists (of_rows 0 1 [[-1]]). done.
  - exists (of_rows 0 1 [[min_val]]). split.
    + unfold pattern_fit, valid_location, logical_or_reduce_slice; simpl.
      unfold truthy. destruct (Z.eqb_spec min_val 0); done.
    + simpl. apply negb_false_iff, Z.leb_le. lia.
Qed.

(** ** Errors raised by [valid_locations] *)

(** C8.  A pattern whose channel count differs from the image's makes
    [valid_locations] raise the channel-count error; no mask is returned,
    whatever the configuration, and no channel is processed. *)
Theorem valid_locations_shape_mismatch pick (img pattern : ndarray3 Z)
    algo_config protect_wrap allow_overlap :
  dim_chans pattern ≠ dim_chans img →
  valid_locations pick img pattern algo_config protect_wrap allow_overlap
  = Raise ShapeMismatch.
Proof.
  intros Hne. unfold valid_locations.
  destruct (Nat.eqb_spec (dim_chans pattern) (dim_chans img)); done.
Qed.

Lemma valid_locations_shape_mismatch_witness :
  valid_locations pick_first img_3chan pattern_2chan
    (config "brute_force" 0 0) true (Uniform false)
  = Raise ShapeMismatch.
Proof.
  apply (valid_locations_shape_mismatch pick_first img_3chan pattern_2chan).
  simpl. lia.
Defined.

Lemma lookup_broadcast_uniform (b : bool) (n k : nat) :
  (k < n)%nat → broadcast (Uniform b) n !! k = Some b.
Proof. intros Hk. simpl. by apply lookup_replicate_2. Qed.

(** Without wrap protection the loop stops at the first channel that does
    not allow overlap. *)
Lemma channels_loop_unsupported pick img pattern algo_config
    (allow_overlap : list bool) (n s : nat) output_mask :
  (∃ k, (s ≤ k < s + n)%nat ∧ allow_overlap !! k = Some false) →
  channels_loop pick img pattern algo_config false allow_overlap (seq s n)
    output_mask
  = Raise UnsupportedMode.
Proof.
  revert s output_mask. induction n as [|n IH]; intros s output_mask (k & Hk & Hf).
  - lia.
  - simpl. destruct (allow_overlap !! s) as [[|]|] eqn:Hs.
    + apply IH. exists k. split; [|done].
      destruct (decide (k = s)) as [->|]; [congruence|lia].
    + done.
    + apply lookup_ge_None in Hs. apply lookup_lt_Some in Hf. lia.
Qed.

(** With [protect_wrap = false], equal channel counts and at least one
    channel that does not allow overlap, [valid_locations] raises the wrap
    error and returns no mask. *)
Theorem valid_locations_unsupported_mode pick (img pattern : ndarray3 Z)
    algo_config allow_overlap :
  dim_chans pattern = dim_chans img →
  (∃ k, (k < dim_chans img)%nat
        ∧ broadcast allow_overlap (dim_chans img) !! k = Some false) →
  valid_locations pick img pattern algo_config false allow_overlap
  = Raise UnsupportedMode.
Proof.
  intros Heq (k & Hk & Hf). unfold valid_locations.
  rewrite Heq, Nat.eqb_refl. simpl.
  apply channels_loop_unsupported. exists k. split; [lia|done].
Qed.

Lemma valid_locations_unsupported_mode_witness :
  valid_locations pick_first block_img pattern_2x2 (config "brute_force" 0 0)
    false (Uniform false)
  = Raise UnsupportedMode.
Proof.
  apply (valid_locations_unsupported_mode pick_first block_img pattern_2x2).
  - reflexivity.
  - exists 0%nat. split; [simpl; lia | reflexivity].
Defined.

(** C7.  The claim is that a call with [protect_wrap = false] raises the
    wrap error whatever the other settings, also when overlap is allowed.
    The code breaks it: the test of [protect_wrap] sits in the branch of the
    channels that do not allow overlap, so when every channel allows overlap
    the call raises nothing and returns the rectangle of wrap-protected
    anchors (here with the anchor (0, 0) marked valid), where the other
    branch raises. *)
Theorem protect_wrap_false_returns_mask :
  ∃ mask,
    valid_locations pick_first block_img pattern_2x2 (config "brute_force" 0 0)
      false (Uniform true) = Ok mask
    ∧ at3 mask 0 0 0 = true.
Proof. eexists. split; reflexivity. Qed.

(** ** Edge pixels *)

Lemma elem_of_nonzero (m : ndarray2 bool) (i j : Z) :
  (i, j) ∈ nonzero m ↔
  0 ≤ i < Z.of_nat (nrows m) ∧ 0 ≤ j < Z.of_nat (ncols m) ∧ at2 m i j = true.
Proof.
  unfold nonzero. rewrite list_elem_of_bind. split.
  - intros (i' & Hin & Hi'). apply elem_of_seqZ in Hi'.
    apply list_elem_of_bind in Hin as (j' & Hin & Hj'). apply elem_of_seqZ in Hj'.
    destruct (at2 m i' j') eqn:Hv; [|by apply elem_of_nil in Hin].
    apply list_elem_of_singleton in Hin. inversion Hin; subst.
    split_and!; done || lia.
  - intros (Hi & Hj & Hv). exists i. split; [|apply elem_of_seqZ; lia].
    apply list_elem_of_bind. exists j. split; [|apply elem_of_seqZ; lia].
    rewrite Hv. by apply list_elem_of_singleton.
Qed.

Lemma maximum_filter_false (a : ndarray2 bool) (i j : Z) :
  at2 (maximum_filter a) i j = false ↔
  ∀ di dj, -1 ≤ di ≤ 1 → -1 ≤ dj ≤ 1 → padded a (i + di) (j + dj) = false.
Proof.
  simpl. rewrite !orb_false_iff. split.
  - intros H di dj Hdi Hdj.
    assert (di = -1 ∨ di = 0 ∨ di = 1) as [-> | [-> | ->]] by lia;
      assert (dj = -1 ∨ dj = 0 ∨ dj = 1) as [-> | [-> | ->]] by lia; tauto.
  - intros H. repeat split; try done; apply H; lia.
Qed.

Lemma minimum_filter_true (a : ndarray2 bool) (i j : Z) :
  at2 (minimum_filter a) i j = true ↔
  ∀ di dj, -1 ≤ di ≤ 1 → -1 ≤ dj ≤ 1 → padded a (i + di) (j + dj) = true.
Proof.
  simpl. rewrite !andb_true_iff. split.
  - intros H di dj Hdi Hdj.
    assert (di = -1 ∨ di = 0 ∨ di = 1) as [-> | [-> | ->]] by lia;
      assert (dj = -1 ∨ dj = 0 ∨ dj = 1) as [-> | [-> | ->]] by lia; tauto.
  - intros H. repeat split; try done; apply H; lia.
Qed.

Lemma padded_in_range (a : ndarray2 bool) (i j : Z) :
  0 ≤ i < Z.of_nat (nrows a) → 0 ≤ j < Z.of_nat (ncols a) →
  padded a i j = at2 a i j.
Proof.
  intros Hi Hj. unfold padded.
  destruct (Z.leb_spec 0 i), (Z.ltb_spec i (Z.of_nat (nrows a))),
    (Z.leb_spec 0 j), (Z.ltb_spec j (Z.of_nat (ncols a))); simpl; done || lia.
Qed.

(** On a foreground pixel the window maximum is true, so the two filters
    differ exactly when the window minimum is false. *)
Lemma filters_differ_iff (a : ndarray2 bool) (i j : Z) :
  0 ≤ i < Z.of_nat (nrows a) → 0 ≤ j < Z.of_nat (ncols a) →
  at2 a i j = true →
  (xorb (at2 (maximum_filter a) i j) (at2 (minimum_filter a) i j) = true ↔
   ∃ di dj, -1 ≤ di ≤ 1 ∧ -1 ≤ dj ≤ 1 ∧ padded a (i + di) (j + dj) = false).
Proof.
  intros Hi Hj Hfg.
  assert (at2 (maximum_filter a) i j = true) as Hmax.
  { destruct (at2 (maximum_filter a) i j) eqn:Hm; [done|].
    rewrite maximum_filter_false in Hm. specialize (Hm 0 0).
    rewrite !Z.add_0_r, padded_in_range in Hm by done.
    rewrite Hm in Hfg by lia. done. }
  rewrite Hmax, xorb_true_l, negb_true_iff. split.
  - intros Hmin. simpl in Hmin. rewrite !andb_false_iff in Hmin.
    destruct Hmin as [H|[H|[H|[H|[H|[H|[H|[H|[H|H]]]]]]]]]; [..|done];
      simpl in H; eexists _, _; (split; [|split; [|exact H]]); lia.
  - intros (di & dj & Hdi & Hdj & Hp).
    destruct (at2 (minimum_filter a) i j) eqn:Hmin; [|done].
    rewrite minimum_filter_true in Hmin. rewrite Hmin in Hp by done. done.
Qed.

(** Membership in the edge-pixel list, in terms of the neighbours. *)
Lemma elem_of_edge_pixel_coords (img_mask : ndarray2 bool) (i j : Z) :
  (i, j) ∈ edge_pixel_coords img_mask ↔
  0 ≤ i < Z.of_nat (nrows img_mask) ∧ 0 ≤ j < Z.of_nat (ncols img_mask)
  ∧ at2 img_mask i j = true
  ∧ ∃ di dj, -1 ≤ di ≤ 1 ∧ -1 ≤ dj ≤ 1
             ∧ padded img_mask (i + di) (j + dj) = false.
Proof.
  unfold edge_pixel_coords. rewrite elem_of_nonzero.
  change (at2 (logical_and (logical_xor (maximum_filter img_mask)
                              (minimum_filter img_mask)) img_mask) i j)
    with (xorb (at2 (maximum_filter img_mask) i j)
               (at2 (minimum_filter img_mask) i j) && at2 img_mask i j).
  change (nrows (logical_and _ _)) with (nrows img_mask).
  change (ncols (logical_and _ _)) with (ncols img_mask).
  rewrite andb_true_iff. split.
  - intros (Hi & Hj & Hx & Hfg). do 3 (split; [done|]).
    by apply filters_differ_iff.
  - intros (Hi & Hj & Hfg & Hex). do 2 (split; [done|]). split; [|done].
    by apply filters_differ_iff.
Qed.

(** C9.  A coordinate is in the edge-pixel set exactly when it is a
    foreground pixel of the channel whose 3x3 window, read as background
    outside the array, holds some background cell; equivalently, when it is a
    foreground pixel at which the window maximum and the window minimum of the
    foreground mask differ. *)
Theorem edge_pixel_coords_spec (img_mask : ndarray2 bool) (i j : Z) :
  ((i, j) ∈ edge_pixel_coords img_mask ↔
   0 ≤ i < Z.of_nat (nrows img_mask) ∧ 0 ≤ j < Z.of_nat (ncols img_mask)
   ∧ at2 img_mask i j = true
   ∧ ∃ di dj, -1 ≤ di ≤ 1 ∧ -1 ≤ dj ≤ 1
              ∧ padded img_mask (i + di) (j + dj) = false)
  ∧ ((i, j) ∈ edge_pixel_coords img_mask ↔
     0 ≤ i < Z.of_nat (nrows img_mask) ∧ 0 ≤ j < Z.of_nat (ncols img_mask)
     ∧ at2 img_mask i j = true
     ∧ at2 (maximum_filter img_mask) i j ≠ at2 (minimum_filter img_mask) i j).
Proof.
  split; [apply elem_of_edge_pixel_coords|].
  unfold edge_pixel_coords. rewrite elem_of_nonzero.
  change (at2 (logical_and (logical_xor (maximum_filter img_mask)
                              (minimum_filter img_mask)) img_mask) i j)
    with (xorb (at2 (maximum_filter img_mask) i j)
               (at2 (minimum_filter img_mask) i j) && at2 img_mask i j).
  change (nrows (logical_and _ _)) with (nrows img_mask).
  change (ncols (logical_and _ _)) with (ncols img_mask).
  rewrite andb_true_iff. split.
  - intros (Hi & Hj & Hx & Hfg). do 3 (split; [done|]).
    intros Heq. rewrite Heq, xorb_nilpotent in Hx. done.
  - intros (Hi & Hj & Hfg & Hne). do 2 (split; [done|]). split; [|done].
    destruct (at2 (maximum_filter img_mask) i j),
      (at2 (minimum_filter img_mask) i j); done.
Qed.

(** ** Writes to the working mask *)

Lemma at2_assign_slice_false (m : ndarray2 bool) (r0 r1 c0 c1 i j : Z) :
  0 ≤ r0 → 0 ≤ r1 → 0 ≤ c0 → 0 ≤ c1 →
  0 ≤ i < Z.of_nat (nrows m) → 0 ≤ j < Z.of_nat (ncols m) →
  at2 (assign_slice m r0 r1 c0 c1 false) i j = true ↔
  at2 m i j = true ∧ ¬ (r0 ≤ i < r1 ∧ c0 ≤ j < c1).
Proof.
  intros Hr0 Hr1 Hc0 Hc1 Hi Hj. simpl.
  destruct (in_slice (Z.of_nat (nrows m)) r0 r1 i) eqn:Hri;
    destruct (in_slice (Z.of_nat (ncols m)) c0 c1 j) eqn:Hcj; simpl.
  - apply in_slice_nonneg in Hri, Hcj; try done. split; [done|]. lia.
  - apply not_true_iff_false in Hcj. rewrite in_slice_nonneg in Hcj by done.
    split; [|tauto]. intros ->. split; [done|]. lia.
  - apply not_true_iff_false in Hri. rewrite in_slice_nonneg in Hri by done.
    split; [|tauto]. intros ->. split; [done|]. lia.
  - apply not_true_iff_false in Hri. rewrite in_slice_nonneg in Hri by done.
    split; [|tauto]. intros ->. split; [done|]. lia.
Qed.

Lemma update_invalidation_shape p_rows p_cols mask ci cj ai aj :
  nrows (update_invalidation p_rows p_cols mask ci cj ai aj) = nrows mask
  ∧ ncols (update_invalidation p_rows p_cols mask ci cj ai aj) = ncols mask.
Proof.
  unfold update_invalidation.
  destruct (ai <? 0), (ai >? 0), (aj <? 0), (aj >? 0); done.
Qed.

(** The cells written by [update_invalidation]. *)
Lemma at2_update_invalidation p_rows p_cols (mask : ndarray2 bool)
    (ci cj ai aj r c : Z) :
  0 ≤ ci → 0 ≤ cj → 0 ≤ ci - ai → 0 ≤ cj - aj →
  0 ≤ r < Z.of_nat (nrows mask) → 0 ≤ c < Z.of_nat (ncols mask) →
  let top := Z.max 0 (ci - p_rows + 1) in
  let left_ := Z.max 0 (cj - p_cols + 1) in
  at2 (update_invalidation p_rows p_cols mask ci cj ai aj) r c = true ↔
  at2 mask r c = true
  ∧ ¬ (ai < 0 ∧ top ≤ r < top - ai ∧ left_ ≤ c < cj + 1)
  ∧ ¬ (ai > 0 ∧ ci - ai + 1 ≤ r < ci + 1 ∧ left_ ≤ c < cj + 1)
  ∧ ¬ (aj < 0 ∧ top ≤ r < ci + 1 ∧ left_ ≤ c < left_ - aj)
  ∧ ¬ (aj > 0 ∧ top ≤ r < ci + 1 ∧ cj - aj + 1 ≤ c < cj + 1).
Proof.
  intros Hci Hcj Hoi Hoj Hr Hc top left_. unfold update_invalidation.
  fold top. fold left_.
  destruct (Z.ltb_spec ai 0), (Z.gtb_spec ai 0),
    (Z.ltb_spec aj 0), (Z.gtb_spec aj 0); try lia;
    rewrite ?at2_assign_slice_false by (simpl; lia); intuition lia.
Qed.

Lemma at2_update_invalidation_written p_rows p_cols (mask : ndarray2 bool)
    (ci cj ai aj r c : Z) :
  0 ≤ ci → 0 ≤ cj → 0 ≤ ci - ai → 0 ≤ cj - aj →
  0 ≤ r < Z.of_nat (nrows mask) → 0 ≤ c < Z.of_nat (ncols mask) →
  at2 (update_invalidation p_rows p_cols mask ci cj ai aj) r c = true ↔
  at2 mask r c = true ∧ ¬ written p_rows p_cols ci cj ai aj r c.
Proof.
  intros. rewrite at2_update_invalidation by done. unfold written. tauto.
Qed.

(** ** Geometry of one move of the perimeter walk *)

Lemma elem_of_DIRECTIONS (di dj : Z) :
  (di, dj) ∈ DIRECTIONS →
  (di = -1 ∧ dj = -1) ∨ (di = -1 ∧ dj = 1) ∨ (di = 1 ∧ dj = 1)
  ∨ (di = 1 ∧ dj = -1) ∨ (di = 0 ∧ dj = -1) ∨ (di = -1 ∧ dj = 0)
  ∨ (di = 0 ∧ dj = 1) ∨ (di = 1 ∧ dj = 0).
Proof.
  unfold DIRECTIONS. rewrite !elem_of_cons, elem_of_nil.
  intros H. repeat (destruct H as [H|H]; [inversion H; lia|]). done.
Qed.

Lemma covers_alt p_rows p_cols p r c :
  covers p_rows p_cols p r c ↔
  (0 ≤ r ∧ p.1 - p_rows + 1 ≤ r ∧ r ≤ p.1) ∧ (0 ≤ c ∧ p.2 - p_cols + 1 ≤ c ∧ c ≤ p.2).
Proof. unfold covers. lia. Qed.

(** Choice of the strip (or of the old rectangle) that holds the anchor. *)
Ltac in_V_neg := left; left; lia.
Ltac in_V_pos := left; right; left; lia.
Ltac in_H_neg := left; right; right; left; lia.
Ltac in_H_pos := left; right; right; right; lia.
Ltac in_old := right; lia.

(** Every anchor covered by a pixel of the run is written by the update or
    was covered by the pixel the move started from. *)
Lemma move_complete (p_rows p_cols oi oj di dj L t r c : Z) :
  1 ≤ p_rows → 1 ≤ p_cols → (di, dj) ∈ DIRECTIONS →
  (di ≠ 0 → dj ≠ 0 → L ≤ 1) → 1 ≤ t ≤ L →
  0 ≤ oi → 0 ≤ oj → 0 ≤ oi + di * L → 0 ≤ oj + dj * L →
  covers p_rows p_cols (oi + t * di, oj + t * dj) r c →
  written p_rows p_cols (oi + di * L) (oj + dj * L) (di * L) (dj * L) r c
  ∨ covers p_rows p_cols (oi, oj) r c.
Proof.
  intros Hpr Hpc Hdir Hdiag Ht Hoi Hoj Hni Hnj.
  rewrite !covers_alt. unfold written; cbn [fst snd].
  apply elem_of_DIRECTIONS in Hdir. intros Hcov.
  set (top := Z.max 0 (oi + di * L - p_rows + 1)).
  set (left_ := Z.max 0 (oj + dj * L - p_cols + 1)).
  pose proof (Z.max_spec 0 (oi + di * L - p_rows + 1)) as Htop. fold top in Htop.
  pose proof (Z.max_spec 0 (oj + dj * L - p_cols + 1)) as Hleft. fold left_ in Hleft.
  clearbody top left_.
  destruct Hdir as [[-> ->]|[[-> ->]|[[-> ->]|[[-> ->]|[[-> ->]|[[-> ->]|
    [[-> ->]|[-> ->]]]]]]]].
  - destruct (Z.lt_ge_cases r (top + L)); [in_V_neg|].
    destruct (Z.lt_ge_cases c (left_ + L)); [in_H_neg|in_old].
  - destruct (Z.lt_ge_cases r (top + L)); [in_V_neg|].
    destruct (Z.lt_ge_cases oj c); [in_H_pos|in_old].
  - destruct (Z.lt_ge_cases oi r); [in_V_pos|].
    destruct (Z.lt_ge_cases oj c); [in_H_pos|in_old].
  - destruct (Z.lt_ge_cases oi r); [in_V_pos|].
    destruct (Z.lt_ge_cases c (left_ + L)); [in_H_neg|in_old].
  - destruct (Z.lt_ge_cases c (left_ + L)); [in_H_neg|in_old].
  - destruct (Z.lt_ge_cases r (top + L)); [in_V_neg|in_old].
  - destruct (Z.lt_ge_cases oj c); [in_H_pos|in_old].
  - destruct (Z.lt_ge_cases oi r); [in_V_pos|in_old].
Qed.

(** Every written anchor is covered by some pixel of the run. *)
Lemma move_sound (p_rows p_cols oi oj di dj L r c : Z) :
  1 ≤ p_rows → 1 ≤ p_cols → (di, dj) ∈ DIRECTIONS →
  (di ≠ 0 → dj ≠ 0 → L ≤ 1) → 0 ≤ L →
  0 ≤ oi → 0 ≤ oj → 0 ≤ oi + di * L → 0 ≤ oj + dj * L →
  0 ≤ r → 0 ≤ c →
  written p_rows p_cols (oi + di * L) (oj + dj * L) (di * L) (dj * L) r c →
  ∃ t, 1 ≤ t ≤ L ∧ covers p_rows p_cols (oi + t * di, oj + t * dj) r c.
Proof.
  intros Hpr Hpc Hdir Hdiag HL Hoi Hoj Hni Hnj Hr Hc.
  setoid_rewrite covers_alt. unfold written; cbn [fst snd].
  apply elem_of_DIRECTIONS in Hdir.
  set (top := Z.max 0 (oi + di * L - p_rows + 1)).
  set (left_ := Z.max 0 (oj + dj * L - p_cols + 1)).
  pose proof (Z.max_spec 0 (oi + di * L - p_rows + 1)) as Htop. fold top in Htop.
  pose proof (Z.max_spec 0 (oj + dj * L - p_cols + 1)) as Hleft. fold left_ in Hleft.
  clearbody top left_.
  destruct Hdir as [[-> ->]|[[-> ->]|[[-> ->]|[[-> ->]|[[-> ->]|[[-> ->]|
    [[-> ->]|[-> ->]]]]]]]]; intros Hw;
    [ exists 1 | exists 1 | exists 1 | exists 1
    | exists (Z.max (oj - c - p_cols + 1) 1)
    | exists (Z.max (oi - r - p_rows + 1) 1)
    | exists (c - oj)
    | exists (r - oi) ];
    destruct Hw as [Hw|[Hw|[Hw|Hw]]]; lia.
Qed.

(** ** Masks that track a set of pixels *)

Section Tracking.

Variables p_rows p_cols : Z.
Variable mask0 : ndarray2 bool.
Variable E : gset (Z * Z).

Hypothesis p_rows_pos : 1 ≤ p_rows.
Hypothesis p_cols_pos : 1 ≤ p_cols.
Hypothesis E_in_range :
  ∀ i j, (i, j) ∈ E →
    0 ≤ i < Z.of_nat (nrows mask0) ∧ 0 ≤ j < Z.of_nat (ncols mask0).

Local Abbreviation tracked := (tracks p_rows p_cols mask0 E).

Lemma tracks_init : tracked mask0 (λ _, False).
Proof.
  split; [done|]. split; [done|]. intros r c Hr Hc. split.
  - intros ->. split; [done|]. intros p [].
  - intros ->. by left.
Qed.

Lemma tracks_weaken mask (D D' : Z * Z → Prop) :
  (∀ p, D' p → D p) → tracked mask D → tracked mask D'.
Proof.
  intros HD (Hnr & Hnc & H). split; [done|]. split; [done|].
  intros r c Hr Hc. destruct (H r c Hr Hc) as [Ht Hf]. split; [|done].
  intros Hm. destruct (Ht Hm) as [H0 Hcov]. split; [done|].
  intros p Hp. apply Hcov. by apply HD.
Qed.

(** One round of writes: [mask'] clears the cells of [W] and nothing else. *)
Lemma tracks_step mask mask' (D D' : Z * Z → Prop) (W : Z → Z → Prop) :
  tracked mask D →
  nrows mask' = nrows mask → ncols mask' = ncols mask →
  (∀ r c, W r c ∨ ¬ W r c) →
  (∀ r c, 0 ≤ r < Z.of_nat (nrows mask0) → 0 ≤ c < Z.of_nat (ncols mask0) →
     at2 mask' r c = true ↔ at2 mask r c = true ∧ ¬ W r c) →
  (∀ r c, 0 ≤ r → 0 ≤ c → W r c → ∃ p, p ∈ E ∧ covers p_rows p_cols p r c) →
  (∀ p r c, D' p → covers p_rows p_cols p r c → W r c ∨ ∃ q, D q ∧ covers p_rows p_cols q r c) →
  tracked mask' D'.
Proof.
  intros (Hnr & Hnc & H) Hnr' Hnc' Hdec Hat Hsound Hcompl.
  split; [congruence|]. split; [congruence|].
  intros r c Hr Hc. destruct (H r c Hr Hc) as [Ht Hf].
  specialize (Hat r c Hr Hc). split.
  - intros Hm. apply Hat in Hm as [Hm HW]. destruct (Ht Hm) as [H0 Hcov].
    split; [done|]. intros p Hp Hpc.
    destruct (Hcompl p r c Hp Hpc) as [HWr|(q & Hq & Hqc)]; [done|].
    by apply (Hcov q).
  - intros Hm. destruct (at2 mask r c) eqn:Hmask; [|by apply Hf].
    right. apply Hsound; [lia..|].
    destruct (Hdec r c) as [HW|HnW]; [done|].
    assert (at2 mask' r c = true) by (apply Hat; done). congruence.
Qed.

Lemma written_dec ci cj ai aj r c :
  written p_rows p_cols ci cj ai aj r c
  ∨ ¬ written p_rows p_cols ci cj ai aj r c.
Proof.
  assert (Decision (written p_rows p_cols ci cj ai aj r c)) as [H|H]
    by (unfold written; apply _); tauto.
Qed.

(** The rectangle of anchors of one pixel (lines 216-219 and 255). *)
Lemma tracks_assign_rect mask (D : Z * Z → Prop) (i j : Z) :
  tracked mask D → (i, j) ∈ E →
  tracked
    (assign_slice mask (Z.max 0 (i - p_rows + 1)) (i + 1)
       (Z.max 0 (j - p_cols + 1)) (j + 1) false)
    (λ p, D p ∨ p = (i, j)).
Proof.
  intros Htr Hin. destruct (E_in_range i j Hin) as [Hi Hj].
  pose proof Htr as (Hnr & Hnc & _).
  apply (tracks_step mask _ D _ (λ r c, covers p_rows p_cols (i, j) r c)); try done.
  - intros r c. unfold covers; cbn [fst snd]. lia.
  - intros r c Hr Hc. rewrite at2_assign_slice_false by lia.
    unfold covers; cbn [fst snd].
    split; intros [? ?]; (split; [done|lia]).
  - intros r c _ _ Hcov. by exists (i, j).
  - intros p r c [Hp| ->] Hcov; [right; by exists p | by left].
Qed.

(** The strips invalidated after a move of the walk. *)
Lemma tracks_update_invalidation mask (D : Z * Z → Prop) (oi oj di dj L : Z) :
  tracked mask D → D (oi, oj) →
  0 ≤ oi < Z.of_nat (nrows mask0) → 0 ≤ oj < Z.of_nat (ncols mask0) →
  (di, dj) ∈ DIRECTIONS → (di ≠ 0 → dj ≠ 0 → L ≤ 1) → 0 ≤ L →
  (∀ t, 1 ≤ t ≤ L → (oi + t * di, oj + t * dj) ∈ E) →
  tracked
    (update_invalidation p_rows p_cols mask (oi + di * L) (oj + dj * L)
       (di * L) (dj * L))
    (λ p, D p ∨ ∃ t, 1 ≤ t ≤ L ∧ p = (oi + t * di, oj + t * dj)).
Proof.
  intros Htr Hold Hoi Hoj Hdir Hdiag HL Hrun.
  pose proof Htr as (Hnr & Hnc & _).
  assert (0 ≤ oi + di * L ∧ 0 ≤ oj + dj * L) as [Hni Hnj].
  { destruct (decide (L = 0)) as [->|HL0]; [lia|].
    destruct (E_in_range _ _ (Hrun L ltac:(lia))) as [? ?]. lia. }
  apply (tracks_step mask _ D _
           (written p_rows p_cols (oi + di * L) (oj + dj * L) (di * L) (dj * L))).
  - done.
  - apply update_invalidation_shape.
  - apply update_invalidation_shape.
  - intros r c. apply written_dec.
  - intros r c Hr Hc. apply at2_update_invalidation_written; lia.
  - intros r c Hr Hc Hw.
    destruct (move_sound p_rows p_cols oi oj di dj L r c) as (t & Ht & Hcov);
      try done; try lia.
    exists (oi + t * di, oj + t * dj). split; [by apply Hrun|done].
  - intros p r c [Hp|(t & Ht & ->)] Hcov.
    + right. by exists p.
    + destruct (move_complete p_rows p_cols oi oj di dj L t r c) as [Hw|Ho];
        try done; try lia.
      * by left.
      * right. by exists (oi, oj).
Qed.

(** Two masks that track all of [E] agree on every cell of the array. *)
Lemma tracks_all_unique m1 m2 :
  tracked m1 (λ p, p ∈ E) → tracked m2 (λ p, p ∈ E) → same_mask m1 m2.
Proof.
  intros (Hr1 & Hc1 & H1) (Hr2 & Hc2 & H2).
  split; [congruence|]. split; [congruence|].
  intros r c Hr Hc. rewrite Hr1 in Hr. rewrite Hc1 in Hc.
  destruct (H1 r c Hr Hc) as [H1t H1f]. destruct (H2 r c Hr Hc) as [H2t H2f].
  destruct (at2 m1 r c) eqn:E1, (at2 m2 r c) eqn:E2; try done.
  - destruct (H1t eq_refl) as [H0 Hno].
    destruct (H2f eq_refl) as [H0'|(p & Hp & Hcov)]; [congruence|].
    by destruct (Hno p Hp).
  - destruct (H2t eq_refl) as [H0 Hno].
    destruct (H1f eq_refl) as [H0'|(p & Hp & Hcov)]; [congruence|].
    by destruct (Hno p Hp).
Qed.

End Tracking.

(** ** The helpers of the perimeter walk *)

Lemma edge_length_loop_spec (fuel : nat) (ci cj di dj i_rows i_cols : Z)
    (s : gset (Z * Z)) (len : Z) :
  (size s ≤ fuel)%nat →
  ∃ L s',
    edge_length_loop fuel ci cj di dj i_rows i_cols s len = Some (len + L, s')
    ∧ 0 ≤ L ∧ (di ≠ 0 → dj ≠ 0 → L ≤ 1)
    ∧ s' ⊆ s
    ∧ (∀ p, p ∈ s → p ∉ s' → ∃ t, 1 ≤ t ≤ L ∧ p = (ci + t * di, cj + t * dj))
    ∧ (∀ t, 1 ≤ t ≤ L → (ci + t * di, cj + t * dj) ∈ s)
    ∧ (1 ≤ L → (size s' < size s)%nat).
Proof.
  revert ci cj s len. induction fuel as [|fuel IH]; intros ci cj s len Hfuel.
  - assert (s = ∅) as -> by (apply leibniz_equiv, size_empty_iff; lia).
    exists 0, ∅. simpl.
    replace (bool_decide ((ci + di, cj + dj) ∈ (∅ : gset (Z * Z)))) with false
      by (symmetry; apply bool_decide_eq_false; set_solver).
    rewrite !andb_false_r, Z.add_0_r.
    split_and!; try done; try lia; intros; lia.
  - simpl.
    destruct ((0 <=? ci + di) && (ci + di <? i_rows) && (0 <=? cj + dj)
              && (cj + dj <? i_cols)
              && bool_decide ((ci + di, cj + dj) ∈ s)) eqn:Hguard.
    + rewrite !andb_true_iff, bool_decide_eq_true in Hguard.
      destruct Hguard as [_ Hin].
      assert (size (s ∖ {[(ci + di, cj + dj)]}) = pred (size s)) as Hsize.
      { rewrite size_difference by set_solver. rewrite size_singleton. lia. }
      assert (size s ≠ 0%nat) as Hne.
      { intros H0. apply size_empty_iff in H0. set_solver. }
      destruct (negb (di =? 0) && negb (dj =? 0)) eqn:Hdiag.
      * exists 1, (s ∖ {[(ci + di, cj + dj)]}).
        split_and!; try done; try lia.
        -- set_solver.
        -- intros p Hp Hnp. exists 1. split; [lia|].
           rewrite !Z.mul_1_l. apply dec_stable. set_solver.
        -- intros t Ht. assert (t = 1) as -> by lia. by rewrite !Z.mul_1_l.
      * destruct (IH (ci + di) (cj + dj) (s ∖ {[(ci + di, cj + dj)]}) (len + 1))
          as (L & s' & Heq & HL & Hd & Hsub & Hrem & Hrun & Hsz); [lia|].
        exists (1 + L), s'. rewrite Heq.
        split_and!.
        -- f_equal. f_equal. lia.
        -- lia.
        -- intros Hdi Hdj. exfalso.
           apply andb_false_iff in Hdiag as [H|H];
             apply negb_false_iff, Z.eqb_eq in H; done.
        -- set_solver.
        -- intros p Hp Hnp.
           destruct (decide (p = (ci + di, cj + dj))) as [->|Hpne].
           ++ exists 1. split; [lia|]. by rewrite !Z.mul_1_l.
           ++ destruct (Hrem p) as (t & Ht & ->); [set_solver|done|].
              exists (1 + t). split; [lia|]. f_equal; lia.
        -- intros t Ht. destruct (decide (t = 1)) as [->|Hne1].
           ++ by rewrite !Z.mul_1_l.
           ++ specialize (Hrun (t - 1) ltac:(lia)).
              replace (ci + di + (t - 1) * di) with (ci + t * di) in Hrun by lia.
              replace (cj + dj + (t - 1) * dj) with (cj + t * dj) in Hrun by lia.
              set_solver.
        -- intros _. destruct (decide (L = 0)) as [->|HL0].
           ++ apply subseteq_size in Hsub. lia.
           ++ specialize (Hsz ltac:(lia)). lia.
    + exists 0, s. rewrite Z.add_0_r.
      split_and!; try done; try lia; intros; lia.
Qed.

Lemma _get_edge_length_in_direction_spec (ci cj di dj i_rows i_cols : Z)
    (s : gset (Z * Z)) :
  ∃ L s',
    _get_edge_length_in_direction ci cj di dj i_rows i_cols s = Some (L, s')
    ∧ 0 ≤ L ∧ (di ≠ 0 → dj ≠ 0 → L ≤ 1)
    ∧ s' ⊆ s
    ∧ (∀ p, p ∈ s → p ∉ s' → ∃ t, 1 ≤ t ≤ L ∧ p = (ci + t * di, cj + t * dj))
    ∧ (∀ t, 1 ≤ t ≤ L → (ci + t * di, cj + t * dj) ∈ s)
    ∧ (1 ≤ L → (size s' < size s)%nat).
Proof.
  unfold _get_edge_length_in_direction.
  destruct (edge_length_loop_spec (size s) ci cj di dj i_rows i_cols s 0)
    as (L & s' & Heq & H); [done|].
  exists L, s'. by rewrite Heq.
Qed.

Lemma next_edge_loop_spec (dirs : list (Z * Z)) (ci cj i_rows i_cols : Z)
    (s : gset (Z * Z)) :
  dirs ⊆ DIRECTIONS →
  ∃ move s',
    next_edge_loop dirs ci cj i_rows i_cols s = Some (move, s')
    ∧ next_edge_post ci cj s move s'.
Proof.
  revert s. induction dirs as [|[di dj] dirs IH]; intros s Hdirs.
  - exists None, s. split; [done|]. split; set_solver.
  - simpl.
    destruct (_get_edge_length_in_direction_spec ci cj di dj i_rows i_cols s)
      as (L & s1 & -> & HL & Hd & Hsub & Hrem & Hrun & Hsz).
    destruct (Z.eqb_spec L 0) as [->|HL0]; simpl.
    + destruct (IH s1) as (move & s' & -> & Hsub' & Hpost); [set_solver|].
      assert (s ⊆ s1) as Hsame.
      { intros p Hp. apply dec_stable. intros Hnp.
        destruct (Hrem p Hp Hnp) as (t & Ht & _). lia. }
      exists move, s'. split; [done|]. split; [set_solver|].
      destruct move as [[ai aj]|]; [|set_solver].
      destruct Hpost as (di' & dj' & L' & Hdir' & HL' & Hd' & -> & -> & Hrem'
                         & Hrun' & Hsz').
      exists di', dj', L'. split_and!; try done.
      * intros p Hp Hnp. apply Hrem'; [set_solver|done].
      * intros t Ht. apply Hsub, Hrun', Ht.
      * apply subseteq_size in Hsub. lia.
    + exists (Some (di * L, dj * L)), s1. split; [done|]. split; [done|].
      exists di, dj, L. split_and!; try done; [set_solver|lia|apply Hsz; lia].
Qed.

Lemma _get_next_edge_from_pixel_spec (ci cj i_rows i_cols : Z)
    (s : gset (Z * Z)) :
  ∃ move s',
    _get_next_edge_from_pixel ci cj i_rows i_cols s = Some (move, s')
    ∧ next_edge_post ci cj s move s'.
Proof. by apply next_edge_loop_spec. Qed.

(** ** The perimeter walk tracks the edge pixels it consumes *)

Lemma trace_loop_step (fuel : nat) (p_rows p_cols i_rows i_cols : Z)
    (mask : ndarray2 bool) (ci cj ai aj : Z) (s : gset (Z * Z)) :
  trace_loop (S fuel) p_rows p_cols i_rows i_cols mask ci cj (Some (ai, aj)) s
  = match _get_next_edge_from_pixel (ci + ai) (cj + aj) i_rows i_cols s with
    | None => None
    | Some (move, s') =>
        trace_loop fuel p_rows p_cols i_rows i_cols
          (update_invalidation p_rows p_cols mask (ci + ai) (cj + aj) ai aj)
          (ci + ai) (cj + aj) move s'
    end.
Proof. reflexivity. Qed.

Lemma edge_tracing_loop_stop (pick : gset (Z * Z) → nat) (fuel : nat) (p_rows p_cols i_rows i_cols : Z)
    (mask : ndarray2 bool) (s : gset (Z * Z)) :
  elements s = [] →
  edge_tracing_loop pick fuel p_rows p_cols i_rows i_cols mask s = Some mask.
Proof. intros H. destruct fuel; cbn [edge_tracing_loop]; by rewrite H. Qed.

Lemma edge_tracing_loop_step (pick : gset (Z * Z) → nat) (fuel : nat) (p_rows p_cols i_rows i_cols : Z)
    (mask : ndarray2 bool) (s : gset (Z * Z)) first others start_i start_j :
  elements s = first :: others →
  nth (pick s `mod` S (length others))%nat (first :: others) first
  = (start_i, start_j) →
  edge_tracing_loop pick (S fuel) p_rows p_cols i_rows i_cols mask s
  = match trace_loop (S (size (s ∖ {[(start_i, start_j)]}))) p_rows p_cols
            i_rows i_cols
            (assign_slice mask (Z.max 0 (start_i - p_rows + 1)) (start_i + 1)
               (Z.max 0 (start_j - p_cols + 1)) (start_j + 1) false)
            start_i start_j (Some (0, 0)) (s ∖ {[(start_i, start_j)]}) with
    | None => None
    | Some (mask, edge_pixel_set) =>
        edge_tracing_loop pick fuel p_rows p_cols i_rows i_cols
          mask edge_pixel_set
    end.
Proof. intros H Hn. cbn [edge_tracing_loop]. by rewrite H, Hn. Qed.

Lemma trace_loop_stop (fuel : nat) (p_rows p_cols i_rows i_cols : Z)
    (mask : ndarray2 bool) (ci cj : Z) (s : gset (Z * Z)) :
  trace_loop fuel p_rows p_cols i_rows i_cols mask ci cj None s
  = Some (mask, s).
Proof. by destruct fuel. Qed.

Section Walk.

Variable pick : gset (Z * Z) → nat.
Variables p_rows p_cols : Z.
Variable mask0 : ndarray2 bool.
Variable E : gset (Z * Z).

Hypothesis p_rows_pos : 1 ≤ p_rows.
Hypothesis p_cols_pos : 1 ≤ p_cols.
Hypothesis E_in_range :
  ∀ i j, (i, j) ∈ E →
    0 ≤ i < Z.of_nat (nrows mask0) ∧ 0 ≤ j < Z.of_nat (ncols mask0).

Local Abbreviation tracked := (tracks p_rows p_cols mask0 E).

(** One trace.  On entry the pixels of the pending move have left the set
    but their anchors are not invalidated yet; on exit every pixel that has
    left the set is tracked. *)
Lemma trace_loop_spec (fuel : nat) (i_rows i_cols : Z) (mask : ndarray2 bool)
    (ci cj ai aj di dj L : Z) (s : gset (Z * Z)) (D : Z * Z → Prop) :
  (size s < fuel)%nat → s ⊆ E →
  tracked mask D → D (ci, cj) → (ci, cj) ∈ E →
  (di, dj) ∈ DIRECTIONS → 0 ≤ L → (di ≠ 0 → dj ≠ 0 → L ≤ 1) →
  ai = di * L → aj = dj * L →
  (∀ t, 1 ≤ t ≤ L → (ci + t * di, cj + t * dj) ∈ E) →
  (∀ p, p ∈ E → p ∉ s →
        D p ∨ ∃ t, 1 ≤ t ≤ L ∧ p = (ci + t * di, cj + t * dj)) →
  ∃ mask' s' D',
    trace_loop fuel p_rows p_cols i_rows i_cols mask ci cj (Some (ai, aj)) s
    = Some (mask', s')
    ∧ s' ⊆ s ∧ tracked mask' D' ∧ (∀ p, p ∈ E → p ∉ s' → D' p).
Proof.
  revert mask ci cj ai aj di dj L s D.
  induction fuel as [|fuel IH];
    intros mask ci cj ai aj di dj L s D Hfuel HsE Htr Hcur HcurE Hdir HL Hdiag
      -> -> Hrun Hpend; [lia|].
  rewrite trace_loop_step.
  destruct (E_in_range _ _ HcurE) as [Hci Hcj].
  pose proof (tracks_update_invalidation p_rows p_cols mask0 E p_rows_pos
                p_cols_pos E_in_range mask D ci cj di dj L Htr Hcur Hci Hcj
                Hdir Hdiag HL Hrun) as Htr1.
  set (mask1 := update_invalidation p_rows p_cols mask (ci + di * L)
                  (cj + dj * L) (di * L) (dj * L)) in *.
  set (D1 := λ p : Z * Z,
         D p ∨ ∃ t, 1 ≤ t ≤ L ∧ p = (ci + t * di, cj + t * dj)) in *.
  assert (D1 (ci + di * L, cj + dj * L) ∧ (ci + di * L, cj + dj * L) ∈ E)
    as [Hcur1 HcurE1].
  { destruct (decide (L = 0)) as [->|HL0].
    - rewrite !Z.mul_0_r, !Z.add_0_r. split; [by left|done].
    - rewrite (Z.mul_comm di L), (Z.mul_comm dj L). split.
      + right. exists L. split; [lia|done].
      + apply Hrun. lia. }
  assert (∀ p, p ∈ E → p ∉ s → D1 p) as Hpend1 by (intros p Hp Hnp; by apply Hpend).
  destruct (_get_next_edge_from_pixel_spec (ci + di * L) (cj + dj * L)
              i_rows i_cols s) as (move & s' & -> & Hsub & Hpost).
  destruct move as [[ai' aj']|].
  - destruct Hpost as (di' & dj' & L' & Hdir' & HL' & Hd' & -> & -> & Hrem'
                       & Hrun' & Hsz').
    destruct (IH mask1 (ci + di * L) (cj + dj * L) (di' * L') (dj' * L')
                di' dj' L' s' D1) as (mask' & s'' & D' & Heq & Hsub' & Htr' & Hall);
      try done; try lia.
    + set_solver.
    + intros t Ht. apply HsE, Hrun', Ht.
    + intros p Hp Hnp. destruct (decide (p ∈ s)) as [Hps|Hps].
      * right. by apply Hrem'.
      * left. by apply Hpend1.
    + exists mask', s'', D'. split; [done|]. split; [set_solver|done].
  - rewrite trace_loop_stop. exists mask1, s', D1.
    split; [done|]. split; [done|]. split; [done|].
    intros p Hp Hnp. apply Hpend1; set_solver.
Qed.

(** The whole strategy: when the set is empty, all of [E] is tracked. *)
Lemma edge_tracing_loop_spec (fuel : nat) (i_rows i_cols : Z)
    (mask : ndarray2 bool) (s : gset (Z * Z)) (D : Z * Z → Prop) :
  (size s ≤ fuel)%nat → s ⊆ E →
  tracked mask D → (∀ p, p ∈ E → p ∉ s → D p) →
  ∃ mask',
    edge_tracing_loop pick fuel p_rows p_cols i_rows i_cols mask s = Some mask'
    ∧ tracked mask' (λ p, p ∈ E).
Proof.
  revert mask s D.
  induction fuel as [|fuel IH]; intros mask s D Hfuel HsE Htr Hall.
  - assert (s = ∅) as -> by (apply leibniz_equiv, size_empty_iff; lia).
    rewrite edge_tracing_loop_stop by apply elements_empty.
    exists mask. split; [done|].
    apply (tracks_weaken _ _ _ _ mask D); [|done].
    intros p Hp. apply Hall; set_solver.
  - destruct (elements s) as [|first others] eqn:Hel.
    + rewrite edge_tracing_loop_stop by done.
      apply elements_empty_inv, leibniz_equiv in Hel. subst s.
      exists mask. split; [done|].
      apply (tracks_weaken _ _ _ _ mask D); [|done].
      intros p Hp. apply Hall; set_solver.
    + destruct (nth (pick s `mod` S (length others))%nat (first :: others) first)
        as [start_i start_j] eqn:Hnth.
      assert ((start_i, start_j) ∈ s) as Hstart.
      { apply elem_of_elements. rewrite Hel, <- Hnth.
        apply list_elem_of_In, nth_In.
        cbn [length]. apply Nat.mod_upper_bound. lia. }
      rewrite (edge_tracing_loop_step _ _ _ _ _ _ _ _ _ _ _ _ Hel Hnth).
      assert (size (s ∖ {[(start_i, start_j)]}) = pred (size s)) as Hsize.
      { rewrite size_difference by set_solver. rewrite size_singleton. lia. }
      assert (size s ≠ 0%nat) as Hne.
      { intros H0. apply size_empty_iff in H0. set_solver. }
      assert (tracked
                (assign_slice mask (Z.max 0 (start_i - p_rows + 1)) (start_i + 1)
                   (Z.max 0 (start_j - p_cols + 1)) (start_j + 1) false)
                (λ p, D p ∨ p = (start_i, start_j))) as Htr1
        by (apply tracks_assign_rect; auto).
      destruct (trace_loop_spec (S (size (s ∖ {[(start_i, start_j)]})))
                  i_rows i_cols
                  (assign_slice mask (Z.max 0 (start_i - p_rows + 1)) (start_i + 1)
                     (Z.max 0 (start_j - p_cols + 1)) (start_j + 1) false)
                  start_i start_j 0 0 (-1) (-1) 0
                  (s ∖ {[(start_i, start_j)]})
                  (λ p, D p ∨ p = (start_i, start_j)))
        as (mask' & s' & D' & -> & Hsub & Htr' & Hall');
        try done; try lia.
      * set_solver.
      * by right.
      * by apply HsE.
      * unfold DIRECTIONS. set_solver.
      * intros p Hp Hnp. left.
        destruct (decide (p = (start_i, start_j))) as [->|Hpne]; [by right|].
        left. apply Hall; set_solver.
      * destruct (IH mask' s' D') as (mask'' & -> & Htr''); try done.
        -- apply subseteq_size in Hsub. lia.
        -- set_solver.
        -- by exists mask''.
Qed.

(** The [edge_tracing] branch returns, and its mask tracks every edge
    pixel. *)
Lemma edge_tracing_spec (i_rows i_cols : Z) (edge_pixels : list (Z * Z)) :
  E = list_to_set edge_pixels →
  ∃ mask',
    edge_tracing pick p_rows p_cols i_rows i_cols mask0 edge_pixels = Some mask'
    ∧ tracked mask' (λ p, p ∈ E).
Proof.
  intros HE. unfold edge_tracing. rewrite <- HE.
  apply (edge_tracing_loop_spec _ _ _ _ _ (λ _, False)); try done.
  apply tracks_init.
Qed.

(** The loop of [brute_force] tracks the pixels it has been given. *)
Lemma brute_force_spec (edge_pixels : list (Z * Z)) (mask : ndarray2 bool)
    (D : Z * Z → Prop) :
  (∀ p, p ∈ edge_pixels → p ∈ E) →
  tracked mask D →
  tracked (brute_force p_rows p_cols mask edge_pixels)
    (λ p, D p ∨ p ∈ edge_pixels).
Proof.
  revert mask D. induction edge_pixels as [|[i j] l IH]; intros mask D Hl Htr.
  - simpl. apply (tracks_weaken _ _ _ _ mask D); [|done].
    intros p [Hp|Hp]; [done|by apply elem_of_nil in Hp].
  - simpl.
    apply (tracks_weaken _ _ _ _ _ (λ p, (D p ∨ p = (i, j)) ∨ p ∈ l)).
    + intros p [Hp|Hp]; [by left; left|].
      apply elem_of_cons in Hp as [->|Hp]; [by left; right|by right].
    + apply IH.
      * intros p Hp. apply Hl. by right.
      * apply tracks_assign_rect; auto. apply Hl. by left.
Qed.

End Walk.

(** ** [edge_tracing] against [brute_force] *)

Lemma resolve_no_fuel_error (p : per_channel Z) (n k : nat) (e : error) :
  resolve p n k = Raise e → e ≠ FuelExhausted.
Proof.
  destruct p as [v|vs]; simpl; [done|].
  destruct (length vs =? n)%nat; [|by intros [= <-]].
  destruct (vs !! k); [done|by intros [= <-]].
Qed.

Lemma edge_pixels_in_range (img_mask : ndarray2 bool) (i j : Z) :
  (i, j) ∈ (list_to_set (edge_pixel_coords img_mask) : gset (Z * Z)) →
  0 ≤ i < Z.of_nat (nrows img_mask) ∧ 0 ≤ j < Z.of_nat (ncols img_mask).
Proof.
  rewrite elem_of_list_to_set. unfold edge_pixel_coords.
  rewrite elem_of_nonzero. simpl. tauto.
Qed.

(** On one channel the two strategies end with masks that agree. *)
Lemma apply_algorithm_edge_tracing_brute_force pick pick'
    (cfg_e cfg_b : InsertAtRandomLocationConfig) (num_chans chan_idx : nat)
    (chan_img : ndarray2 Z) (p_rows p_cols : Z) (img_mask mask : ndarray2 bool) :
  algorithm cfg_e = "edge_tracing" → algorithm cfg_b = "brute_force" →
  1 ≤ p_rows → 1 ≤ p_cols →
  nrows img_mask = nrows mask → ncols img_mask = ncols mask →
  ∃ me mb,
    apply_algorithm pick cfg_e num_chans chan_idx chan_img p_rows p_cols
      img_mask mask = Ok me
    ∧ apply_algorithm pick' cfg_b num_chans chan_idx chan_img p_rows p_cols
        img_mask mask = Ok mb
    ∧ same_mask me mb ∧ nrows me = nrows mask ∧ ncols me = ncols mask.
Proof.
  intros He Hb Hpr Hpc Hnr Hnc. unfold apply_algorithm. rewrite He, Hb. simpl.
  set (E := (list_to_set (edge_pixel_coords img_mask) : gset (Z * Z))).
  assert (∀ i j, (i, j) ∈ E →
            0 ≤ i < Z.of_nat (nrows mask) ∧ 0 ≤ j < Z.of_nat (ncols mask))
    as Hrange.
  { intros i j Hin. apply edge_pixels_in_range in Hin. by rewrite <- Hnr, <- Hnc. }
  destruct (edge_tracing_spec pick p_rows p_cols mask E Hpr Hpc Hrange
              (Z.of_nat (nrows chan_img)) (Z.of_nat (ncols chan_img))
              (edge_pixel_coords img_mask) eq_refl) as (me & -> & Hme).
  exists me, (brute_force p_rows p_cols mask (edge_pixel_coords img_mask)).
  split; [done|]. split; [done|].
  split; [|by destruct Hme as (? & ? & _)].
  apply (tracks_all_unique p_rows p_cols mask E); [done|].
  apply (tracks_weaken _ _ _ _ _
           (λ p, False ∨ p ∈ edge_pixel_coords img_mask)).
  - intros p Hp. right. by apply elem_of_list_to_set in Hp.
  - apply brute_force_spec; try done.
    + intros p Hp. by apply elem_of_list_to_set.
    + apply tracks_init.
Qed.

Lemma channel_mask_edge_tracing_brute_force pick pick'
    (cfg_e cfg_b : InsertAtRandomLocationConfig) (num_chans chan_idx : nat)
    (chan_img chan_pattern : ndarray2 Z) :
  algorithm cfg_e = "edge_tracing" → algorithm cfg_b = "brute_force" →
  min_val cfg_e = min_val cfg_b →
  (1 ≤ nrows chan_pattern)%nat → (1 ≤ ncols chan_pattern)%nat →
  match channel_mask pick cfg_e num_chans chan_idx chan_img chan_pattern,
        channel_mask pick' cfg_b num_chans chan_idx chan_img chan_pattern with
  | Ok me, Ok mb =>
      same_mask me mb ∧ nrows me = nrows chan_img ∧ ncols me = ncols chan_img
  | Raise e1, Raise e2 => e1 = e2 ∧ e1 ≠ FuelExhausted
  | _, _ => False
  end.
Proof.
  intros He Hb Hmv Hpr Hpc. unfold channel_mask. rewrite Hmv.
  destruct (resolve (min_val cfg_b) num_chans chan_idx) as [mv|e] eqn:Hres; simpl.
  - destruct (apply_algorithm_edge_tracing_brute_force pick pick' cfg_e cfg_b
                num_chans chan_idx chan_img
                (Z.of_nat (nrows chan_pattern)) (Z.of_nat (ncols chan_pattern))
                (logical_not (le_scalar chan_img mv))
                (remove_boundaries (Z.of_nat (nrows chan_pattern))
                   (Z.of_nat (ncols chan_pattern)) (le_scalar chan_img mv)))
      as (me & mb & -> & -> & Hsame & Hr & Hc); try done; try lia.
  - split; [done|]. by eapply resolve_no_fuel_error.
Qed.

Lemma same_mask3_assign_channel (out1 out2 : ndarray3 bool) (k : nat)
    (m1 m2 : ndarray2 bool) :
  same_mask3 out1 out2 → same_mask m1 m2 →
  nrows m1 = dim_rows out1 → ncols m1 = dim_cols out1 →
  same_mask3 (assign_channel out1 k m1) (assign_channel out2 k m2).
Proof.
  intros (Hr & Hc & Hk & Hout) (Hmr & Hmc & Hm) Hr1 Hc1.
  split; [done|]. split; [done|]. split; [done|].
  intros r c k' Hrr Hcc Hkk. simpl in *.
  destruct (k' =? k)%nat.
  - apply Hm; lia.
  - by apply Hout.
Qed.

Lemma same_mask3_assign_true3 (out1 out2 : ndarray3 bool) (r1 c1 : Z) (k : nat) :
  same_mask3 out1 out2 →
  same_mask3 (assign_true3 out1 r1 c1 k) (assign_true3 out2 r1 c1 k).
Proof.
  intros (Hr & Hc & Hk & Hout).
  split; [done|]. split; [done|]. split; [done|].
  intros r c k' Hrr Hcc Hkk. simpl in *. rewrite <- Hr, <- Hc.
  destruct (_ && _ && _); [done|]. by apply Hout.
Qed.

Lemma channels_loop_edge_tracing_brute_force pick pick'
    (img pattern : ndarray3 Z) (cfg_e cfg_b : InsertAtRandomLocationConfig)
    (protect_wrap : bool) (allow_overlap : list bool) (chans : list nat)
    (out1 out2 : ndarray3 bool) :
  algorithm cfg_e = "edge_tracing" → algorithm cfg_b = "brute_force" →
  min_val cfg_e = min_val cfg_b →
  (1 ≤ dim_rows pattern)%nat → (1 ≤ dim_cols pattern)%nat →
  dim_rows out1 = dim_rows img → dim_cols out1 = dim_cols img →
  same_mask3 out1 out2 →
  same_outcome
    (channels_loop pick img pattern cfg_e protect_wrap allow_overlap chans out1)
    (channels_loop pick' img pattern cfg_b protect_wrap allow_overlap chans out2).
Proof.
  intros He Hb Hmv Hpr Hpc. revert out1 out2.
  induction chans as [|k chans IH]; intros out1 out2 Hr Hc Hsame; [done|].
  cbn [channels_loop].
  destruct (allow_overlap !! k) as [[|]|]; [| |done].
  - apply IH; [done..|]. by apply same_mask3_assign_true3.
  - destruct protect_wrap; [|done].
    pose proof (channel_mask_edge_tracing_brute_force pick pick' cfg_e cfg_b
                  (dim_chans img) k (channel img k) (channel pattern k)
                  He Hb Hmv Hpr Hpc) as Hchan.
    destruct (channel_mask pick cfg_e _ _ _ _) as [me|e1],
      (channel_mask pick' cfg_b _ _ _ _) as [mb|e2]; try done.
    destruct Hchan as (Hm & Hmr & Hmc). simpl.
    apply IH; [done..|].
    apply same_mask3_assign_channel; try done; simpl in *; congruence.
Qed.

(** The equivalence law away from empty patterns.  For a pattern with at
    least one row and one column (same channel count, [protect_wrap] true,
    [allow_overlap] false, same [min_val]), the [edge_tracing] call and the
    [brute_force] call end the same way: both return masks of one shape that
    agree in every cell, or both raise the same configuration error.  This
    holds whichever pixels [set.pop()] hands out, hence for one connected
    component of edge pixels as for several. *)
Theorem edge_tracing_equals_brute_force pick pick' (img pattern : ndarray3 Z)
    (cfg_e cfg_b : InsertAtRandomLocationConfig) :
  algorithm cfg_e = "edge_tracing" → algorithm cfg_b = "brute_force" →
  min_val cfg_e = min_val cfg_b →
  dim_chans pattern = dim_chans img →
  (1 ≤ dim_rows pattern)%nat → (1 ≤ dim_cols pattern)%nat →
  same_outcome
    (valid_locations pick img pattern cfg_e true (Uniform false))
    (valid_locations pick' img pattern cfg_b true (Uniform false)).
Proof.
  intros He Hb Hmv Hch Hpr Hpc. unfold valid_locations.
  rewrite Hch, Nat.eqb_refl. cbn [negb].
  apply channels_loop_edge_tracing_brute_force; try done.
Qed.

Lemma edge_tracing_equals_brute_force_witness :
  same_outcome
    (valid_locations pick_last block_img pattern_2x2
       (config "edge_tracing" 0 0) true (Uniform false))
    (valid_locations pick_first block_img pattern_2x2
       (config "brute_force" 0 0) true (Uniform false)).
Proof.
  apply (edge_tracing_equals_brute_force pick_last pick_first block_img
           pattern_2x2 (config "edge_tracing" 0 0) (config "brute_force" 0 0));
    simpl; (reflexivity || lia).
Defined.

(** C1.  The claim is that the [edge_tracing] mask equals the
    [brute_force] mask for every image and pattern.  For a pattern without
    rows the code breaks it: the rectangles of [brute_force] are empty, so it
    invalidates nothing, while the strip update of the walk
    ([mask[top_index:top_index - action_i, ...] = False], with [top_index]
    one row below the pixel moved to) still clears a row.  On the 3x3 image
    with foreground at (0, 1) and (1, 1) the anchor (1, 0) stays valid under
    [brute_force] and is invalid under [edge_tracing], whichever pixel is
    popped first. *)
Theorem edge_tracing_differs_on_empty_pattern :
  ∃ me me' mb,
    valid_locations pick_first two_pixel_img pattern_0x2
      (config "edge_tracing" 0 0) true (Uniform false) = Ok me
    ∧ valid_locations pick_last two_pixel_img pattern_0x2
        (config "edge_tracing" 0 0) true (Uniform false) = Ok me'
    ∧ valid_locations pick_first two_pixel_img pattern_0x2
        (config "brute_force" 0 0) true (Uniform false) = Ok mb
    ∧ at3 me 1 0 0 = false ∧ at3 me' 1 0 0 = false ∧ at3 mb 1 0 0 = true.
Proof.
  eexists _, _, _. split_and!; [reflexivity..| | |]; vm_compute; reflexivity.
Qed.

(** ** Every strategy returns, and only clears cells *)

Lemma below_refl m : below m m.
Proof. by split_and!. Qed.

Lemma below_trans m1 m2 m3 : below m1 m2 → below m2 m3 → below m1 m3.
Proof.
  intros (Hr1 & Hc1 & H1) (Hr2 & Hc2 & H2).
  split; [congruence|]. split; [congruence|]. auto.
Qed.

Lemma below_assign_slice m r0 r1 c0 c1 : below (assign_slice m r0 r1 c0 c1 false) m.
Proof.
  split; [done|]. split; [done|]. intros r c. simpl.
  by destruct (_ && _).
Qed.

Lemma below_update_invalidation p_rows p_cols m ci cj ai aj :
  below (update_invalidation p_rows p_cols m ci cj ai aj) m.
Proof.
  unfold update_invalidation.
  destruct (ai <? 0), (ai >? 0), (aj <? 0), (aj >? 0);
    repeat (eapply below_trans; [apply below_assign_slice|]);
    apply below_refl.
Qed.

Lemma below_brute_force p_rows p_cols m edge_pixels :
  below (brute_force p_rows p_cols m edge_pixels) m.
Proof.
  revert m. induction edge_pixels as [|[i j] l IH]; intros m.
  - apply below_refl.
  - simpl. eapply below_trans; [apply IH|]. apply below_assign_slice.
Qed.

Lemma below_foldl {A} (f : ndarray2 bool → A → ndarray2 bool) (l : list A) m :
  (∀ m x, below (f m x) m) → below (foldl f m l) m.
Proof.
  intros Hf. revert m. induction l as [|x l IH]; intros m.
  - apply below_refl.
  - simpl. eapply below_trans; [apply IH|]. apply Hf.
Qed.

Lemma below_bounding_boxes num_boxes p_rows p_cols i_rows i_cols img_mask m :
  below (bounding_boxes num_boxes p_rows p_cols i_rows i_cols img_mask m) m.
Proof.
  unfold bounding_boxes. apply below_foldl. intros m1 i.
  apply below_foldl. intros m2 j.
  destruct (_get_bounding_box _) as [[[[x y] w] h]|].
  - apply below_assign_slice.
  - apply below_refl.
Qed.

(** The second pass of [threshold] runs over the cells that are still valid
    (line 261 collects the non-zero cells of [mask]), so setting them to
    true changes nothing. *)
Lemma threshold_pass_valid_cells chan_img p_rows p_cols threshold_val
    (mask0 mask : ndarray2 bool) (locs : list (Z * Z)) :
  (∀ p, p ∈ locs → at2 mask0 p.1 p.2 = true) →
  nrows mask = nrows mask0 → ncols mask = ncols mask0 →
  (∀ r c, at2 mask r c = at2 mask0 r c) →
  let m := threshold_pass chan_img p_rows p_cols threshold_val mask locs in
  nrows m = nrows mask0 ∧ ncols m = ncols mask0
  ∧ ∀ r c, at2 m r c = at2 mask0 r c.
Proof.
  revert mask. induction locs as [|[i j] locs IH]; intros mask Hlocs Hr Hc Heq.
  - done.
  - simpl. apply IH.
    + intros p Hp. apply Hlocs. by right.
    + by destruct (mean_le _ _).
    + by destruct (mean_le _ _).
    + intros r c. destruct (mean_le _ _); [|done]. simpl.
      destruct (Z.eqb_spec r i) as [->|]; simpl; [|apply Heq].
      destruct (Z.eqb_spec c j) as [->|]; simpl; [|apply Heq].
      symmetry. apply (Hlocs (i, j)). by left.
Qed.

Lemma threshold_pass_nonzero chan_img p_rows p_cols threshold_val
    (mask : ndarray2 bool) :
  let m := threshold_pass chan_img p_rows p_cols threshold_val mask
             (nonzero mask) in
  nrows m = nrows mask ∧ ncols m = ncols mask ∧ ∀ r c, at2 m r c = at2 mask r c.
Proof.
  apply threshold_pass_valid_cells; try done.
  intros [i j] Hp. by apply elem_of_nonzero in Hp as (_ & _ & Hv).
Qed.

Lemma trace_loop_below (fuel : nat) (p_rows p_cols i_rows i_cols : Z)
    (mask : ndarray2 bool) (ci cj : Z) (move : option (Z * Z))
    (s : gset (Z * Z)) :
  (size s < fuel)%nat →
  ∃ mask' s',
    trace_loop fuel p_rows p_cols i_rows i_cols mask ci cj move s
    = Some (mask', s')
    ∧ s' ⊆ s ∧ below mask' mask.
Proof.
  revert mask ci cj move s.
  induction fuel as [|fuel IH]; intros mask ci cj move s Hfuel; [lia|].
  destruct move as [[ai aj]|].
  - rewrite trace_loop_step.
    destruct (_get_next_edge_from_pixel_spec (ci + ai) (cj + aj) i_rows i_cols s)
      as (move' & s' & -> & Hsub & Hpost).
    destruct move' as [[ai' aj']|].
    + destruct Hpost as (_ & _ & _ & _ & _ & _ & _ & _ & _ & _ & Hsz).
      destruct (IH (update_invalidation p_rows p_cols mask (ci + ai) (cj + aj)
                      ai aj) (ci + ai) (cj + aj) (Some (ai', aj')) s')
        as (mask' & s'' & -> & Hsub' & Hb); [lia|].
      exists mask', s''. split; [done|]. split; [set_solver|].
      eapply below_trans; [done|]. apply below_update_invalidation.
    + rewrite trace_loop_stop. eexists _, _. split; [done|].
      split; [done|]. apply below_update_invalidation.
  - rewrite trace_loop_stop. exists mask, s. split; [done|].
    split; [done|]. apply below_refl.
Qed.

Lemma edge_tracing_loop_below (pick : gset (Z * Z) → nat) (fuel : nat) (p_rows p_cols i_rows i_cols : Z)
    (mask : ndarray2 bool) (s : gset (Z * Z)) :
  (size s ≤ fuel)%nat →
  ∃ mask',
    edge_tracing_loop pick fuel p_rows p_cols i_rows i_cols mask s = Some mask'
    ∧ below mask' mask.
Proof.
  revert mask s. induction fuel as [|fuel IH]; intros mask s Hfuel.
  - assert (s = ∅) as -> by (apply leibniz_equiv, size_empty_iff; lia).
    rewrite edge_tracing_loop_stop by apply elements_empty.
    exists mask. split; [done|apply below_refl].
  - destruct (elements s) as [|first others] eqn:Hel.
    + rewrite edge_tracing_loop_stop by done.
      exists mask. split; [done|apply below_refl].
    + destruct (nth (pick s `mod` S (length others))%nat (first :: others) first)
        as [start_i start_j] eqn:Hnth.
      assert ((start_i, start_j) ∈ s) as Hstart.
      { apply elem_of_elements. rewrite Hel, <- Hnth.
        apply list_elem_of_In, nth_In.
        cbn [length]. apply Nat.mod_upper_bound. lia. }
      rewrite (edge_tracing_loop_step _ _ _ _ _ _ _ _ _ _ _ _ Hel Hnth).
      assert (size (s ∖ {[(start_i, start_j)]}) = pred (size s)) as Hsize.
      { rewrite size_difference by set_solver. rewrite size_singleton. lia. }
      assert (size s ≠ 0%nat) as Hne.
      { intros H0. apply size_empty_iff in H0. set_solver. }
      destruct (trace_loop_below (S (size (s ∖ {[(start_i, start_j)]})))
                  p_rows p_cols i_rows i_cols
                  (assign_slice mask (Z.max 0 (start_i - p_rows + 1)) (start_i + 1)
                     (Z.max 0 (start_j - p_cols + 1)) (start_j + 1) false)
                  start_i start_j (Some (0, 0)) (s ∖ {[(start_i, start_j)]}))
        as (mask' & s' & -> & Hsub & Hb); [lia|].
      destruct (IH mask' s') as (mask'' & -> & Hb').
      { apply subseteq_size in Hsub. lia. }
      exists mask''. split; [done|].
      eapply below_trans; [done|]. eapply below_trans; [done|].
      apply below_assign_slice.
Qed.

(** The strategy step never runs out of fuel, and its result is the working
    mask with some cells cleared. *)
Lemma apply_algorithm_below pick algo_config num_chans chan_idx chan_img
    p_rows p_cols img_mask mask :
  match apply_algorithm pick algo_config num_chans chan_idx chan_img
          p_rows p_cols img_mask mask with
  | Ok mask' => below mask' mask
  | Raise e => e ≠ FuelExhausted
  end.
Proof.
  unfold apply_algorithm.
  destruct (String.eqb _ "edge_tracing").
  { unfold edge_tracing.
    destruct (edge_tracing_loop_below pick
                (size (list_to_set (edge_pixel_coords img_mask) : gset (Z * Z)))
                p_rows p_cols (Z.of_nat (nrows chan_img))
                (Z.of_nat (ncols chan_img)) mask
                (list_to_set (edge_pixel_coords img_mask)))
      as (mask' & -> & Hb); done. }
  destruct (String.eqb _ "brute_force"); [apply below_brute_force|].
  destruct (String.eqb _ "threshold").
  { destruct (resolve _ _ _) as [tv|e] eqn:Hres; simpl.
    - destruct (threshold_pass_nonzero chan_img p_rows p_cols tv
                  (brute_force p_rows p_cols mask (edge_pixel_coords img_mask)))
        as (Hr & Hc & Heq).
      eapply below_trans; [|apply below_brute_force].
      split; [done|]. split; [done|]. intros r c. by rewrite Heq.
    - by eapply resolve_no_fuel_error. }
  destruct (String.eqb _ "bounding_boxes"); [apply below_bounding_boxes|].
  apply below_refl.
Qed.

(** ** What a returned mask holds, channel by channel *)

Lemma channels_loop_ok pick (img pattern : ndarray3 Z) algo_config
    (protect_wrap : bool) (allow_overlap : list bool) (chans : list nat)
    (out m : ndarray3 bool) :
  NoDup chans →
  channels_loop pick img pattern algo_config protect_wrap allow_overlap chans out
  = Ok m →
  (dim_rows m = dim_rows out ∧ dim_cols m = dim_cols out
   ∧ dim_chans m = dim_chans out)
  ∧ ∀ k,
      (k ∉ chans → ∀ r c, at3 m r c k = at3 out r c k)
      ∧ (k ∈ chans →
         match allow_overlap !! k with
         | Some true =>
             ∀ r c,
               at3 m r c k
               = if in_slice (Z.of_nat (dim_rows out)) 0
                      (Z.of_nat (dim_rows img) - Z.of_nat (dim_rows pattern) + 1) r
                    && in_slice (Z.of_nat (dim_cols out)) 0
                         (Z.of_nat (dim_cols img) - Z.of_nat (dim_cols pattern) + 1) c
                 then true else at3 out r c k
         | Some false =>
             protect_wrap = true
             ∧ ∃ mk,
                 channel_mask pick algo_config (dim_chans img) k
                   (channel img k) (channel pattern k) = Ok mk
                 ∧ ∀ r c, at3 m r c k = at2 mk r c
         | None => False
         end).
Proof.
  revert out. induction chans as [|k0 chans IH]; intros out Hnd Hloop.
  - simpl in Hloop. injection Hloop as <-. split; [done|].
    intros k. split; [done|]. intros Hk. by apply elem_of_nil in Hk.
  - apply NoDup_cons in Hnd as [Hk0 Hnd]. cbn [channels_loop] in Hloop.
    destruct (allow_overlap !! k0) as [[|]|] eqn:Hao; [| |done].
    + destruct (IH _ Hnd Hloop) as [Hdims Hcells]. split; [done|].
      intros k. destruct (Hcells k) as [Hout Hin]. split.
      * intros Hk. apply not_elem_of_cons in Hk as [Hne Hk].
        intros r c. rewrite Hout by done. simpl.
        destruct (Nat.eqb_spec k k0); [done|]. by rewrite andb_false_r.
      * intros Hk. apply elem_of_cons in Hk as [->|Hk].
        -- rewrite Hao. intros r c. destruct (Hcells k0) as [Hout0 _].
           rewrite Hout0 by done. simpl. by rewrite Nat.eqb_refl, andb_true_r.
        -- specialize (Hin Hk). destruct (allow_overlap !! k) as [[|]|]; try done.
           intros r c. rewrite Hin. simpl.
           destruct (Nat.eqb_spec k k0) as [->|]; [done|].
           by rewrite andb_false_r.
    + destruct protect_wrap; [|done].
      destruct (channel_mask pick algo_config (dim_chans img) k0 (channel img k0)
                  (channel pattern k0)) as [mk0|e] eqn:Hmk0; [|done].
      simpl in Hloop. destruct (IH _ Hnd Hloop) as [Hdims Hcells].
      split; [done|].
      intros k. destruct (Hcells k) as [Hout Hin]. split.
      * intros Hk. apply not_elem_of_cons in Hk as [Hne Hk].
        intros r c. rewrite Hout by done. simpl.
        by destruct (Nat.eqb_spec k k0).
      * intros Hk. apply elem_of_cons in Hk as [->|Hk].
        -- rewrite Hao. split; [done|]. exists mk0. split; [done|].
           intros r c. destruct (Hcells k0) as [Hout0 _].
           rewrite Hout0 by done. simpl. by rewrite Nat.eqb_refl.
        -- specialize (Hin Hk). destruct (allow_overlap !! k) as [[|]|]; try done.
           intros r c. rewrite Hin. simpl.
           destruct (Nat.eqb_spec k k0) as [->|]; done.
Qed.

Lemma valid_locations_ok pick (img pattern : ndarray3 Z) algo_config
    (protect_wrap : bool) (allow_overlap : per_channel bool) (m : ndarray3 bool) :
  valid_locations pick img pattern algo_config protect_wrap allow_overlap = Ok m →
  dim_chans pattern = dim_chans img
  ∧ (dim_rows m = dim_rows img ∧ dim_cols m = dim_cols img
     ∧ dim_chans m = dim_chans img)
  ∧ ∀ k, (k < dim_chans img)%nat →
      match broadcast allow_overlap (dim_chans img) !! k with
      | Some true =>
          ∀ r c,
            at3 m r c k
            = in_slice (Z.of_nat (dim_rows img)) 0
                (Z.of_nat (dim_rows img) - Z.of_nat (dim_rows pattern) + 1) r
              && in_slice (Z.of_nat (dim_cols img)) 0
                   (Z.of_nat (dim_cols img) - Z.of_nat (dim_cols pattern) + 1) c
      | Some false =>
          protect_wrap = true
          ∧ ∃ mk,
              channel_mask pick algo_config (dim_chans img) k
                (channel img k) (channel pattern k) = Ok mk
              ∧ ∀ r c, at3 m r c k = at2 mk r c
      | None => False
      end.
Proof.
  unfold valid_locations. intros Hv.
  destruct (Nat.eqb_spec (dim_chans pattern) (dim_chans img)) as [Heq|]; [|done].
  simpl in Hv. split; [done|].
  apply channels_loop_ok in Hv as [Hdims Hcells]; [|apply NoDup_seq].
  split; [done|]. intros k Hk. destruct (Hcells k) as [_ Hin].
  specialize (Hin ltac:(apply elem_of_seq; lia)).
  destruct (broadcast allow_overlap (dim_chans img) !! k) as [[|]|]; try done.
  intros r c. rewrite Hin. simpl. by destruct (_ && _).
Qed.

(** The loops of the model never hit their iteration bound. *)
Lemma channel_mask_no_fuel_error pick algo_config num_chans chan_idx
    chan_img chan_pattern :
  channel_mask pick algo_config num_chans chan_idx chan_img chan_pattern
  ≠ Raise FuelExhausted.
Proof.
  unfold channel_mask.
  destruct (resolve _ _ _) as [mv|e] eqn:Hres; simpl.
  - match goal with
    | |- apply_algorithm ?p ?a ?n ?k ?ci ?pr ?pc ?im ?m ≠ _ =>
        pose proof (apply_algorithm_below p a n k ci pr pc im m) as Hb;
        destruct (apply_algorithm p a n k ci pr pc im m)
    end; [done|]. by intros [= ->].
  - intros [= ->]. by eapply resolve_no_fuel_error.
Qed.

Lemma channels_loop_no_fuel_error pick img pattern algo_config protect_wrap
    allow_overlap chans out :
  channels_loop pick img pattern algo_config protect_wrap allow_overlap chans out
  ≠ Raise FuelExhausted.
Proof.
  revert out. induction chans as [|k chans IH]; intros out; [done|].
  cbn [channels_loop]. destruct (allow_overlap !! k) as [[|]|]; [apply IH| |done].
  destruct protect_wrap; [|done].
  pose proof (channel_mask_no_fuel_error pick algo_config (dim_chans img) k
                (channel img k) (channel pattern k)) as Hc.
  destruct (channel_mask _ _ _ _ _ _) as [mk|e]; simpl; [apply IH|congruence].
Qed.

Lemma valid_locations_no_fuel_error pick img pattern algo_config protect_wrap
    allow_overlap :
  valid_locations pick img pattern algo_config protect_wrap allow_overlap
  ≠ Raise FuelExhausted.
Proof.
  unfold valid_locations. destruct (negb _); [done|].
  apply channels_loop_no_fuel_error.
Qed.

(** ** [threshold] against [brute_force] *)

(** When every channel mask of one configuration is matched, cell by cell,
    by the channel mask of another, so is the returned mask. *)
Lemma channels_loop_refines pick pick' (img pattern : ndarray3 Z)
    (cfg1 cfg2 : InsertAtRandomLocationConfig) (protect_wrap : bool)
    (allow_overlap : list bool) (chans : list nat) (out1 out2 m1 : ndarray3 bool) :
  (∀ k m,
     channel_mask pick cfg1 (dim_chans img) k (channel img k) (channel pattern k)
     = Ok m →
     ∃ m',
       channel_mask pick' cfg2 (dim_chans img) k (channel img k)
         (channel pattern k) = Ok m'
       ∧ ∀ r c, at2 m r c = at2 m' r c) →
  dim_rows out1 = dim_rows out2 → dim_cols out1 = dim_cols out2 →
  (∀ r c k, at3 out1 r c k = at3 out2 r c k) →
  channels_loop pick img pattern cfg1 protect_wrap allow_overlap chans out1
  = Ok m1 →
  ∃ m2,
    channels_loop pick' img pattern cfg2 protect_wrap allow_overlap chans out2
    = Ok m2
    ∧ ∀ r c k, at3 m1 r c k = at3 m2 r c k.
Proof.
  intros Hchan. revert out1 out2.
  induction chans as [|k0 chans IH]; intros out1 out2 Hr Hc Hout Hloop.
  - injection Hloop as <-. by exists out2.
  - cbn [channels_loop] in *.
    destruct (allow_overlap !! k0) as [[|]|]; [| |done].
    + eapply IH; [| | |exact Hloop]; try done.
      intros r c k. simpl. rewrite Hr, Hc, Hout. done.
    + destruct protect_wrap; [|done].
      destruct (channel_mask pick cfg1 _ _ _ _) as [mk|e] eqn:Hmk; [|done].
      destruct (Hchan k0 mk Hmk) as (mk' & -> & Heq). simpl in *.
      eapply IH; [| | |exact Hloop]; try done.
      intros r c k. simpl. rewrite Heq, Hout. done.
Qed.

Lemma valid_locations_refines pick pick' (img pattern : ndarray3 Z)
    (cfg1 cfg2 : InsertAtRandomLocationConfig) (protect_wrap : bool)
    (allow_overlap : per_channel bool) (m1 : ndarray3 bool) :
  (∀ k m,
     channel_mask pick cfg1 (dim_chans img) k (channel img k) (channel pattern k)
     = Ok m →
     ∃ m',
       channel_mask pick' cfg2 (dim_chans img) k (channel img k)
         (channel pattern k) = Ok m'
       ∧ ∀ r c, at2 m r c = at2 m' r c) →
  valid_locations pick img pattern cfg1 protect_wrap allow_overlap = Ok m1 →
  ∃ m2,
    valid_locations pick' img pattern cfg2 protect_wrap allow_overlap = Ok m2
    ∧ ∀ r c k, at3 m1 r c k = at3 m2 r c k.
Proof.
  intros Hchan. unfold valid_locations. destruct (negb _); [done|].
  by apply channels_loop_refines.
Qed.

(** A channel mask of [threshold] is the channel mask of [brute_force]. *)
Lemma channel_mask_threshold_brute_force pick pick'
    (cfg_t cfg_b : InsertAtRandomLocationConfig) (num_chans k : nat)
    (chan_img chan_pattern : ndarray2 Z) (m : ndarray2 bool) :
  algorithm cfg_t = "threshold" → algorithm cfg_b = "brute_force" →
  min_val cfg_t = min_val cfg_b →
  channel_mask pick cfg_t num_chans k chan_img chan_pattern = Ok m →
  ∃ m',
    channel_mask pick' cfg_b num_chans k chan_img chan_pattern = Ok m'
    ∧ ∀ r c, at2 m r c = at2 m' r c.
Proof.
  intros Ht Hb Hmv. unfold channel_mask, apply_algorithm.
  rewrite Ht, Hb, Hmv. simpl.
  destruct (resolve (min_val cfg_b) num_chans k) as [mv|e]; simpl; [|done].
  destruct (resolve (threshold_val cfg_t) num_chans k) as [tv|e]; simpl; [|done].
  intros [= <-]. eexists. split; [done|].
  apply threshold_pass_nonzero.
Qed.

(** With a usable [threshold_val], [threshold] returns whenever
    [brute_force] does. *)
Lemma channel_mask_brute_force_threshold pick pick'
    (cfg_t cfg_b : InsertAtRandomLocationConfig) (num_chans k : nat)
    (chan_img chan_pattern : ndarray2 Z) (m : ndarray2 bool) (tv : Z) :
  algorithm cfg_t = "threshold" → algorithm cfg_b = "brute_force" →
  min_val cfg_t = min_val cfg_b → threshold_val cfg_t = Uniform tv →
  channel_mask pick' cfg_b num_chans k chan_img chan_pattern = Ok m →
  ∃ m',
    channel_mask pick cfg_t num_chans k chan_img chan_pattern = Ok m'
    ∧ ∀ r c, at2 m r c = at2 m' r c.
Proof.
  intros Ht Hb Hmv Htv. unfold channel_mask, apply_algorithm.
  rewrite Ht, Hb, Hmv, Htv. simpl.
  destruct (resolve (min_val cfg_b) num_chans k) as [mv|e]; simpl; [|done].
  intros [= <-]. eexists. split; [done|].
  intros r c. symmetry. apply threshold_pass_nonzero.
Qed.

Lemma threshold_returns_with_brute_force pick pick' (img pattern : ndarray3 Z)
    (cfg_t cfg_b : InsertAtRandomLocationConfig) (tv : Z) (mb : ndarray3 bool) :
  algorithm cfg_t = "threshold" → algorithm cfg_b = "brute_force" →
  min_val cfg_t = min_val cfg_b → threshold_val cfg_t = Uniform tv →
  valid_locations pick' img pattern cfg_b true (Uniform false) = Ok mb →
  ∃ mt,
    valid_locations pick img pattern cfg_t true (Uniform false) = Ok mt
    ∧ ∀ r c k, at3 mb r c k = at3 mt r c k.
Proof.
  intros Ht Hb Hmv Htv. apply valid_locations_refines.
  intros k m. by apply channel_mask_brute_force_threshold with (tv := tv).
Qed.

(** C5.  Whenever the [threshold] call returns a mask (same image, pattern
    and [min_val], [protect_wrap] true, [allow_overlap] false), the
    [brute_force] call returns one too, and every cell that is true under
    [brute_force] is true under [threshold]. *)
Theorem threshold_superset_of_brute_force pick pick' (img pattern : ndarray3 Z)
    (cfg_t cfg_b : InsertAtRandomLocationConfig) (mt : ndarray3 bool) :
  algorithm cfg_t = "threshold" → algorithm cfg_b = "brute_force" →
  min_val cfg_t = min_val cfg_b →
  valid_locations pick img pattern cfg_t true (Uniform false) = Ok mt →
  ∃ mb,
    valid_locations pick' img pattern cfg_b true (Uniform false) = Ok mb
    ∧ ∀ r c k, at3 mb r c k = true → at3 mt r c k = true.
Proof.
  intros Ht Hb Hmv Hv.
  destruct (valid_locations_refines pick pick' img pattern cfg_t cfg_b true
              (Uniform false) mt) as (mb & Hmb & Heq); [|done|].
  - intros k m. by apply channel_mask_threshold_brute_force.
  - exists mb. split; [done|]. intros r c k. by rewrite Heq.
Qed.

Lemma threshold_superset_of_brute_force_witness :
  ∃ mt mb,
    valid_locations pick_first block_img pattern_2x2 (config "threshold" 0 1)
      true (Uniform false) = Ok mt
    ∧ valid_locations pick_first block_img pattern_2x2 (config "brute_force" 0 1)
        true (Uniform false) = Ok mb
    ∧ ∀ r c k, at3 mb r c k = true → at3 mt r c k = true.
Proof.
  eexists.
  destruct (threshold_superset_of_brute_force pick_first pick_first block_img
              pattern_2x2 (config "threshold" 0 1) (config "brute_force" 0 1) _
              eq_refl eq_refl eq_refl eq_refl) as (mb & Hmb & Hsub).
  exists mb. split; [reflexivity|]. split; [exact Hmb|exact Hsub].
Defined.

(** C2 on its 10x10 scenario (10x10 image, 3x3 block of ones,
    [min_val = 0], 2x2 pattern, [threshold_val = 1]).  The anchor (1, 1) is
    invalidated by [brute_force], the mean of its footprint is at most the
    threshold, and [threshold] leaves it invalid: the second pass visits the
    cells collected by [np.nonzero(mask)], which are the valid ones. *)
Theorem threshold_scenario_not_revalidated :
  ∃ mt mb,
    valid_locations pick_first block_img pattern_2x2 (config "threshold" 0 1)
      true (Uniform false) = Ok mt
    ∧ valid_locations pick_first block_img pattern_2x2 (config "brute_force" 0 1)
        true (Uniform false) = Ok mb
    ∧ at3 mb 1 1 0 = false
    ∧ mean_le (slice_cells (channel block_img 0) 1 (1 + 2) 1 (1 + 2)) 1 = true
    ∧ at3 mt 1 1 0 = false
    ∧ mask_rows (Ok mt) 0 = mask_rows (Ok mb) 0.
Proof.
  eexists _, _. split_and!; [reflexivity..| | | |]; vm_compute; reflexivity.
Qed.

(** ** Bounds of the valid anchors *)

Lemma remove_boundaries_true (p_rows p_cols : Z) (m : ndarray2 bool) (r c : Z) :
  0 ≤ r < Z.of_nat (nrows m) → 0 ≤ c < Z.of_nat (ncols m) →
  0 ≤ p_rows ≤ Z.of_nat (nrows m) + 1 → 0 ≤ p_cols ≤ Z.of_nat (ncols m) + 1 →
  at2 (remove_boundaries p_rows p_cols m) r c = true ↔
  at2 m r c = true
  ∧ r + p_rows ≤ Z.of_nat (nrows m) ∧ c + p_cols ≤ Z.of_nat (ncols m).
Proof.
  intros Hr Hc Hpr Hpc. unfold remove_boundaries.
  rewrite !at2_assign_slice_false by (simpl; lia). simpl. intuition lia.
Qed.

Lemma channel_mask_bounds pick algo_config num_chans k
    (chan_img chan_pattern : ndarray2 Z) (mk : ndarray2 bool) (r c : Z) :
  channel_mask pick algo_config num_chans k chan_img chan_pattern = Ok mk →
  (nrows chan_pattern ≤ nrows chan_img + 1)%nat →
  (ncols chan_pattern ≤ ncols chan_img + 1)%nat →
  0 ≤ r < Z.of_nat (nrows chan_img) → 0 ≤ c < Z.of_nat (ncols chan_img) →
  at2 mk r c = true →
  r + Z.of_nat (nrows chan_pattern) ≤ Z.of_nat (nrows chan_img)
  ∧ c + Z.of_nat (ncols chan_pattern) ≤ Z.of_nat (ncols chan_img).
Proof.
  unfold channel_mask. intros Hmk Hpr Hpc Hr Hc Hv.
  destruct (resolve _ _ _) as [mv|e]; simpl in Hmk; [|done].
  match type of Hmk with
  | apply_algorithm ?p ?a ?n ?k ?ci ?pr ?pc ?im ?m = _ =>
      pose proof (apply_algorithm_below p a n k ci pr pc im m) as Hb
  end.
  rewrite Hmk in Hb. destruct Hb as (_ & _ & Hb). apply Hb in Hv.
  apply remove_boundaries_true in Hv; simpl; try lia.
  simpl in Hv. lia.
Qed.

(** The bounds hold for every strategy as long as the pattern has at most
    one row and one column more than the image. *)
Lemma valid_locations_bounds pick (img pattern : ndarray3 Z) algo_config
    (protect_wrap : bool) (allow_overlap : per_channel bool)
    (m : ndarray3 bool) (r c : Z) (k : nat) :
  valid_locations pick img pattern algo_config protect_wrap allow_overlap = Ok m →
  (dim_rows pattern ≤ dim_rows img + 1)%nat →
  (dim_cols pattern ≤ dim_cols img + 1)%nat →
  0 ≤ r < Z.of_nat (dim_rows img) → 0 ≤ c < Z.of_nat (dim_cols img) →
  (k < dim_chans img)%nat →
  at3 m r c k = true →
  r + Z.of_nat (dim_rows pattern) ≤ Z.of_nat (dim_rows img)
  ∧ c + Z.of_nat (dim_cols pattern) ≤ Z.of_nat (dim_cols img).
Proof.
  intros Hv Hpr Hpc Hr Hc Hk Hcell.
  apply valid_locations_ok in Hv as (_ & _ & Hchan). specialize (Hchan k Hk).
  destruct (broadcast allow_overlap (dim_chans img) !! k) as [[|]|]; [| |done].
  - rewrite Hchan in Hcell. apply andb_true_iff in Hcell as [H1 H2].
    apply in_slice_nonneg in H1, H2; lia.
  - destruct Hchan as (_ & mk & Hmk & Heq). rewrite Heq in Hcell.
    by apply (channel_mask_bounds pick algo_config (dim_chans img) k
                (channel img k) (channel pattern k) mk r c).
Qed.

(** C4 at a pattern two rows taller than the image (3x1 image of zeros, 5x1
    pattern).  No anchor can hold the pattern, yet both the [brute_force]
    channel and a channel that allows overlap come back with the anchors
    (0, 0) and (1, 0) marked valid: the slice start [i_rows - p_rows + 1]
    is -1, which Python reads as "the last row". *)
Theorem bounds_violated_by_tall_pattern :
  ∃ m m',
    valid_locations pick_first short_img tall_pattern (config "brute_force" 0 0)
      true (Uniform false) = Ok m
    ∧ valid_locations pick_first short_img tall_pattern (config "brute_force" 0 0)
        true (Uniform true) = Ok m'
    ∧ at3 m 0 0 0 = true ∧ at3 m' 0 0 0 = true
    ∧ ¬ (0 + Z.of_nat (dim_rows tall_pattern) ≤ Z.of_nat (dim_rows short_img)).
Proof.
  eexists _, _. split_and!; [reflexivity..|]. simpl. lia.
Qed.

(** ** [pattern_fit] against the [brute_force] mask *)

(** Along a segment that starts on a false cell and ends on a true one, some
    true cell follows a false one. *)
Lemma first_crossing (f : Z → bool) (lo : Z) (n : nat) :
  f lo = false → f (lo + Z.of_nat n) = true →
  ∃ x, lo < x ≤ lo + Z.of_nat n ∧ f (x - 1) = false ∧ f x = true.
Proof.
  intros Hlo. induction n as [|n IH]; intros Hhi.
  - rewrite Z.add_0_r in Hhi. congruence.
  - destruct (f (lo + Z.of_nat n)) eqn:Hn.
    + destruct (IH eq_refl) as (x & Hx & H1 & H2). exists x. split; [lia|done].
    + exists (lo + Z.of_nat (S n)). split; [lia|]. split; [|done].
      by replace (lo + Z.of_nat (S n) - 1) with (lo + Z.of_nat n) by lia.
Qed.

Lemma crossing_between (f : Z → bool) (lo hi : Z) :
  lo ≤ hi → f lo = false → f hi = true →
  ∃ x, lo < x ≤ hi ∧ f (x - 1) = false ∧ f x = true.
Proof.
  intros Hle Hlo Hhi.
  destruct (first_crossing f lo (Z.to_nat (hi - lo)) Hlo) as (x & Hx & H);
    [by replace (lo + Z.of_nat (Z.to_nat (hi - lo))) with hi by lia|].
  exists x. split; [lia|done].
Qed.

(** A footprint inside the array whose anchor is background and which holds
    a foreground pixel holds an edge pixel. *)
Lemma footprint_has_edge_pixel (img_mask : ndarray2 bool) (p_rows p_cols r c i j : Z) :
  0 ≤ r → 0 ≤ c →
  r + p_rows ≤ Z.of_nat (nrows img_mask) → c + p_cols ≤ Z.of_nat (ncols img_mask) →
  r ≤ i < r + p_rows → c ≤ j < c + p_cols →
  at2 img_mask r c = false → at2 img_mask i j = true →
  ∃ x y, (x, y) ∈ edge_pixel_coords img_mask
         ∧ r ≤ x < r + p_rows ∧ c ≤ y < c + p_cols.
Proof.
  intros Hr Hc Hrb Hcb Hi Hj Hbg Hfg.
  destruct (at2 img_mask r j) eqn:Hrj.
  - destruct (crossing_between (λ y, at2 img_mask r y) c j) as (y & Hy & H1 & H2);
      [lia|done|done|].
    exists r, y. split; [|lia].
    apply elem_of_edge_pixel_coords. split; [lia|]. split; [lia|].
    split; [done|]. exists 0, (-1). split; [lia|]. split; [lia|].
    rewrite padded_in_range by lia.
    by replace (r + 0) with r by lia.
  - destruct (crossing_between (λ x, at2 img_mask x j) r i) as (x & Hx & H1 & H2);
      [lia|done|done|].
    exists x, j. split; [|lia].
    apply elem_of_edge_pixel_coords. split; [lia|]. split; [lia|].
    split; [done|]. exists (-1), 0. split; [lia|]. split; [lia|].
    rewrite padded_in_range by lia.
    by replace (j + 0) with j by lia.
Qed.

(** On one channel whose background is exactly its zero pixels, the
    [brute_force] mask is [pattern_fit]. *)
Lemma brute_force_mask_is_pattern_fit (chan_img chan_pattern : ndarray2 Z)
    (mv r c : Z) :
  (∀ i j, 0 ≤ i < Z.of_nat (nrows chan_img) → 0 ≤ j < Z.of_nat (ncols chan_img) →
          at2 chan_img i j ≤ mv ↔ at2 chan_img i j = 0) →
  (1 ≤ nrows chan_pattern ≤ nrows chan_img + 1)%nat →
  (1 ≤ ncols chan_pattern ≤ ncols chan_img + 1)%nat →
  0 ≤ r < Z.of_nat (nrows chan_img) → 0 ≤ c < Z.of_nat (ncols chan_img) →
  at2 (brute_force (Z.of_nat (nrows chan_pattern)) (Z.of_nat (ncols chan_pattern))
         (remove_boundaries (Z.of_nat (nrows chan_pattern))
            (Z.of_nat (ncols chan_pattern)) (le_scalar chan_img mv))
         (edge_pixel_coords (logical_not (le_scalar chan_img mv)))) r c
  = pattern_fit chan_img chan_pattern (r, c).
Proof.
  intros Hcls Hpr Hpc Hr Hc.
  set (p_rows := Z.of_nat (nrows chan_pattern)).
  set (p_cols := Z.of_nat (ncols chan_pattern)).
  set (img_mask := logical_not (le_scalar chan_img mv)).
  set (mask0 := remove_boundaries p_rows p_cols (le_scalar chan_img mv)).
  set (E := (list_to_set (edge_pixel_coords img_mask) : gset (Z * Z))).
  assert (∀ i j, 0 ≤ i < Z.of_nat (nrows chan_img) →
                 0 ≤ j < Z.of_nat (ncols chan_img) →
                 at2 img_mask i j = true ↔ at2 chan_img i j ≠ 0) as Hfg.
  { intros i j Hi Hj. simpl. rewrite negb_true_iff, Z.leb_gt.
    specialize (Hcls i j Hi Hj). lia. }
  assert (at2 mask0 r c = true ↔
          at2 chan_img r c = 0
          ∧ r + p_rows ≤ Z.of_nat (nrows chan_img)
          ∧ c + p_cols ≤ Z.of_nat (ncols chan_img)) as Hmask0.
  { unfold mask0. rewrite remove_boundaries_true by (simpl; lia). simpl.
    rewrite Z.leb_le. specialize (Hcls r c Hr Hc). tauto. }
  assert (tracks p_rows p_cols mask0 E
            (brute_force p_rows p_cols mask0 (edge_pixel_coords img_mask))
            (λ p, False ∨ p ∈ edge_pixel_coords img_mask)) as Htr.
  { apply brute_force_spec.
    - intros i j Hin. by apply edge_pixels_in_range in Hin.
    - intros p Hp. by apply elem_of_list_to_set.
    - apply tracks_init. }
  destruct Htr as (_ & _ & Htr).
  destruct (Htr r c) as [Ht Hf]; [simpl; lia..|].
  destruct (decide (r + p_rows ≤ Z.of_nat (nrows chan_img)
                    ∧ c + p_cols ≤ Z.of_nat (ncols chan_img))) as [[Hrb Hcb]|Hout].
  - rewrite pattern_fit_in_bounds by done.
    destruct (at2 (brute_force _ _ _ _) r c) eqn:Hb.
    + destruct (Ht eq_refl) as [H0 Hno]. apply Hmask0 in H0 as (Hz & _ & _).
      destruct (valid_location chan_img chan_pattern (r, c)) eqn:Hvl; [done|].
      exfalso. apply valid_location_false in Hvl as (i & j & Hi & Hj & Hv).
      rewrite in_slice_nonneg in Hi, Hj by lia.
      assert (r ≤ i < r + p_rows ∧ c ≤ j < c + p_cols) as [Hi' Hj']
        by (unfold p_rows, p_cols; lia).
      assert (at2 img_mask r c = false) as Hbg.
      { apply not_true_iff_false. rewrite Hfg by done. tauto. }
      assert (at2 img_mask i j = true) as Hfg'.
      { apply Hfg; [lia..|done]. }
      destruct (footprint_has_edge_pixel img_mask p_rows p_cols r c i j
                  ltac:(lia) ltac:(lia) Hrb Hcb Hi' Hj' Hbg Hfg')
        as (x & y & Hedge & Hx & Hy).
      apply (Hno (x, y)); [by right|]. unfold covers; cbn [fst snd]. lia.
    + symmetry. apply valid_location_false.
      destruct (Hf eq_refl) as [H0|([i j] & Hp & Hcov)].
      * exists r, c. rewrite !in_slice_nonneg by lia. fold p_rows p_cols.
        split; [lia|]. split; [lia|]. intros Hz.
        assert (at2 mask0 r c = true) by (apply Hmask0; done). congruence.
      * apply elem_of_list_to_set, elem_of_edge_pixel_coords in Hp
          as (Hi & Hj & Hp & _).
        unfold covers in Hcov; cbn [fst snd] in Hcov.
        exists i, j. rewrite !in_slice_nonneg by lia. fold p_rows p_cols.
        simpl in Hi, Hj.
        split; [lia|]. split; [lia|]. by apply Hfg.
  - rewrite pattern_fit_out_of_bounds by (fold p_rows p_cols; lia).
    destruct (at2 (brute_force _ _ _ _) r c) eqn:Hb; [|done].
    destruct (Ht eq_refl) as [H0 _]. apply Hmask0 in H0. lia.
Qed.

(** C6, as amended.  For an anchor inside the image, a pattern with at
    least one row and one column and at most one row and one column more than
    the image, and a channel whose background threshold singles out exactly
    its zero pixels (value <= min_val if and only if value = 0, as for
    [min_val = 0] on a non-negative channel), [pattern_fit] on that channel
    returns the cell of the [brute_force] mask. *)
Theorem pattern_fit_agrees_with_brute_force pick (img pattern : ndarray3 Z)
    (algo_config : InsertAtRandomLocationConfig) (mask : ndarray3 bool)
    (k : nat) (mv r c : Z) :
  algorithm algo_config = "brute_force" →
  valid_locations pick img pattern algo_config true (Uniform false) = Ok mask →
  (k < dim_chans img)%nat →
  resolve (min_val algo_config) (dim_chans img) k = Ok mv →
  (∀ i j, 0 ≤ i < Z.of_nat (dim_rows img) → 0 ≤ j < Z.of_nat (dim_cols img) →
          at3 img i j k ≤ mv ↔ at3 img i j k = 0) →
  (1 ≤ dim_rows pattern ≤ dim_rows img + 1)%nat →
  (1 ≤ dim_cols pattern ≤ dim_cols img + 1)%nat →
  0 ≤ r < Z.of_nat (dim_rows img) → 0 ≤ c < Z.of_nat (dim_cols img) →
  at3 mask r c k = pattern_fit (channel img k) (channel pattern k) (r, c).
Proof.
  intros Halg Hv Hk Hres Hcls Hpr Hpc Hr Hc.
  apply valid_locations_ok in Hv as (_ & _ & Hchan). specialize (Hchan k Hk).
  rewrite lookup_broadcast_uniform in Hchan by done.
  destruct Hchan as (_ & mk & Hmk & ->).
  unfold channel_mask in Hmk. rewrite Hres in Hmk. simpl in Hmk.
  unfold apply_algorithm in Hmk. rewrite Halg in Hmk. simpl in Hmk.
  injection Hmk as <-.
  by apply (brute_force_mask_is_pattern_fit (channel img k) (channel pattern k)).
Qed.

Lemma pattern_fit_agrees_with_brute_force_witness :
  ∃ mask,
    valid_locations pick_first block_img pattern_2x2 (config "brute_force" 0 0)
      true (Uniform false) = Ok mask
    ∧ at3 mask 1 1 0
      = pattern_fit (channel block_img 0) (channel pattern_2x2 0) (1, 1).
Proof.
  eexists. split; [reflexivity|].
  apply (pattern_fit_agrees_with_brute_force pick_first block_img pattern_2x2
           (config "brute_force" 0 0) _ 0%nat 0 1 1);
    try reflexivity; simpl; try lia.
  intros i j Hi Hj.
  destruct ((2 <=? i) && (i <=? 4) && (2 <=? j) && (j <=? 4)); lia.
Defined.

(** C6 as stated fails: with [min_val = 5] a one-pixel channel of value 3
    is all background, so the [brute_force] mask marks the anchor (0, 0)
    valid, while [pattern_fit] rejects it. *)
Lemma pattern_fit_disagrees_with_brute_force :
  ∃ mask,
    valid_locations pick_first (stack1 dim_pixel) (stack1 pattern_1x1)
      (config "brute_force" 5 0) true (Uniform false) = Ok mask
    ∧ at3 mask 0 0 0 = true
    ∧ pattern_fit (channel (stack1 dim_pixel) 0)
        (channel (stack1 pattern_1x1) 0) (0, 0) = false.
Proof. eexists. split_and!; reflexivity. Qed.
(** ** The call over the store *)

Lemma bind_done {A B} (c : M A) (k : A → M B) σ a σ' :
  c σ = Done a σ' → bind c k σ = k a σ'.
Proof. unfold bind. by intros ->. Qed.

Lemma bind_fail {A B} (c : M A) (k : A → M B) σ e :
  c σ = Fail e → bind c k σ = Fail e.
Proof. unfold bind. by intros ->. Qed.

Lemma fresh_not_in_dom (σ : gmap nat object) : σ !! fresh (dom σ) = None.
Proof. apply not_elem_of_dom, is_fresh. Qed.

(** *** Writes to the working mask

    The working mask is the object at [l]; the rest of the store is [σ0]. *)

Lemma setitem_slice_mask σ0 l m r0 r1 c0 c1 v :
  setitem_slice (Whole l) r0 r1 c0 c1 v (<[l := MaskArray m]> σ0)
  = Done () (<[l := MaskArray (assign_slice m r0 r1 c0 c1 v)]> σ0).
Proof. unfold setitem_slice. by rewrite lookup_insert_eq, insert_insert_eq. Qed.

Lemma setitem_cell_mask σ0 l m i j v :
  setitem_cell (Whole l) i j v (<[l := MaskArray m]> σ0)
  = Done () (<[l := MaskArray (assign_cell m i j v)]> σ0).
Proof. unfold setitem_cell. by rewrite lookup_insert_eq, insert_insert_eq. Qed.

Lemma get_mask_whole σ l m :
  σ !! l = Some (MaskArray m) → get_mask (Whole l) σ = Done m σ.
Proof. unfold get_mask. by intros ->. Qed.

Lemma get_num_view σ l k a :
  σ !! l = Some (NumArray a) → get_num (View l k) σ = Done (channel a k) σ.
Proof. unfold get_num. by intros ->. Qed.

Lemma for_each_mask {A} (xs : list A) (body : A → M unit)
    (f : ndarray2 bool → A → ndarray2 bool) σ0 l m :
  (∀ m x, body x (<[l := MaskArray m]> σ0)
          = Done () (<[l := MaskArray (f m x)]> σ0)) →
  for_each xs body (<[l := MaskArray m]> σ0)
  = Done () (<[l := MaskArray (foldl f m xs)]> σ0).
Proof.
  intros Hbody. revert m. induction xs as [|x xs IH]; intros m; [done|].
  cbn [for_each foldl]. rewrite (bind_done _ _ _ _ _ (Hbody m x)). apply IH.
Qed.

Lemma remove_boundaries_st_spec σ0 l m p_rows p_cols :
  remove_boundaries_st (Whole l) p_rows p_cols
    (Z.of_nat (nrows m)) (Z.of_nat (ncols m)) (<[l := MaskArray m]> σ0)
  = Done () (<[l := MaskArray (remove_boundaries p_rows p_cols m)]> σ0).
Proof.
  unfold remove_boundaries_st.
  rewrite (bind_done _ _ _ _ _ (setitem_slice_mask _ _ _ _ _ _ _ _)).
  by rewrite setitem_slice_mask.
Qed.

Lemma brute_force_st_spec σ0 l m p_rows p_cols edge_pixels :
  brute_force_st (Whole l) p_rows p_cols edge_pixels (<[l := MaskArray m]> σ0)
  = Done () (<[l := MaskArray (brute_force p_rows p_cols m edge_pixels)]> σ0).
Proof.
  unfold brute_force_st, brute_force. apply for_each_mask.
  intros m' [i j]. apply setitem_slice_mask.
Qed.

Lemma threshold_pass_st_spec σ0 l m img k img_a p_rows p_cols tv locations :
  σ0 !! img = Some (NumArray img_a) → img ≠ l →
  threshold_pass_st (View img k) (Whole l) p_rows p_cols tv locations
    (<[l := MaskArray m]> σ0)
  = Done () (<[l := MaskArray
                      (threshold_pass (channel img_a k) p_rows p_cols tv m
                         locations)]> σ0).
Proof.
  intros Himg Hne. unfold threshold_pass_st, threshold_pass.
  apply for_each_mask. intros m' [i j].
  rewrite (bind_done _ _ _ _ _ (get_num_view _ img k img_a
             ltac:(by rewrite lookup_insert_ne))).
  destruct (mean_le _ _); [apply setitem_cell_mask|done].
Qed.

Lemma bounding_boxes_st_spec σ0 l m l2 im num_boxes p_rows p_cols i_rows i_cols :
  σ0 !! l2 = Some (MaskArray im) → l2 ≠ l →
  bounding_boxes_st num_boxes p_rows p_cols i_rows i_cols (Whole l2) (Whole l)
    (<[l := MaskArray m]> σ0)
  = Done () (<[l := MaskArray
                      (bounding_boxes num_boxes p_rows p_cols i_rows i_cols
                         im m)]> σ0).
Proof.
  intros Him Hne. unfold bounding_boxes_st, bounding_boxes.
  apply for_each_mask. intros m1 i.
  apply for_each_mask. intros m2 j.
  rewrite (bind_done _ _ _ _ _ (get_mask_whole _ l2 im
             ltac:(by rewrite lookup_insert_ne))).
  destruct (_get_bounding_box _) as [[[[x y] w] h]|];
    [apply setitem_slice_mask|done].
Qed.

Lemma update_invalidation_st_spec σ0 l m p_rows p_cols ci cj ai aj :
  update_invalidation_st (Whole l) p_rows p_cols ci cj ai aj
    (<[l := MaskArray m]> σ0)
  = Done () (<[l := MaskArray
                      (update_invalidation p_rows p_cols m ci cj ai aj)]> σ0).
Proof.
  unfold update_invalidation_st, update_invalidation.
  destruct (ai <? 0); [|destruct (ai >? 0)];
    [rewrite (bind_done _ _ _ _ _ (setitem_slice_mask _ _ _ _ _ _ _ _))
    |rewrite (bind_done _ _ _ _ _ (setitem_slice_mask _ _ _ _ _ _ _ _))
    |rewrite (bind_done _ _ _ _ _ (eq_refl : ret () _ = Done () _))];
    (destruct (aj <? 0); [|destruct (aj >? 0)];
       [apply setitem_slice_mask|apply setitem_slice_mask|done]).
Qed.

Lemma trace_loop_st_spec σ0 l fuel p_rows p_cols i_rows i_cols m ci cj move s :
  match trace_loop fuel p_rows p_cols i_rows i_cols m ci cj move s with
  | Some (m', s') =>
      trace_loop_st fuel (Whole l) p_rows p_cols i_rows i_cols ci cj move s
        (<[l := MaskArray m]> σ0)
      = Done s' (<[l := MaskArray m']> σ0)
  | None =>
      trace_loop_st fuel (Whole l) p_rows p_cols i_rows i_cols ci cj move s
        (<[l := MaskArray m]> σ0)
      = Fail FuelExhausted
  end.
Proof.
  revert m ci cj move s.
  induction fuel as [|fuel IH]; intros m ci cj [[ai aj]|] s;
    cbn [trace_loop trace_loop_st]; try done.
  rewrite (bind_done _ _ _ _ _ (update_invalidation_st_spec _ _ _ _ _ _ _ _ _)).
  destruct (_get_next_edge_from_pixel _ _ _ _ _) as [[move' s']|]; [|done].
  apply IH.
Qed.

Lemma edge_tracing_loop_st_spec pick σ0 l fuel p_rows p_cols i_rows i_cols m s :
  match edge_tracing_loop pick fuel p_rows p_cols i_rows i_cols m s with
  | Some m' =>
      edge_tracing_loop_st pick fuel (Whole l) p_rows p_cols i_rows i_cols s
        (<[l := MaskArray m]> σ0)
      = Done () (<[l := MaskArray m']> σ0)
  | None =>
      edge_tracing_loop_st pick fuel (Whole l) p_rows p_cols i_rows i_cols s
        (<[l := MaskArray m]> σ0)
      = Fail FuelExhausted
  end.
Proof.
  revert m s. induction fuel as [|fuel IH]; intros m s;
    cbn [edge_tracing_loop edge_tracing_loop_st];
    destruct (elements s) as [|first others]; try done.
  destruct (nth _ _ _) as [si sj].
  rewrite (bind_done _ _ _ _ _ (setitem_slice_mask _ _ _ _ _ _ _ _)).
  match goal with
  | |- context [trace_loop ?f ?pr ?pc ?ir ?ic ?m' ?ci ?cj ?mv ?s'] =>
      pose proof (trace_loop_st_spec σ0 l f pr pc ir ic m' ci cj mv s') as Htr;
      destruct (trace_loop f pr pc ir ic m' ci cj mv s') as [[m'' s'']|]
  end.
  - rewrite (bind_done _ _ _ _ _ Htr). apply IH.
  - by rewrite (bind_fail _ _ _ _ Htr).
Qed.

(** The strategies write to the working mask only, and leave in it what
    [apply_algorithm] computes. *)
Lemma apply_algorithm_st_spec pick algo_config num_chans k σ0 l m img img_a
    l2 im p_rows p_cols :
  σ0 !! img = Some (NumArray img_a) → img ≠ l →
  σ0 !! l2 = Some (MaskArray im) → l2 ≠ l →
  match apply_algorithm pick algo_config num_chans k (channel img_a k)
          p_rows p_cols im m with
  | Ok m' =>
      apply_algorithm_st pick algo_config num_chans k (View img k)
        p_rows p_cols (Z.of_nat (dim_rows img_a)) (Z.of_nat (dim_cols img_a))
        (Whole l2) (Whole l) (<[l := MaskArray m]> σ0)
      = Done () (<[l := MaskArray m']> σ0)
  | Raise e =>
      apply_algorithm_st pick algo_config num_chans k (View img k)
        p_rows p_cols (Z.of_nat (dim_rows img_a)) (Z.of_nat (dim_cols img_a))
        (Whole l2) (Whole l) (<[l := MaskArray m]> σ0)
      = Fail e
  end.
Proof.
  intros Himg Hil Him Hl2. unfold apply_algorithm, apply_algorithm_st.
  rewrite (bind_done _ _ _ _ _ (get_mask_whole _ l2 im
             ltac:(by rewrite lookup_insert_ne))).
  cbn [channel nrows ncols].
  destruct (String.eqb _ "edge_tracing").
  { unfold edge_tracing, edge_tracing_st.
    match goal with
    | |- context [edge_tracing_loop ?p ?f ?pr ?pc ?ir ?ic ?m' ?s] =>
        pose proof (edge_tracing_loop_st_spec p σ0 l f pr pc ir ic m' s) as Het;
        destruct (edge_tracing_loop p f pr pc ir ic m' s)
    end; exact Het. }
  destruct (String.eqb _ "brute_force"); [apply brute_force_st_spec|].
  destruct (String.eqb _ "threshold").
  { rewrite (bind_done _ _ _ _ _ (brute_force_st_spec _ _ _ _ _ _)).
    rewrite (bind_done _ _ _ _ _ (get_mask_whole _ l _
               ltac:(apply lookup_insert_eq))).
    destruct (resolve (threshold_val algo_config) num_chans k) as [tv|e];
      [|done].
    cbn [bind_result].
    rewrite (bind_done _ _ _ _ _ (eq_refl : lift (Ok tv) _ = Done tv _)).
    by apply threshold_pass_st_spec. }
  destruct (String.eqb _ "bounding_boxes"); [|done].
  by apply bounding_boxes_st_spec.
Qed.

(** One channel: the working mask and the foreground mask are new objects,
    every write goes to the working mask, and the mask left there is the one
    of [channel_mask]. *)
Lemma channel_mask_st_spec pick (img : nat) algo_config (num_chans k : nat)
    (σ : gmap nat object) (img_a : ndarray3 Z) (chan_pattern : ndarray2 Z) :
  σ !! img = Some (NumArray img_a) →
  match channel_mask pick algo_config num_chans k (channel img_a k)
          chan_pattern with
  | Ok mk =>
      ∃ l σ',
        channel_mask_st pick algo_config num_chans k (View img k)
          (Z.of_nat (nrows chan_pattern)) (Z.of_nat (ncols chan_pattern))
          (Z.of_nat (dim_rows img_a)) (Z.of_nat (dim_cols img_a)) σ
        = Done (Whole l) σ'
        ∧ (l ∉ dom σ) ∧ σ' !! l = Some (MaskArray mk)
        ∧ ∀ l', l' ∈ dom σ → σ' !! l' = σ !! l'
  | Raise e =>
      channel_mask_st pick algo_config num_chans k (View img k)
        (Z.of_nat (nrows chan_pattern)) (Z.of_nat (ncols chan_pattern))
        (Z.of_nat (dim_rows img_a)) (Z.of_nat (dim_cols img_a)) σ
      = Fail e
  end.
Proof.
  intros Himg. unfold channel_mask_st, channel_mask.
  destruct (resolve (min_val algo_config) num_chans k) as [mv|e];
    cbn [bind_result]; [|done].
  rewrite (bind_done _ _ _ _ _ (eq_refl : lift (Ok mv) _ = Done mv _)).
  set (p_rows := Z.of_nat (nrows chan_pattern)).
  set (p_cols := Z.of_nat (ncols chan_pattern)).
  set (m0 := le_scalar (channel img_a k) mv).
  set (l1 := fresh (dom σ)).
  set (σ1 := <[l1 := MaskArray m0]> σ).
  set (l2 := fresh (dom σ1)).
  set (σ0 := <[l2 := MaskArray (logical_not m0)]> σ).
  assert (σ !! l1 = None) as Hl1 by apply fresh_not_in_dom.
  assert (σ1 !! l2 = None) as Hl2 by apply fresh_not_in_dom.
  assert (l2 ≠ l1) as Hne.
  { intros Heq. rewrite Heq in Hl2. unfold σ1 in Hl2.
    by rewrite lookup_insert_eq in Hl2. }
  assert (σ !! l2 = None) as Hl2'.
  { unfold σ1 in Hl2. by rewrite lookup_insert_ne in Hl2. }
  assert (img ≠ l1) as Hi1 by (intros ->; congruence).
  assert (img ≠ l2) as Hi2 by (intros ->; congruence).
  assert (le_scalar_st (View img k) mv σ = Done (Whole l1) σ1) as Hle.
  { unfold le_scalar_st, bind, get_num, new, ret. by rewrite Himg. }
  rewrite (bind_done _ _ _ _ _ Hle).
  assert (logical_not_st (Whole l1) σ1
          = Done (Whole l2) (<[l1 := MaskArray m0]> σ0)) as Hnot.
  { unfold logical_not_st, bind, get_mask, new, ret. unfold σ1 at 1.
    rewrite lookup_insert_eq. fold σ1 l2. unfold σ1, σ0.
    by rewrite insert_insert_ne. }
  rewrite (bind_done _ _ _ _ _ Hnot).
  pose proof (remove_boundaries_st_spec σ0 l1 m0 p_rows p_cols) as Hrb.
  cbn [le_scalar nrows ncols channel] in Hrb.
  rewrite (bind_done _ _ _ _ _ Hrb).
  pose proof (apply_algorithm_st_spec pick algo_config num_chans k σ0 l1
                (remove_boundaries p_rows p_cols m0) img img_a l2
                (logical_not m0) p_rows p_cols) as Halg.
  unfold σ0 in Halg at 1 2.
  rewrite lookup_insert_ne, lookup_insert_eq in Halg by done.
  specialize (Halg Himg Hi1 eq_refl Hne).
  destruct (apply_algorithm pick algo_config num_chans k (channel img_a k)
              p_rows p_cols (logical_not m0)
              (remove_boundaries p_rows p_cols m0)) as [mk|e].
  - rewrite (bind_done _ _ _ _ _ Halg).
    exists l1, (<[l1 := MaskArray mk]> σ0). split; [done|].
    split; [by apply not_elem_of_dom|]. split; [apply lookup_insert_eq|].
    intros l' Hl'. apply elem_of_dom in Hl' as [o Ho].
    unfold σ0. rewrite !lookup_insert_ne; [done|congruence|congruence].
  - by rewrite (bind_fail _ _ _ _ Halg).
Qed.

(** The channel loop writes to the output buffer and to objects it has
    allocated itself, and leaves in the buffer the mask of [channels_loop]. *)
Lemma channels_loop_st_spec pick (img pattern out : nat) algo_config
    (protect_wrap : bool) (allow_overlap : list bool) (chans : list nat)
    (σ : gmap nat object) (img_a pattern_a : ndarray3 Z) (out_v : ndarray3 bool) :
  σ !! img = Some (NumArray img_a) →
  σ !! pattern = Some (NumArray pattern_a) →
  σ !! out = Some (OutArray out_v) →
  match channels_loop pick img_a pattern_a algo_config protect_wrap
          allow_overlap chans out_v with
  | Ok m =>
      ∃ σ',
        channels_loop_st pick img pattern algo_config protect_wrap
          allow_overlap (dim_chans img_a) chans out σ = Done () σ'
        ∧ σ' !! out = Some (OutArray m)
        ∧ ∀ l, l ∈ dom σ → l ≠ out → σ' !! l = σ !! l
  | Raise e =>
      channels_loop_st pick img pattern algo_config protect_wrap
        allow_overlap (dim_chans img_a) chans out σ = Fail e
  end.
Proof.
  revert σ out_v. induction chans as [|k chans IH]; intros σ out_v Himg Hpat Hout.
  - simpl. by exists σ.
  - assert (img ≠ out) as Hio by (intros ->; congruence).
    assert (pattern ≠ out) as Hpo by (intros ->; congruence).
    cbn [channels_loop channels_loop_st].
    assert (shape2 (View img k) σ = Done (dim_rows img_a, dim_cols img_a) σ)
      as Hsi by (unfold shape2; by rewrite Himg).
    assert (shape2 (View pattern k) σ
            = Done (dim_rows pattern_a, dim_cols pattern_a) σ)
      as Hsp by (unfold shape2; by rewrite Hpat).
    rewrite (bind_done _ _ _ _ _ Hsi), (bind_done _ _ _ _ _ Hsp).
    cbn [fst snd channel nrows ncols].
    destruct (allow_overlap !! k) as [[|]|]; [| |done].
    + assert (setitem_slice (View out k) 0
                (Z.of_nat (dim_rows img_a) - Z.of_nat (dim_rows pattern_a) + 1) 0
                (Z.of_nat (dim_cols img_a) - Z.of_nat (dim_cols pattern_a) + 1)
                true σ
              = Done () (<[out := OutArray
                                    (assign_true3 out_v
                                       (Z.of_nat (dim_rows img_a)
                                        - Z.of_nat (dim_rows pattern_a) + 1)
                                       (Z.of_nat (dim_cols img_a)
                                        - Z.of_nat (dim_cols pattern_a) + 1)
                                       k)]> σ)) as Hw
        by (unfold setitem_slice; by rewrite Hout).
      rewrite (bind_done _ _ _ _ _ Hw).
      match goal with
      | |- context [channels_loop_st _ _ _ _ _ _ _ _ _ (<[out := OutArray ?v]> σ)] =>
          specialize (IH (<[out := OutArray v]> σ) v)
      end.
      rewrite !lookup_insert_ne, lookup_insert_eq in IH by done.
      specialize (IH Himg Hpat eq_refl).
      destruct (channels_loop _ _ _ _ _ _ _ _) as [m|e]; [|done].
      destruct IH as (σ' & Hrun & Hres & Hframe).
      exists σ'. split; [done|]. split; [done|].
      intros l Hl Hne. rewrite Hframe.
      * by rewrite lookup_insert_ne.
      * apply elem_of_dom. rewrite lookup_insert_ne by done.
        by apply elem_of_dom.
      * done.
    + destruct protect_wrap; [|done].
      pose proof (channel_mask_st_spec pick img algo_config (dim_chans img_a) k
                    σ img_a (channel pattern_a k) Himg) as Hchan.
      cbn [channel nrows ncols] in Hchan.
      destruct (channel_mask pick algo_config (dim_chans img_a) k
                  (channel img_a k) (channel pattern_a k)) as [mk|e];
        cbn [bind_result].
      * destruct Hchan as (l & σ1 & Hrun & Hfresh & Hl & Hframe1).
        assert (l ≠ out) as Hlo.
        { intros ->. apply Hfresh, elem_of_dom. by eexists. }
        assert (σ1 !! out = Some (OutArray out_v)) as Hout1.
        { rewrite Hframe1; [done|]. apply elem_of_dom. by eexists. }
        assert (σ1 !! img = Some (NumArray img_a)) as Himg1.
        { rewrite Hframe1; [done|]. apply elem_of_dom. by eexists. }
        assert (σ1 !! pattern = Some (NumArray pattern_a)) as Hpat1.
        { rewrite Hframe1; [done|]. apply elem_of_dom. by eexists. }
        rewrite (bind_done _ _ _ _ _ Hrun).
        assert (setitem_chan out k (Whole l) σ1
                = Done () (<[out := OutArray (assign_channel out_v k mk)]> σ1))
          as Hw.
        { unfold setitem_chan.
          rewrite (bind_done _ _ _ _ _ (get_mask_whole _ _ _ Hl)).
          by rewrite Hout1. }
        rewrite (bind_done _ _ _ _ _ Hw).
        specialize (IH (<[out := OutArray (assign_channel out_v k mk)]> σ1)
                      (assign_channel out_v k mk)).
        rewrite !lookup_insert_ne, lookup_insert_eq in IH by done.
        specialize (IH Himg1 Hpat1 eq_refl).
        destruct (channels_loop _ _ _ _ _ _ _ _) as [m|e]; [|done].
        destruct IH as (σ' & Hrun' & Hres & Hframe).
        exists σ'. split; [done|]. split; [done|].
        intros l' Hl' Hne. rewrite Hframe.
        -- rewrite lookup_insert_ne by done. by apply Hframe1.
        -- apply elem_of_dom. rewrite lookup_insert_ne by done.
           rewrite Hframe1 by done. by apply elem_of_dom.
        -- done.
      * by rewrite (bind_fail _ _ _ _ Hchan).
Qed.

(** The store-level call computes the mask of [valid_locations], in a new
    object, and changes no object that existed before. *)
Lemma valid_locations_st_spec pick (img pattern : nat) algo_config
    (protect_wrap : bool) (allow_overlap : per_channel bool)
    (σ : gmap nat object) (img_a pattern_a : ndarray3 Z) :
  σ !! img = Some (NumArray img_a) →
  σ !! pattern = Some (NumArray pattern_a) →
  match valid_locations pick img_a pattern_a algo_config protect_wrap
          allow_overlap with
  | Ok m =>
      ∃ out σ',
        valid_locations_st pick img pattern algo_config protect_wrap
          allow_overlap σ = Done out σ'
        ∧ (out ∉ dom σ) ∧ σ' !! out = Some (OutArray m)
        ∧ ∀ l, l ∈ dom σ → σ' !! l = σ !! l
  | Raise e =>
      valid_locations_st pick img pattern algo_config protect_wrap
        allow_overlap σ = Fail e
  end.
Proof.
  intros Himg Hpat. unfold valid_locations, valid_locations_st.
  assert (shape3 img σ = Done (dim_rows img_a, dim_cols img_a, dim_chans img_a) σ)
    as Hsi by (unfold shape3; by rewrite Himg).
  assert (shape3 pattern σ
          = Done (dim_rows pattern_a, dim_cols pattern_a, dim_chans pattern_a) σ)
    as Hsp by (unfold shape3; by rewrite Hpat).
  rewrite (bind_done _ _ _ _ _ Hsi), (bind_done _ _ _ _ _ Hsp).
  cbn [fst snd].
  destruct (negb (dim_chans pattern_a =? dim_chans img_a)%nat); [done|].
  set (out_v := zeros (dim_rows img_a) (dim_cols img_a) (dim_chans img_a)).
  set (out := fresh (dom σ)).
  set (σ1 := <[out := OutArray out_v]> σ).
  assert (σ !! out = None) as Hfresh by apply fresh_not_in_dom.
  change (bind (new ?o) ?k σ) with (k out σ1). cbv beta.
  assert (img ≠ out) as Hio by (intros ->; congruence).
  assert (pattern ≠ out) as Hpo by (intros ->; congruence).
  pose proof (channels_loop_st_spec pick img pattern out algo_config
                protect_wrap (broadcast allow_overlap (dim_chans img_a))
                (seq 0 (dim_chans img_a)) σ1 img_a pattern_a out_v) as Hloop.
  unfold σ1 in Hloop at 1 2 3.
  rewrite !lookup_insert_ne, lookup_insert_eq in Hloop by done.
  specialize (Hloop Himg Hpat eq_refl).
  destruct (channels_loop _ _ _ _ _ _ _ _) as [m|e].
  - destruct Hloop as (σ' & Hrun & Hres & Hframe).
    rewrite (bind_done _ _ _ _ _ Hrun).
    exists out, σ'. split; [done|]. split; [by apply not_elem_of_dom|].
    split; [done|]. intros l Hl.
    assert (l ≠ out) as Hne.
    { intros ->. apply elem_of_dom in Hl as [? ?]. congruence. }
    rewrite Hframe; [|apply elem_of_dom|done].
    + unfold σ1. by rewrite lookup_insert_ne.
    + unfold σ1. rewrite lookup_insert_ne by done. by apply elem_of_dom.
  - by rewrite (bind_fail _ _ _ _ Hloop).
Qed.

(** The inputs are writable: an assignment through a view of the image
    changes the image object.  That the call never does so is a property of
    the writes it performs, not of the store. *)
Lemma view_write_reaches_image :
  ∃ σ' a,
    setitem_slice (View 0 0) 0 1 0 1 true scenario_store = Done () σ'
    ∧ σ' !! 0%nat = Some (NumArray a)
    ∧ at3 a 0 0 0 = 1 ∧ at3 block_img 0 0 0 = 0.
Proof. eexists _, _. repeat split; reflexivity. Qed.

(** C10.  When the call returns, the image and the pattern objects hold
    what they held before, every object that existed before the call is
    unchanged, and the result is a new object: a boolean mask, the one
    [valid_locations] computes from the two arrays. *)
Theorem valid_locations_preserves_inputs pick (img pattern : nat) algo_config
    (protect_wrap : bool) (allow_overlap : per_channel bool)
    (σ σ' : gmap nat object) (img_a pattern_a : ndarray3 Z) (out : nat) :
  σ !! img = Some (NumArray img_a) →
  σ !! pattern = Some (NumArray pattern_a) →
  valid_locations_st pick img pattern algo_config protect_wrap allow_overlap σ
  = Done out σ' →
  σ' !! img = Some (NumArray img_a)
  ∧ σ' !! pattern = Some (NumArray pattern_a)
  ∧ (∀ l, l ∈ dom σ → σ' !! l = σ !! l)
  ∧ (out ∉ dom σ)
  ∧ ∃ m,
      σ' !! out = Some (OutArray m)
      ∧ valid_locations pick img_a pattern_a algo_config protect_wrap
          allow_overlap = Ok m.
Proof.
  intros Himg Hpat Hrun.
  pose proof (valid_locations_st_spec pick img pattern algo_config protect_wrap
                allow_overlap σ img_a pattern_a Himg Hpat) as Hspec.
  destruct (valid_locations pick img_a pattern_a algo_config protect_wrap
              allow_overlap) as [m|e]; [|congruence].
  destruct Hspec as (out' & σ'' & Hrun' & Hfresh & Hres & Hframe).
  rewrite Hrun in Hrun'. injection Hrun' as -> ->.
  split; [rewrite Hframe; [done|by apply elem_of_dom; eexists]|].
  split; [rewrite Hframe; [done|by apply elem_of_dom; eexists]|].
  split; [done|]. split; [done|]. by exists m.
Qed.

Lemma valid_locations_preserves_inputs_witness :
  ∃ out σ',
    valid_locations_st pick_first 0 1 (config "edge_tracing" 0 0) true
      (Uniform false) scenario_store = Done out σ'
    ∧ σ' !! 0%nat = Some (NumArray block_img)
    ∧ σ' !! 1%nat = Some (NumArray pattern_2x2)
    ∧ (out ∉ dom scenario_store).
Proof.
  assert (∃ m, valid_locations pick_first block_img pattern_2x2
                 (config "edge_tracing" 0 0) true (Uniform false) = Ok m)
    as [m Hm] by (eexists; reflexivity).
  pose proof (valid_locations_st_spec pick_first 0 1 (config "edge_tracing" 0 0)
                true (Uniform false) scenario_store block_img pattern_2x2
                eq_refl eq_refl) as Hspec.
  rewrite Hm in Hspec. destruct Hspec as (out & σ' & Hrun & _).
  exists out, σ'. split; [exact Hrun|].
  destruct (valid_locations_preserves_inputs pick_first 0 1
              (config "edge_tracing" 0 0) true (Uniform false) scenario_store σ'
              block_img pattern_2x2 out eq_refl eq_refl Hrun)
    as (H0 & H1 & _ & Hfresh & _).
  split; [exact H0|]. split; [exact H1|exact Hfresh].
Defined.

(** ** Calls that return a mask *)

Lemma apply_algorithm_returns pick algo_config num_chans chan_idx chan_img
    p_rows p_cols img_mask mask (tv : Z) :
  threshold_val algo_config = Uniform tv →
  ∃ mask',
    apply_algorithm pick algo_config num_chans chan_idx chan_img p_rows p_cols
      img_mask mask = Ok mask'.
Proof.
  intros Htv. unfold apply_algorithm. rewrite Htv.
  destruct (String.eqb _ "edge_tracing").
  { unfold edge_tracing.
    destruct (edge_tracing_loop_below pick
                (size (list_to_set (edge_pixel_coords img_mask) : gset (Z * Z)))
                p_rows p_cols (Z.of_nat (nrows chan_img))
                (Z.of_nat (ncols chan_img)) mask
                (list_to_set (edge_pixel_coords img_mask)))
      as (mask' & -> & _); [done|]. by eexists. }
  destruct (String.eqb _ "brute_force"); [by eexists|].
  destruct (String.eqb _ "threshold"); [by eexists|].
  destruct (String.eqb _ "bounding_boxes"); by eexists.
Qed.

Lemma channels_loop_returns pick (img pattern : ndarray3 Z) algo_config
    (allow_overlap : list bool) (chans : list nat) (out : ndarray3 bool)
    (mv tv : Z) :
  min_val algo_config = Uniform mv → threshold_val algo_config = Uniform tv →
  (∀ k, k ∈ chans → is_Some (allow_overlap !! k)) →
  ∃ m,
    channels_loop pick img pattern algo_config true allow_overlap chans out
    = Ok m.
Proof.
  intros Hmv Htv. revert out. induction chans as [|k chans IH]; intros out Hao.
  - by eexists.
  - cbn [channels_loop].
    destruct (Hao k) as [b ->]; [by left|].
    assert (∀ k', k' ∈ chans → is_Some (allow_overlap !! k')) as Hao'
      by (intros k' Hk'; apply Hao; by right).
    destruct b; [by apply IH|].
    unfold channel_mask. rewrite Hmv. simpl.
    match goal with
    | |- context [apply_algorithm ?p ?a ?n ?k ?ci ?pr ?pc ?im ?m] =>
        destruct (apply_algorithm_returns p a n k ci pr pc im m tv Htv)
          as (mk & ->)
    end.
    simpl. by apply IH.
Qed.

(** With scalar [min_val] and [threshold_val], matching channel counts,
    wrap protection and one [allow_overlap] flag, every algorithm returns a
    mask. *)
Lemma valid_locations_returns pick (img pattern : ndarray3 Z) algo_config
    (allow_overlap : bool) (mv tv : Z) :
  min_val algo_config = Uniform mv → threshold_val algo_config = Uniform tv →
  dim_chans pattern = dim_chans img →
  ∃ m,
    valid_locations pick img pattern algo_config true (Uniform allow_overlap)
    = Ok m.
Proof.
  intros Hmv Htv Hch. unfold valid_locations. rewrite Hch, Nat.eqb_refl.
  cbn [negb]. apply (channels_loop_returns _ _ _ _ _ _ _ mv tv); try done.
  intros k Hk. apply elem_of_seq in Hk. exists allow_overlap.
  apply lookup_broadcast_uniform. lia.
Qed.

(** ** The masks of the pixel-exact strategies *)

(** A mask that tracks every edge pixel of a channel marks exactly the
    anchors whose footprint lies inside the image and holds background
    only. *)
Lemma tracked_mask_footprint (chan_img : ndarray2 Z) (mv p_rows p_cols : Z)
    (mk : ndarray2 bool) (r c : Z) :
  tracks p_rows p_cols
    (remove_boundaries p_rows p_cols (le_scalar chan_img mv))
    (list_to_set (edge_pixel_coords (logical_not (le_scalar chan_img mv))))
    mk
    (λ p, p ∈ (list_to_set
                 (edge_pixel_coords (logical_not (le_scalar chan_img mv)))
               : gset (Z * Z))) →
  1 ≤ p_rows ≤ Z.of_nat (nrows chan_img) + 1 →
  1 ≤ p_cols ≤ Z.of_nat (ncols chan_img) + 1 →
  0 ≤ r < Z.of_nat (nrows chan_img) → 0 ≤ c < Z.of_nat (ncols chan_img) →
  at2 mk r c = true ↔
  r + p_rows ≤ Z.of_nat (nrows chan_img)
  ∧ c + p_cols ≤ Z.of_nat (ncols chan_img)
  ∧ ∀ i j, r ≤ i < r + p_rows → c ≤ j < c + p_cols → at2 chan_img i j ≤ mv.
Proof.
  set (img_mask := logical_not (le_scalar chan_img mv)).
  set (mask0 := remove_boundaries p_rows p_cols (le_scalar chan_img mv)).
  intros (_ & _ & Htr) Hpr Hpc Hr Hc.
  assert (∀ i j, at2 img_mask i j = true ↔ ¬ at2 chan_img i j ≤ mv) as Hfg.
  { intros i j. simpl. rewrite negb_true_iff, Z.leb_gt. lia. }
  assert (at2 mask0 r c = true ↔
          at2 chan_img r c ≤ mv
          ∧ r + p_rows ≤ Z.of_nat (nrows chan_img)
          ∧ c + p_cols ≤ Z.of_nat (ncols chan_img)) as Hmask0.
  { unfold mask0. rewrite remove_boundaries_true by (simpl; lia). simpl.
    by rewrite Z.leb_le. }
  destruct (Htr r c) as [Ht Hf]; [simpl; lia..|]. split.
  - intros Hm. destruct (Ht Hm) as [H0 Hno].
    apply Hmask0 in H0 as (Hbg & Hrb & Hcb).
    split; [done|]. split; [done|]. intros i j Hi Hj.
    destruct (Z.le_gt_cases (at2 chan_img i j) mv) as [|Hgt]; [done|].
    exfalso.
    assert (at2 img_mask r c = false) as Hbg'.
    { apply not_true_iff_false. rewrite Hfg. tauto. }
    assert (at2 img_mask i j = true) as Hfg' by (apply Hfg; lia).
    destruct (footprint_has_edge_pixel img_mask p_rows p_cols r c i j
                ltac:(lia) ltac:(lia) Hrb Hcb Hi Hj Hbg' Hfg')
      as (x & y & Hedge & Hx & Hy).
    apply (Hno (x, y)); [by apply elem_of_list_to_set|].
    unfold covers; cbn [fst snd]. lia.
  - intros (Hrb & Hcb & Hall).
    destruct (at2 mk r c) eqn:Hm; [done|]. exfalso.
    destruct (Hf eq_refl) as [H0|([i j] & Hp & Hcov)].
    + assert (at2 mask0 r c = true); [|congruence].
      apply Hmask0. split; [apply Hall; lia|done].
    + apply elem_of_list_to_set, elem_of_edge_pixel_coords in Hp
        as (Hi & Hj & Hp & _).
      unfold covers in Hcov; cbn [fst snd] in Hcov.
      apply Hfg in Hp. apply Hp, Hall; lia.
Qed.

Lemma brute_force_tracks_edges (chan_img : ndarray2 Z) (mv p_rows p_cols : Z) :
  tracks p_rows p_cols
    (remove_boundaries p_rows p_cols (le_scalar chan_img mv))
    (list_to_set (edge_pixel_coords (logical_not (le_scalar chan_img mv))))
    (brute_force p_rows p_cols
       (remove_boundaries p_rows p_cols (le_scalar chan_img mv))
       (edge_pixel_coords (logical_not (le_scalar chan_img mv))))
    (λ p, p ∈ (list_to_set
                 (edge_pixel_coords (logical_not (le_scalar chan_img mv)))
               : gset (Z * Z))).
Proof.
  apply (tracks_weaken _ _ _ _ _
           (λ p, False ∨ p ∈ edge_pixel_coords
                                (logical_not (le_scalar chan_img mv)))).
  - intros p Hp. right. by apply elem_of_list_to_set in Hp.
  - apply brute_force_spec.
    + intros i j Hin. by apply edge_pixels_in_range in Hin.
    + intros p Hp. by apply elem_of_list_to_set.
    + apply tracks_init.
Qed.

(** X1.  Under [brute_force], for a pattern with at least one row and
    column and at most one more than the image, a cell of a channel that
    does not allow overlap is true exactly when the pattern placed at that
    anchor stays inside the image and covers only pixels that are at most
    [min_val]. *)
Theorem brute_force_mask_exact pick (img pattern : ndarray3 Z)
    (algo_config : InsertAtRandomLocationConfig)
    (allow_overlap : per_channel bool) (mask : ndarray3 bool)
    (k : nat) (mv r c : Z) :
  algorithm algo_config = "brute_force" →
  valid_locations pick img pattern algo_config true allow_overlap = Ok mask →
  (k < dim_chans img)%nat →
  broadcast allow_overlap (dim_chans img) !! k = Some false →
  resolve (min_val algo_config) (dim_chans img) k = Ok mv →
  (1 ≤ dim_rows pattern ≤ dim_rows img + 1)%nat →
  (1 ≤ dim_cols pattern ≤ dim_cols img + 1)%nat →
  0 ≤ r < Z.of_nat (dim_rows img) → 0 ≤ c < Z.of_nat (dim_cols img) →
  at3 mask r c k = true ↔
  r + Z.of_nat (dim_rows pattern) ≤ Z.of_nat (dim_rows img)
  ∧ c + Z.of_nat (dim_cols pattern) ≤ Z.of_nat (dim_cols img)
  ∧ ∀ i j, r ≤ i < r + Z.of_nat (dim_rows pattern) →
           c ≤ j < c + Z.of_nat (dim_cols pattern) →
           at3 img i j k ≤ mv.
Proof.
  intros Halg Hv Hk Hao Hres Hpr Hpc Hr Hc.
  apply valid_locations_ok in Hv as (_ & _ & Hchan). specialize (Hchan k Hk).
  rewrite Hao in Hchan. destruct Hchan as (_ & mk & Hmk & ->).
  unfold channel_mask in Hmk. rewrite Hres in Hmk. simpl in Hmk.
  unfold apply_algorithm in Hmk. rewrite Halg in Hmk. simpl in Hmk.
  injection Hmk as <-.
  apply (tracked_mask_footprint (channel img k) mv
           (Z.of_nat (dim_rows pattern)) (Z.of_nat (dim_cols pattern)));
    simpl; try lia.
  apply (brute_force_tracks_edges (channel img k)).
Qed.

Lemma brute_force_mask_exact_witness :
  ∃ mask,
    valid_locations pick_first block_img pattern_2x2 (config "brute_force" 0 0)
      true (Uniform false) = Ok mask
    ∧ (at3 mask 5 5 0 = true ↔
       5 + 2 ≤ 10 ∧ 5 + 2 ≤ 10
       ∧ ∀ i j, 5 ≤ i < 5 + 2 → 5 ≤ j < 5 + 2 → at3 block_img i j 0 ≤ 0).
Proof.
  eexists. split; [reflexivity|].
  apply (brute_force_mask_exact pick_first block_img pattern_2x2
           (config "brute_force" 0 0) (Uniform false) _ 0%nat 0 5 5);
    try reflexivity; simpl; lia.
Defined.

(** X2.  Under [edge_tracing], with the same conditions, the cell is true
    exactly when the pattern placed at that anchor stays inside the image and
    covers only pixels that are at most [min_val], whichever order the walk
    pops the edge pixels in. *)
Theorem edge_tracing_mask_exact pick (img pattern : ndarray3 Z)
    (algo_config : InsertAtRandomLocationConfig)
    (allow_overlap : per_channel bool) (mask : ndarray3 bool)
    (k : nat) (mv r c : Z) :
  algorithm algo_config = "edge_tracing" →
  valid_locations pick img pattern algo_config true allow_overlap = Ok mask →
  (k < dim_chans img)%nat →
  broadcast allow_overlap (dim_chans img) !! k = Some false →
  resolve (min_val algo_config) (dim_chans img) k = Ok mv →
  (1 ≤ dim_rows pattern ≤ dim_rows img + 1)%nat →
  (1 ≤ dim_cols pattern ≤ dim_cols img + 1)%nat →
  0 ≤ r < Z.of_nat (dim_rows img) → 0 ≤ c < Z.of_nat (dim_cols img) →
  at3 mask r c k = true ↔
  r + Z.of_nat (dim_rows pattern) ≤ Z.of_nat (dim_rows img)
  ∧ c + Z.of_nat (dim_cols pattern) ≤ Z.of_nat (dim_cols img)
  ∧ ∀ i j, r ≤ i < r + Z.of_nat (dim_rows pattern) →
           c ≤ j < c + Z.of_nat (dim_cols pattern) →
           at3 img i j k ≤ mv.
Proof.
  intros Halg Hv Hk Hao Hres Hpr Hpc Hr Hc.
  apply valid_locations_ok in Hv as (_ & _ & Hchan). specialize (Hchan k Hk).
  rewrite Hao in Hchan. destruct Hchan as (_ & mk & Hmk & ->).
  unfold channel_mask in Hmk. rewrite Hres in Hmk. simpl in Hmk.
  unfold apply_algorithm in Hmk. rewrite Halg in Hmk. simpl in Hmk.
  destruct (edge_tracing_spec pick (Z.of_nat (dim_rows pattern))
              (Z.of_nat (dim_cols pattern))
              (remove_boundaries (Z.of_nat (dim_rows pattern))
                 (Z.of_nat (dim_cols pattern)) (le_scalar (channel img k) mv))
              (list_to_set
                 (edge_pixel_coords (logical_not (le_scalar (channel img k) mv))))
              ltac:(lia) ltac:(lia)
              (λ i j Hin, edge_pixels_in_range _ i j Hin)
              (Z.of_nat (dim_rows img)) (Z.of_nat (dim_cols img))
              (edge_pixel_coords (logical_not (le_scalar (channel img k) mv)))
              eq_refl) as (me & Heq & Htr).
  rewrite Heq in Hmk. injection Hmk as <-.
  apply (tracked_mask_footprint (channel img k) mv
           (Z.of_nat (dim_rows pattern)) (Z.of_nat (dim_cols pattern)));
    simpl; try lia.
  exact Htr.
Qed.

Lemma edge_tracing_mask_exact_witness :
  ∃ mask,
    valid_locations pick_last block_img pattern_2x2 (config "edge_tracing" 0 0)
      true (Uniform false) = Ok mask
    ∧ (at3 mask 5 5 0 = true ↔
       5 + 2 ≤ 10 ∧ 5 + 2 ≤ 10
       ∧ ∀ i j, 5 ≤ i < 5 + 2 → 5 ≤ j < 5 + 2 → at3 block_img i j 0 ≤ 0).
Proof.
  eexists. split; [reflexivity|].
  apply (edge_tracing_mask_exact pick_last block_img pattern_2x2
           (config "edge_tracing" 0 0) (Uniform false) _ 0%nat 0 5 5);
    try reflexivity; simpl; lia.
Defined.

(** X3.  Whenever the [threshold] call returns, so does the [brute_force]
    call on the same inputs, and the two masks hold the same value in every
    cell: [threshold_val] has no effect on the result. *)
Theorem threshold_mask_is_brute_force_mask pick pick' (img pattern : ndarray3 Z)
    (cfg_t cfg_b : InsertAtRandomLocationConfig) (protect_wrap : bool)
    (allow_overlap : per_channel bool) (mt : ndarray3 bool) :
  algorithm cfg_t = "threshold" → algorithm cfg_b = "brute_force" →
  min_val cfg_t = min_val cfg_b →
  valid_locations pick img pattern cfg_t protect_wrap allow_overlap = Ok mt →
  ∃ mb,
    valid_locations pick' img pattern cfg_b protect_wrap allow_overlap = Ok mb
    ∧ ∀ r c k, at3 mt r c k = at3 mb r c k.
Proof.
  intros Ht Hb Hmv. apply valid_locations_refines.
  intros k m. by apply channel_mask_threshold_brute_force.
Qed.

Lemma threshold_mask_is_brute_force_mask_witness :
  ∃ mt mb,
    valid_locations pick_first block_img pattern_2x2 (config "threshold" 0 1)
      true (Uniform false) = Ok mt
    ∧ valid_locations pick_first block_img pattern_2x2 (config "brute_force" 0 7)
        true (Uniform false) = Ok mb
    ∧ ∀ r c k, at3 mt r c k = at3 mb r c k.
Proof.
  eexists.
  destruct (threshold_mask_is_brute_force_mask pick_first pick_first block_img
              pattern_2x2 (config "threshold" 0 1) (config "brute_force" 0 7)
              true (Uniform false) _ eq_refl eq_refl eq_refl eq_refl)
    as (mb & Hmb & Heq).
  exists mb. split; [reflexivity|]. split; [exact Hmb|exact Heq].
Defined.

(** ** Channels that allow overlap, configuration errors, background *)

(** X4.  In a channel that allows overlap, for a pattern with at most one
    row and one column more than the image, a cell inside the image is true
    exactly when the pattern placed there stays inside the image; neither
    the pixel values nor the algorithm, [min_val] or [protect_wrap] matter. *)
Theorem allow_overlap_mask_exact pick (img pattern : ndarray3 Z)
    (algo_config : InsertAtRandomLocationConfig) (protect_wrap : bool)
    (allow_overlap : per_channel bool) (mask : ndarray3 bool)
    (k : nat) (r c : Z) :
  valid_locations pick img pattern algo_config protect_wrap allow_overlap
  = Ok mask →
  (k < dim_chans img)%nat →
  broadcast allow_overlap (dim_chans img) !! k = Some true →
  (dim_rows pattern ≤ dim_rows img + 1)%nat →
  (dim_cols pattern ≤ dim_cols img + 1)%nat →
  0 ≤ r < Z.of_nat (dim_rows img) → 0 ≤ c < Z.of_nat (dim_cols img) →
  at3 mask r c k = true ↔
  r + Z.of_nat (dim_rows pattern) ≤ Z.of_nat (dim_rows img)
  ∧ c + Z.of_nat (dim_cols pattern) ≤ Z.of_nat (dim_cols img).
Proof.
  intros Hv Hk Hao Hpr Hpc Hr Hc.
  apply valid_locations_ok in Hv as (_ & _ & Hchan). specialize (Hchan k Hk).
  rewrite Hao in Hchan. rewrite Hchan, andb_true_iff.
  rewrite !in_slice_nonneg by lia. lia.
Qed.

Lemma allow_overlap_mask_exact_witness :
  ∃ mask,
    valid_locations pick_first block_img pattern_2x2 (config "threshold" 0 0)
      false (Uniform true) = Ok mask
    ∧ (at3 mask 3 3 0 = true ↔ 3 + 2 ≤ 10 ∧ 3 + 2 ≤ 10).
Proof.
  eexists. split; [reflexivity|].
  apply (allow_overlap_mask_exact pick_first block_img pattern_2x2
           (config "threshold" 0 0) false (Uniform true) _ 0%nat 3 3);
    try reflexivity; simpl; lia.
Defined.

(** With wrap protection, the loop stops with the error of the first channel
    that does not allow overlap, when that channel's mask raises it. *)
Lemma channels_loop_raises pick (img pattern : ndarray3 Z) algo_config
    (allow_overlap : list bool) (n s : nat) (out : ndarray3 bool) (e : error) :
  (∀ k, (s ≤ k < s + n)%nat →
        channel_mask pick algo_config (dim_chans img) k (channel img k)
          (channel pattern k) = Raise e) →
  (∃ k, (s ≤ k < s + n)%nat ∧ allow_overlap !! k = Some false) →
  channels_loop pick img pattern algo_config true allow_overlap (seq s n) out
  = Raise e.
Proof.
  revert s out. induction n as [|n IH]; intros s out Hraise (k & Hk & Hf).
  - lia.
  - cbn [seq channels_loop]. destruct (allow_overlap !! s) as [[|]|] eqn:Hs.
    + apply IH.
      * intros k' Hk'. apply Hraise. lia.
      * exists k. split; [|done].
        destruct (decide (k = s)) as [->|]; [congruence|lia].
    + rewrite Hraise by lia. done.
    + apply lookup_ge_None in Hs. apply lookup_lt_Some in Hf. lia.
Qed.

(** X5.  A [min_val] sequence whose length is not the channel count makes
    the call raise the configuration error as soon as a channel does not
    allow overlap (channel counts equal, [protect_wrap] true); the algorithm
    never runs on that channel and no mask is returned. *)
Theorem min_val_length_mismatch pick (img pattern : ndarray3 Z)
    (algo_config : InsertAtRandomLocationConfig)
    (allow_overlap : per_channel bool) (vs : list Z) :
  dim_chans pattern = dim_chans img →
  min_val algo_config = PerChannel vs → length vs ≠ dim_chans img →
  (∃ k, (k < dim_chans img)%nat
        ∧ broadcast allow_overlap (dim_chans img) !! k = Some false) →
  valid_locations pick img pattern algo_config true allow_overlap
  = Raise ConfigMismatch.
Proof.
  intros Hch Hmv Hlen (k & Hk & Hf). unfold valid_locations.
  rewrite Hch, Nat.eqb_refl. cbn [negb].
  apply channels_loop_raises.
  - intros k' _. unfold channel_mask. rewrite Hmv. simpl.
    by destruct (Nat.eqb_spec (length vs) (dim_chans img)).
  - exists k. split; [lia|done].
Qed.

Lemma min_val_length_mismatch_witness :
  valid_locations pick_first block_img pattern_2x2
    (config_seq "brute_force" (PerChannel [0; 0]) (Uniform 0))
    true (Uniform false)
  = Raise ConfigMismatch.
Proof.
  apply (min_val_length_mismatch pick_first block_img pattern_2x2
           (config_seq "brute_force" (PerChannel [0; 0]) (Uniform 0))
           (Uniform false) [0; 0]).
  - reflexivity.
  - reflexivity.
  - simpl. lia.
  - exists 0%nat. split; [simpl; lia|reflexivity].
Defined.

(** X6.  Under [threshold], a [threshold_val] sequence whose length is not
    the channel count makes the call raise the configuration error as soon
    as a channel does not allow overlap, even though [min_val] is usable
    (channel counts equal, [protect_wrap] true). *)
Theorem threshold_val_length_mismatch pick (img pattern : ndarray3 Z)
    (algo_config : InsertAtRandomLocationConfig)
    (allow_overlap : per_channel bool) (mv : Z) (vs : list Z) :
  algorithm algo_config = "threshold" →
  dim_chans pattern = dim_chans img →
  min_val algo_config = Uniform mv →
  threshold_val algo_config = PerChannel vs → length vs ≠ dim_chans img →
  (∃ k, (k < dim_chans img)%nat
        ∧ broadcast allow_overlap (dim_chans img) !! k = Some false) →
  valid_locations pick img pattern algo_config true allow_overlap
  = Raise ConfigMismatch.
Proof.
  intros Halg Hch Hmv Htv Hlen (k & Hk & Hf). unfold valid_locations.
  rewrite Hch, Nat.eqb_refl. cbn [negb].
  apply channels_loop_raises.
  - intros k' _. unfold channel_mask, apply_algorithm.
    rewrite Hmv, Halg, Htv. simpl.
    by destruct (Nat.eqb_spec (length vs) (dim_chans img)).
  - exists k. split; [lia|done].
Qed.

Lemma threshold_val_length_mismatch_witness :
  valid_locations pick_first block_img pattern_2x2
    (config_seq "threshold" (Uniform 0) (PerChannel [1; 1; 1]))
    true (Uniform false)
  = Raise ConfigMismatch.
Proof.
  apply (threshold_val_length_mismatch pick_first block_img pattern_2x2
           (config_seq "threshold" (Uniform 0) (PerChannel [1; 1; 1]))
           (Uniform false) 0 [1; 1; 1]).
  - reflexivity.
  - reflexivity.
  - reflexivity.
  - reflexivity.
  - simpl. lia.
  - exists 0%nat. split; [simpl; lia|reflexivity].
Defined.

Lemma below_remove_boundaries p_rows p_cols m :
  below (remove_boundaries p_rows p_cols m) m.
Proof.
  unfold remove_boundaries.
  eapply below_trans; apply below_assign_slice.
Qed.

(** X7.  Whatever the algorithm tag, in a channel that does not allow
    overlap a true cell of the returned mask sits on a background pixel: the
    image value at the anchor itself is at most [min_val]. *)
Theorem valid_anchor_is_background pick (img pattern : ndarray3 Z)
    (algo_config : InsertAtRandomLocationConfig) (protect_wrap : bool)
    (allow_overlap : per_channel bool) (mask : ndarray3 bool)
    (k : nat) (mv r c : Z) :
  valid_locations pick img pattern algo_config protect_wrap allow_overlap
  = Ok mask →
  (k < dim_chans img)%nat →
  broadcast allow_overlap (dim_chans img) !! k = Some false →
  resolve (min_val algo_config) (dim_chans img) k = Ok mv →
  at3 mask r c k = true →
  at3 img r c k ≤ mv.
Proof.
  intros Hv Hk Hao Hres Hcell.
  apply valid_locations_ok in Hv as (_ & _ & Hchan). specialize (Hchan k Hk).
  rewrite Hao in Hchan. destruct Hchan as (_ & mk & Hmk & Heq).
  rewrite Heq in Hcell.
  unfold channel_mask in Hmk. rewrite Hres in Hmk. simpl in Hmk.
  match type of Hmk with
  | apply_algorithm ?p ?a ?n ?k ?ci ?pr ?pc ?im ?m = _ =>
      pose proof (apply_algorithm_below p a n k ci pr pc im m) as Hb
  end.
  rewrite Hmk in Hb. destruct Hb as (_ & _ & Hb). apply Hb in Hcell.
  destruct (below_remove_boundaries (Z.of_nat (dim_rows pattern))
              (Z.of_nat (dim_cols pattern)) (le_scalar (channel img k) mv))
    as (_ & _ & Hb').
  apply Hb' in Hcell. simpl in Hcell. by apply Z.leb_le.
Qed.

Lemma valid_anchor_is_background_witness :
  ∃ mask,
    valid_locations pick_first block_img pattern_2x2
      (config "bounding_boxes" 0 0) true (Uniform false) = Ok mask
    ∧ at3 mask 0 0 0 = true
    ∧ at3 block_img 0 0 0 ≤ 0.
Proof.
  assert (∃ m, valid_locations pick_first block_img pattern_2x2
                 (config "bounding_boxes" 0 0) true (Uniform false) = Ok m
               ∧ at3 m 0 0 0 = true) as (m & Hm & Hcell)
    by (eexists; split; reflexivity).
  exists m. split; [exact Hm|]. split; [exact Hcell|].
  apply (valid_anchor_is_background pick_first block_img pattern_2x2
           (config "bounding_boxes" 0 0) true (Uniform false) m 0%nat 0 0 0 Hm);
    [simpl; lia|reflexivity|reflexivity|exact Hcell].
Defined.

(** X8.  The perimeter walk ends for every working mask, pattern size, image
    extent, edge list and pop order, and what it returns is the working mask
    with some cells cleared: it never sets a cell and never changes the
    shape. *)
Theorem edge_tracing_terminates pick (p_rows p_cols i_rows i_cols : Z)
    (mask : ndarray2 bool) (edge_pixels : list (Z * Z)) :
  ∃ mask',
    edge_tracing pick p_rows p_cols i_rows i_cols mask edge_pixels = Some mask'
    ∧ nrows mask' = nrows mask ∧ ncols mask' = ncols mask
    ∧ ∀ r c, at2 mask' r c = true → at2 mask r c = true.
Proof.
  unfold edge_tracing.
  destruct (edge_tracing_loop_below pick
              (size (list_to_set edge_pixels : gset (Z * Z)))
              p_rows p_cols i_rows i_cols mask (list_to_set edge_pixels))
    as (mask' & Heq & Hb); [done|].
  exists mask'. split; [done|]. exact Hb.
Qed.

(** ** Bounding boxes *)

Lemma filter_seqZ_sorted (P : Z → Prop) `{!∀ x, Decision (P x)} (m : Z) (n : nat) :
  StronglySorted Z.lt (filter P (seqZ m (Z.of_nat n))).
Proof.
  revert m. induction n as [|n IH]; intros m.
  - simpl. constructor.
  - rewrite seqZ_cons by lia.
    replace (Z.pred (Z.of_nat (S n))) with (Z.of_nat n) by lia.
    rewrite filter_cons. destruct (decide (P m)); [|apply IH].
    constructor; [apply IH|].
    apply Forall_forall. intros y Hy.
    apply list_elem_of_filter in Hy as [_ Hy]. apply elem_of_seqZ in Hy. lia.
Qed.

Lemma last_default_irrelevant (l : list Z) (d d' : Z) :
  l ≠ [] → List.last l d = List.last l d'.
Proof.
  induction l as [|a [|b l] IH]; intros Hne; [done|done|].
  change (List.last (b :: l) d = List.last (b :: l) d'). by apply IH.
Qed.

Lemma last_cons_default (a : Z) (l : list Z) (d : Z) :
  List.last (a :: l) d = List.last l a.
Proof.
  destruct l as [|b l]; [done|].
  change (List.last (b :: l) d = List.last (b :: l) a).
  by apply last_default_irrelevant.
Qed.

Lemma last_in_list (x : Z) (rest : list Z) : List.last rest x ∈ x :: rest.
Proof.
  revert x. induction rest as [|a rest IH]; intros x.
  - by left.
  - rewrite last_cons_default. right. apply IH.
Qed.

(** In an increasing list the head is the least and the last the greatest
    element. *)
Lemma sorted_head_last (x : Z) (rest : list Z) (y : Z) :
  StronglySorted Z.lt (x :: rest) → y ∈ x :: rest →
  x ≤ y ≤ List.last rest x.
Proof.
  revert x y. induction rest as [|a rest IH]; intros x y Hs Hy.
  - apply list_elem_of_singleton in Hy as ->. simpl. lia.
  - apply StronglySorted_inv in Hs as [Hs Hall].
    rewrite last_cons_default.
    assert (x < a) as Hxa.
    { apply Forall_forall with (x := a) in Hall; [done|by left]. }
    assert (a ≤ List.last rest a) as Hlast.
    { apply (IH a a); [done|by left]. }
    apply elem_of_cons in Hy as [->|Hy]; [lia|].
    specialize (IH a y Hs Hy). lia.
Qed.

Lemma elem_of_row_bounds (img : ndarray2 bool) (i : Z) :
  i ∈ row_bounds img ↔
  0 ≤ i < Z.of_nat (nrows img)
  ∧ ∃ j, 0 ≤ j < Z.of_nat (ncols img) ∧ at2 img i j = true.
Proof.
  unfold row_bounds. rewrite list_elem_of_filter, elem_of_seqZ, existsb_exists.
  split.
  - intros [(j & Hj & Hv) Hi]. split; [lia|]. exists j. split; [|done].
    apply list_elem_of_In, elem_of_seqZ in Hj. lia.
  - intros [Hi (j & Hj & Hv)]. split; [|lia]. exists j. split; [|done].
    apply list_elem_of_In, elem_of_seqZ. lia.
Qed.

Lemma elem_of_col_bounds (img : ndarray2 bool) (j : Z) :
  j ∈ col_bounds img ↔
  0 ≤ j < Z.of_nat (ncols img)
  ∧ ∃ i, 0 ≤ i < Z.of_nat (nrows img) ∧ at2 img i j = true.
Proof.
  unfold col_bounds. rewrite list_elem_of_filter, elem_of_seqZ, existsb_exists.
  split.
  - intros [(i & Hi & Hv) Hj]. split; [lia|]. exists i. split; [|done].
    apply list_elem_of_In, elem_of_seqZ in Hi. lia.
  - intros [Hj (i & Hi & Hv)]. split; [|lia]. exists i. split; [|done].
    apply list_elem_of_In, elem_of_seqZ. lia.
Qed.

(** A true cell puts its row and its column in the bound lists, and lies
    between their first and last entries. *)
Lemma bounds_contain_cell (img : ndarray2 bool) (i j : Z) :
  0 ≤ i < Z.of_nat (nrows img) → 0 ≤ j < Z.of_nat (ncols img) →
  at2 img i j = true →
  ∃ top rows left_ cols,
    row_bounds img = top :: rows ∧ col_bounds img = left_ :: cols
    ∧ top ≤ i ≤ List.last rows top ∧ left_ ≤ j ≤ List.last cols left_.
Proof.
  intros Hi Hj Hv.
  assert (i ∈ row_bounds img) as Hri by (apply elem_of_row_bounds; eauto).
  assert (j ∈ col_bounds img) as Hcj by (apply elem_of_col_bounds; eauto).
  pose proof (filter_seqZ_sorted
                (λ i, existsb (λ j, at2 img i j)
                        (seqZ 0 (Z.of_nat (ncols img))) = true)
                0 (nrows img)) as Hrs.
  pose proof (filter_seqZ_sorted
                (λ j, existsb (λ i, at2 img i j)
                        (seqZ 0 (Z.of_nat (nrows img))) = true)
                0 (ncols img)) as Hcs.
  fold (row_bounds img) in Hrs. fold (col_bounds img) in Hcs.
  destruct (row_bounds img) as [|top rows]; [by apply elem_of_nil in Hri|].
  destruct (col_bounds img) as [|left_ cols]; [by apply elem_of_nil in Hcj|].
  exists top, rows, left_, cols. split; [done|]. split; [done|].
  split; by apply sorted_head_last.
Qed.

(** The box returned by [_get_bounding_box] holds every true cell. *)
Lemma bounding_box_contains (img : ndarray2 bool) (i j : Z) :
  0 ≤ i < Z.of_nat (nrows img) → 0 ≤ j < Z.of_nat (ncols img) →
  at2 img i j = true →
  ∃ x y w h,
    _get_bounding_box img = Some (x, y, w, h)
    ∧ y ≤ i < y + h ∧ x ≤ j < x + w.
Proof.
  intros Hi Hj Hv.
  destruct (bounds_contain_cell img i j Hi Hj Hv)
    as (top & rows & left_ & cols & Hr & Hc & Hib & Hjb).
  unfold _get_bounding_box. rewrite Hr, Hc.
  eexists _, _, _, _. split; [done|]. lia.
Qed.

(** X9.  [_get_bounding_box] returns nothing exactly when the array has no
    true cell.  Otherwise it returns a box (left, top, width, height) inside
    the array that holds every true cell and is tight: its first and last
    row and its first and last column each hold a true cell. *)
Theorem _get_bounding_box_tight (img : ndarray2 bool) :
  match _get_bounding_box img with
  | None =>
      ∀ i j, 0 ≤ i < Z.of_nat (nrows img) → 0 ≤ j < Z.of_nat (ncols img) →
             at2 img i j = false
  | Some (x, y, w, h) =>
      (0 ≤ x ∧ 1 ≤ w ∧ x + w ≤ Z.of_nat (ncols img))
      ∧ (0 ≤ y ∧ 1 ≤ h ∧ y + h ≤ Z.of_nat (nrows img))
      ∧ (∀ i j, 0 ≤ i < Z.of_nat (nrows img) → 0 ≤ j < Z.of_nat (ncols img) →
                at2 img i j = true → y ≤ i < y + h ∧ x ≤ j < x + w)
      ∧ (∃ j, 0 ≤ j < Z.of_nat (ncols img) ∧ at2 img y j = true)
      ∧ (∃ j, 0 ≤ j < Z.of_nat (ncols img) ∧ at2 img (y + h - 1) j = true)
      ∧ (∃ i, 0 ≤ i < Z.of_nat (nrows img) ∧ at2 img i x = true)
      ∧ (∃ i, 0 ≤ i < Z.of_nat (nrows img) ∧ at2 img i (x + w - 1) = true)
  end.
Proof.
  destruct (_get_bounding_box img) as [[[[x y] w] h]|] eqn:Hbox.
  - unfold _get_bounding_box in Hbox.
    destruct (row_bounds img) as [|top rows] eqn:Hr; [done|].
    destruct (col_bounds img) as [|left_ cols] eqn:Hc; [done|].
    injection Hbox as <- <- <- <-.
    assert (top ∈ row_bounds img) as Htop by (rewrite Hr; by left).
    assert (List.last rows top ∈ row_bounds img) as Hbot
      by (rewrite Hr; apply last_in_list).
    assert (left_ ∈ col_bounds img) as Hleft by (rewrite Hc; by left).
    assert (List.last cols left_ ∈ col_bounds img) as Hright
      by (rewrite Hc; apply last_in_list).
    apply elem_of_row_bounds in Htop as [Ht1 Ht2].
    apply elem_of_row_bounds in Hbot as [Hb1 Hb2].
    apply elem_of_col_bounds in Hleft as [Hl1 Hl2].
    apply elem_of_col_bounds in Hright as [Hr1 Hr2].
    assert (top ≤ List.last rows top ∧ left_ ≤ List.last cols left_) as [Htb Hlr].
    { destruct Ht2 as (j & Hj & Hv).
      destruct (bounds_contain_cell img top j Ht1 Hj Hv)
        as (top' & rows' & left' & cols' & Hr' & Hc' & Hib & Hjb).
      rewrite Hr in Hr'. rewrite Hc in Hc'.
      injection Hr' as <- <-. injection Hc' as <- <-. lia. }
    split; [lia|]. split; [lia|]. split.
    { intros i j Hi Hj Hv.
      destruct (bounds_contain_cell img i j Hi Hj Hv)
        as (top' & rows' & left' & cols' & Hr' & Hc' & Hib & Hjb).
      rewrite Hr in Hr'. rewrite Hc in Hc'.
      injection Hr' as <- <-. injection Hc' as <- <-. lia. }
    split; [done|]. split.
    { by replace (top + (List.last rows top - top + 1) - 1)
        with (List.last rows top) by lia. }
    split; [done|].
    by replace (left_ + (List.last cols left_ - left_ + 1) - 1)
      with (List.last cols left_) by lia.
  - intros i j Hi Hj. destruct (at2 img i j) eqn:Hv; [|done].
    destruct (bounding_box_contains img i j Hi Hj Hv) as (x & y & w & h & Heq & _).
    congruence.
Qed.

(** The grid lines [(i * n) // num_boxes] stay inside the extent. *)
Lemma grid_line_range (num_boxes n i : Z) :
  1 ≤ num_boxes → 0 ≤ n → 0 ≤ i ≤ num_boxes →
  0 ≤ (i * n) `div` num_boxes ≤ n.
Proof.
  intros HN Hn Hi. split.
  - apply Z.div_pos; nia.
  - apply Z.div_le_upper_bound; nia.
Qed.

(** Every index of the extent falls in one grid cell. *)
Lemma grid_cell_exists (num_boxes n p : Z) :
  1 ≤ num_boxes → 0 ≤ p < n →
  ∃ i, 0 ≤ i < num_boxes
       ∧ (i * n) `div` num_boxes ≤ p < ((i + 1) * n) `div` num_boxes.
Proof.
  intros HN Hp.
  assert (∀ k : nat, Z.of_nat k ≤ num_boxes →
            p < (Z.of_nat k * n) `div` num_boxes →
            ∃ i, 0 ≤ i < Z.of_nat k
                 ∧ (i * n) `div` num_boxes ≤ p < ((i + 1) * n) `div` num_boxes)
    as Haux.
  { induction k as [|k IH]; intros Hk Hlt.
    - simpl in Hlt. rewrite Z.div_0_l in Hlt by lia. lia.
    - destruct (Z.lt_ge_cases p ((Z.of_nat k * n) `div` num_boxes)) as [Hl|Hg].
      + destruct (IH ltac:(lia) Hl) as (i & Hi & Hcell).
        exists i. split; [lia|done].
      + exists (Z.of_nat k). split; [lia|].
        replace (Z.of_nat k + 1) with (Z.of_nat (S k)) by lia. lia. }
  destruct (Haux (Z.to_nat num_boxes)) as (i & Hi & Hcell).
  - lia.
  - rewrite Z2Nat.id by lia. rewrite Z.mul_comm, Z.div_mul by lia. lia.
  - exists i. split; [lia|done].
Qed.

(** A cell cleared by one step of a fold of clearing steps stays cleared. *)
Lemma foldl_clears {A} (f : ndarray2 bool → A → ndarray2 bool) (l : list A)
    (m0 m : ndarray2 bool) (x0 : A) (r c : Z) :
  (∀ m x, below (f m x) m) →
  x0 ∈ l →
  (∀ m, below m m0 → at2 (f m x0) r c = false) →
  below m m0 →
  at2 (foldl f m l) r c = false.
Proof.
  intros Hf Hin Hx0. revert m. induction l as [|x l IH]; intros m Hm.
  - by apply elem_of_nil in Hin.
  - simpl. apply elem_of_cons in Hin as [<-|Hin].
    + destruct (below_foldl f l (f m x0) Hf) as (_ & _ & Hb).
      apply not_true_iff_false. intros Ht. apply Hb in Ht.
      rewrite Hx0 in Ht by done. done.
    + apply IH; [done|]. eapply below_trans; [apply Hf|done].
Qed.

(** One grid cell of [bounding_boxes]: an anchor that covers a foreground
    pixel of the cell is cleared. *)
Lemma bounding_box_step_clears (p_rows p_cols top bottom left_ right_ : Z)
    (img_mask m : ndarray2 bool) (pi pj r c : Z) :
  0 ≤ top ≤ bottom → bottom ≤ Z.of_nat (nrows img_mask) →
  0 ≤ left_ ≤ right_ → right_ ≤ Z.of_nat (ncols img_mask) →
  top ≤ pi < bottom → left_ ≤ pj < right_ →
  at2 img_mask pi pj = true →
  covers p_rows p_cols (pi, pj) r c →
  0 ≤ r < Z.of_nat (nrows m) → 0 ≤ c < Z.of_nat (ncols m) →
  at2 (match _get_bounding_box (view2 img_mask top bottom left_ right_) with
       | Some (x, y, w, h) =>
           assign_slice m (Z.max 0 (top + y - p_rows + 1)) (top + y + h)
             (Z.max 0 (left_ + x - p_cols + 1)) (left_ + x + w) false
       | None => m
       end) r c = false.
Proof.
  intros Htb Hb Hlr Hrt Hpi Hpj Hfg Hcov Hr Hc.
  unfold covers in Hcov; cbn [fst snd] in Hcov.
  destruct (bounding_box_contains (view2 img_mask top bottom left_ right_)
              (pi - top) (pj - left_)) as (x & y & w & h & -> & Hy & Hx).
  - unfold view2; simpl. rewrite !slice_bound_nonneg by lia. lia.
  - unfold view2; simpl. rewrite !slice_bound_nonneg by lia. lia.
  - unfold view2; simpl. rewrite !slice_bound_nonneg by lia.
    rewrite !Z.min_l by lia.
    by replace (top + (pi - top)) with pi by lia;
       replace (left_ + (pj - left_)) with pj by lia.
  - apply not_true_iff_false. rewrite at2_assign_slice_false by lia. lia.
Qed.

(** [bounding_boxes] clears every anchor that covers a foreground pixel. *)
Lemma bounding_boxes_clears (num_boxes p_rows p_cols : Z)
    (img_mask mask : ndarray2 bool) (pi pj r c : Z) :
  1 ≤ num_boxes →
  nrows mask = nrows img_mask → ncols mask = ncols img_mask →
  0 ≤ pi < Z.of_nat (nrows img_mask) → 0 ≤ pj < Z.of_nat (ncols img_mask) →
  at2 img_mask pi pj = true →
  covers p_rows p_cols (pi, pj) r c →
  0 ≤ r < Z.of_nat (nrows mask) → 0 ≤ c < Z.of_nat (ncols mask) →
  at2 (bounding_boxes num_boxes p_rows p_cols
         (Z.of_nat (nrows img_mask)) (Z.of_nat (ncols img_mask))
         img_mask mask) r c = false.
Proof.
  intros HN Hnr Hnc Hpi Hpj Hfg Hcov Hr Hc.
  destruct (grid_cell_exists num_boxes (Z.of_nat (nrows img_mask)) pi HN Hpi)
    as (i0 & Hi0 & Hrow).
  destruct (grid_cell_exists num_boxes (Z.of_nat (ncols img_mask)) pj HN Hpj)
    as (j0 & Hj0 & Hcol).
  pose proof (grid_line_range num_boxes (Z.of_nat (nrows img_mask)) i0
                HN ltac:(lia) ltac:(lia)) as Ht.
  pose proof (grid_line_range num_boxes (Z.of_nat (nrows img_mask)) (i0 + 1)
                HN ltac:(lia) ltac:(lia)) as Hb.
  pose proof (grid_line_range num_boxes (Z.of_nat (ncols img_mask)) j0
                HN ltac:(lia) ltac:(lia)) as Hl.
  pose proof (grid_line_range num_boxes (Z.of_nat (ncols img_mask)) (j0 + 1)
                HN ltac:(lia) ltac:(lia)) as Hrt.
  unfold bounding_boxes.
  apply (foldl_clears _ _ mask mask i0).
  - intros m i. apply below_foldl. intros m' j.
    destruct (_get_bounding_box _) as [[[[x y] w] h]|];
      [apply below_assign_slice|apply below_refl].
  - apply elem_of_seqZ. lia.
  - intros m Hm. apply (foldl_clears _ _ mask m j0).
    + intros m' j. destruct (_get_bounding_box _) as [[[[x y] w] h]|];
        [apply below_assign_slice|apply below_refl].
    + apply elem_of_seqZ. lia.
    + intros m' (Hr' & Hc' & _).
      apply (bounding_box_step_clears p_rows p_cols _ _ _ _ img_mask m' pi pj);
        try done; try lia.
    + done.
  - apply below_refl.
Qed.

(** X10.  Under [bounding_boxes] with at least one box per side, for a
    pattern with at least one row and column and at most one more than the
    image, a true cell of a channel that does not allow overlap marks an
    anchor whose pattern stays inside the image and covers only pixels that
    are at most [min_val]: the coarse strategy never accepts an anchor that
    [brute_force] rejects. *)
Theorem bounding_boxes_mask_sound pick (img pattern : ndarray3 Z)
    (algo_config : InsertAtRandomLocationConfig)
    (allow_overlap : per_channel bool) (mask : ndarray3 bool)
    (k : nat) (mv r c : Z) :
  algorithm algo_config = "bounding_boxes" → 1 ≤ num_boxes algo_config →
  valid_locations pick img pattern algo_config true allow_overlap = Ok mask →
  (k < dim_chans img)%nat →
  broadcast allow_overlap (dim_chans img) !! k = Some false →
  resolve (min_val algo_config) (dim_chans img) k = Ok mv →
  (1 ≤ dim_rows pattern ≤ dim_rows img + 1)%nat →
  (1 ≤ dim_cols pattern ≤ dim_cols img + 1)%nat →
  0 ≤ r < Z.of_nat (dim_rows img) → 0 ≤ c < Z.of_nat (dim_cols img) →
  at3 mask r c k = true →
  r + Z.of_nat (dim_rows pattern) ≤ Z.of_nat (dim_rows img)
  ∧ c + Z.of_nat (dim_cols pattern) ≤ Z.of_nat (dim_cols img)
  ∧ ∀ i j, r ≤ i < r + Z.of_nat (dim_rows pattern) →
           c ≤ j < c + Z.of_nat (dim_cols pattern) →
           at3 img i j k ≤ mv.
Proof.
  intros Halg HN Hv Hk Hao Hres Hpr Hpc Hr Hc Hcell.
  apply valid_locations_ok in Hv as (_ & _ & Hchan). specialize (Hchan k Hk).
  rewrite Hao in Hchan. destruct Hchan as (_ & mk & Hmk & Heq).
  rewrite Heq in Hcell.
  assert (r + Z.of_nat (dim_rows pattern) ≤ Z.of_nat (dim_rows img)
          ∧ c + Z.of_nat (dim_cols pattern) ≤ Z.of_nat (dim_cols img))
    as [Hrb Hcb].
  { apply (channel_mask_bounds pick algo_config (dim_chans img) k
             (channel img k) (channel pattern k) mk r c); simpl; try done; lia. }
  split; [done|]. split; [done|]. intros i j Hi Hj.
  destruct (Z.le_gt_cases (at3 img i j k) mv) as [|Hgt]; [done|]. exfalso.
  unfold channel_mask in Hmk. rewrite Hres in Hmk. simpl in Hmk.
  unfold apply_algorithm in Hmk. rewrite Halg in Hmk. simpl in Hmk.
  injection Hmk as <-.
  assert (at2
            (bounding_boxes (num_boxes algo_config) (Z.of_nat (dim_rows pattern))
               (Z.of_nat (dim_cols pattern)) (Z.of_nat (dim_rows img))
               (Z.of_nat (dim_cols img))
               (logical_not (le_scalar (channel img k) mv))
               (remove_boundaries (Z.of_nat (dim_rows pattern))
                  (Z.of_nat (dim_cols pattern)) (le_scalar (channel img k) mv)))
            r c = false) as Hfalse; [|congruence].
  apply (bounding_boxes_clears (num_boxes algo_config)
           (Z.of_nat (dim_rows pattern)) (Z.of_nat (dim_cols pattern))
           (logical_not (le_scalar (channel img k) mv))
           (remove_boundaries (Z.of_nat (dim_rows pattern))
              (Z.of_nat (dim_cols pattern)) (le_scalar (channel img k) mv))
           i j r c); try done.
  - simpl. lia.
  - simpl. lia.
  - simpl. apply negb_true_iff, Z.leb_gt. lia.
  - unfold covers; cbn [fst snd]. lia.
Qed.

Lemma bounding_boxes_mask_sound_witness :
  ∃ mask,
    valid_locations pick_first block_img pattern_2x2
      (config "bounding_boxes" 0 0) true (Uniform false) = Ok mask
    ∧ at3 mask 5 5 0 = true
    ∧ 5 + 2 ≤ 10 ∧ 5 + 2 ≤ 10
    ∧ ∀ i j, 5 ≤ i < 5 + 2 → 5 ≤ j < 5 + 2 → at3 block_img i j 0 ≤ 0.
Proof.
  assert (∃ m, valid_locations pick_first block_img pattern_2x2
                 (config "bounding_boxes" 0 0) true (Uniform false) = Ok m
               ∧ at3 m 5 5 0 = true) as (m & Hm & Hcell)
    by (eexists; split; reflexivity).
  exists m. split; [exact Hm|]. split; [exact Hcell|].
  apply (bounding_boxes_mask_sound pick_first block_img pattern_2x2
           (config "bounding_boxes" 0 0) (Uniform false) m 0%nat 0 5 5);
    try reflexivity; try exact Hm; try exact Hcell; simpl; lia.
Defined.

(** ** Channels without foreground, border pixels *)

Lemma slice_bound_range (n x : Z) : 0 ≤ n → 0 ≤ slice_bound n x ≤ n.
Proof. unfold slice_bound. destruct (Z.ltb_spec x 0); lia. Qed.

Lemma padded_true (a : ndarray2 bool) (i j : Z) :
  padded a i j = true →
  0 ≤ i < Z.of_nat (nrows a) ∧ 0 ≤ j < Z.of_nat (ncols a) ∧ at2 a i j = true.
Proof.
  unfold padded.
  destruct (Z.leb_spec 0 i), (Z.ltb_spec i (Z.of_nat (nrows a))),
    (Z.leb_spec 0 j), (Z.ltb_spec j (Z.of_nat (ncols a))); simpl; done.
Qed.

Lemma padded_outside (a : ndarray2 bool) (i j : Z) :
  ¬ (0 ≤ i < Z.of_nat (nrows a) ∧ 0 ≤ j < Z.of_nat (ncols a)) →
  padded a i j = false.
Proof.
  intros Hout. destruct (padded a i j) eqn:Hp; [|done].
  apply padded_true in Hp. tauto.
Qed.

(** Above every foreground pixel, in its column, sits an edge pixel. *)
Lemma foreground_has_edge_pixel (img_mask : ndarray2 bool) (i j : Z) :
  0 ≤ i < Z.of_nat (nrows img_mask) → 0 ≤ j < Z.of_nat (ncols img_mask) →
  at2 img_mask i j = true →
  ∃ x, 0 ≤ x ≤ i ∧ (x, j) ∈ edge_pixel_coords img_mask.
Proof.
  intros Hi Hj Hfg.
  destruct (crossing_between (λ x, padded img_mask x j) (-1) i)
    as (x & Hx & H1 & H2).
  - lia.
  - apply padded_outside. lia.
  - by rewrite padded_in_range.
  - apply padded_true in H2 as (Hxi & _ & Hv).
    exists x. split; [lia|].
    apply elem_of_edge_pixel_coords. split; [done|]. split; [done|].
    split; [done|]. exists (-1), 0. split; [lia|]. split; [lia|].
    by replace (x + -1) with (x - 1) by lia; replace (j + 0) with j by lia.
Qed.

(** X11.  The list of edge pixels is empty exactly when the channel has no
    foreground pixel: any foreground at all yields an edge pixel. *)
Theorem edge_pixels_empty_iff (img_mask : ndarray2 bool) :
  edge_pixel_coords img_mask = [] ↔
  ∀ i j, 0 ≤ i < Z.of_nat (nrows img_mask) →
         0 ≤ j < Z.of_nat (ncols img_mask) → at2 img_mask i j = false.
Proof.
  split.
  - intros Hnil i j Hi Hj. destruct (at2 img_mask i j) eqn:Hv; [|done].
    destruct (foreground_has_edge_pixel img_mask i j Hi Hj Hv) as (x & _ & Hin).
    rewrite Hnil in Hin. by apply elem_of_nil in Hin.
  - intros Hall. destruct (edge_pixel_coords img_mask) as [|[i j] l] eqn:Hl;
      [done|].
    assert ((i, j) ∈ edge_pixel_coords img_mask) as Hin by (rewrite Hl; by left).
    apply elem_of_edge_pixel_coords in Hin as (Hi & Hj & Hv & _).
    rewrite Hall in Hv by done. done.
Qed.

(** X12.  A foreground pixel on the first or last row or column of the
    channel is an edge pixel, whatever its neighbours inside the array. *)
Theorem border_foreground_is_edge (img_mask : ndarray2 bool) (i j : Z) :
  0 ≤ i < Z.of_nat (nrows img_mask) → 0 ≤ j < Z.of_nat (ncols img_mask) →
  at2 img_mask i j = true →
  i = 0 ∨ i = Z.of_nat (nrows img_mask) - 1
  ∨ j = 0 ∨ j = Z.of_nat (ncols img_mask) - 1 →
  (i, j) ∈ edge_pixel_coords img_mask.
Proof.
  intros Hi Hj Hfg Hborder.
  apply elem_of_edge_pixel_coords. split; [done|]. split; [done|].
  split; [done|].
  destruct Hborder as [-> | [-> | [-> | ->]]].
  - exists (-1), 0. split; [lia|]. split; [lia|]. apply padded_outside. lia.
  - exists 1, 0. split; [lia|]. split; [lia|]. apply padded_outside. lia.
  - exists 0, (-1). split; [lia|]. split; [lia|]. apply padded_outside. lia.
  - exists 0, 1. split; [lia|]. split; [lia|]. apply padded_outside. lia.
Qed.

Lemma border_foreground_is_edge_witness :
  (0, 1) ∈ edge_pixel_coords
             (logical_not (le_scalar (channel two_pixel_img 0) 0)).
Proof.
  apply (border_foreground_is_edge
           (logical_not (le_scalar (channel two_pixel_img 0) 0)) 0 1).
  - simpl. lia.
  - simpl. lia.
  - reflexivity.
  - by left.
Defined.

Lemma bounding_box_none (img : ndarray2 bool) :
  (∀ i j, 0 ≤ i < Z.of_nat (nrows img) → 0 ≤ j < Z.of_nat (ncols img) →
          at2 img i j = false) →
  _get_bounding_box img = None.
Proof.
  intros Hall. unfold _get_bounding_box.
  destruct (row_bounds img) as [|top rows] eqn:Hr; [done|].
  assert (top ∈ row_bounds img) as Hin by (rewrite Hr; by left).
  apply elem_of_row_bounds in Hin as (Hi & j & Hj & Hv).
  rewrite Hall in Hv by done. done.
Qed.

Lemma foldl_id {A B} (f : A → B → A) (l : list B) (a : A) :
  (∀ a x, f a x = a) → foldl f a l = a.
Proof.
  intros Hf. induction l as [|x l IH]; [done|]. simpl. by rewrite Hf.
Qed.

(** Without foreground [bounding_boxes] finds no box and writes nothing. *)
Lemma bounding_boxes_no_foreground (num_boxes p_rows p_cols i_rows i_cols : Z)
    (img_mask mask : ndarray2 bool) :
  (∀ i j, 0 ≤ i < Z.of_nat (nrows img_mask) →
          0 ≤ j < Z.of_nat (ncols img_mask) → at2 img_mask i j = false) →
  bounding_boxes num_boxes p_rows p_cols i_rows i_cols img_mask mask = mask.
Proof.
  intros Hall. unfold bounding_boxes.
  apply foldl_id. intros m i. apply foldl_id. intros m' j.
  rewrite bounding_box_none; [done|].
  intros u v Hu Hv. unfold view2 in *; simpl in *.
  pose proof (slice_bound_range (Z.of_nat (nrows img_mask))
                ((i * i_rows) `div` num_boxes) ltac:(lia)).
  pose proof (slice_bound_range (Z.of_nat (nrows img_mask))
                (((i + 1) * i_rows) `div` num_boxes) ltac:(lia)).
  pose proof (slice_bound_range (Z.of_nat (ncols img_mask))
                ((j * i_cols) `div` num_boxes) ltac:(lia)).
  pose proof (slice_bound_range (Z.of_nat (ncols img_mask))
                (((j + 1) * i_cols) `div` num_boxes) ltac:(lia)).
  apply Hall; lia.
Qed.

(** On a channel without foreground every algorithm leaves the working mask
    as it is. *)
Lemma apply_algorithm_no_foreground pick algo_config num_chans chan_idx
    chan_img p_rows p_cols (img_mask mask mask' : ndarray2 bool) :
  (∀ i j, 0 ≤ i < Z.of_nat (nrows img_mask) →
          0 ≤ j < Z.of_nat (ncols img_mask) → at2 img_mask i j = false) →
  apply_algorithm pick algo_config num_chans chan_idx chan_img p_rows p_cols
    img_mask mask = Ok mask' →
  ∀ r c, at2 mask' r c = at2 mask r c.
Proof.
  intros Hall. unfold apply_algorithm.
  assert (edge_pixel_coords img_mask = []) as ->.
  { destruct (edge_pixel_coords img_mask) as [|[i j] l] eqn:Hl; [done|].
    assert ((i, j) ∈ edge_pixel_coords img_mask) as Hin by (rewrite Hl; by left).
    apply elem_of_edge_pixel_coords in Hin as (Hi & Hj & Hv & _).
    rewrite Hall in Hv by done. done. }
  destruct (String.eqb _ "edge_tracing").
  { unfold edge_tracing. simpl list_to_set.
    rewrite edge_tracing_loop_stop by apply elements_empty.
    by intros [= <-]. }
  destruct (String.eqb _ "brute_force"); [by intros [= <-]|].
  destruct (String.eqb _ "threshold").
  { destruct (resolve _ _ _) as [tv|e]; simpl; [|done].
    intros [= <-]. apply threshold_pass_nonzero. }
  destruct (String.eqb _ "bounding_boxes").
  { rewrite bounding_boxes_no_foreground by done. by intros [= <-]. }
  by intros [= <-].
Qed.

(** X13.  If no pixel of a channel exceeds [min_val], then for every
    algorithm tag and every pattern with at most one row and one column more
    than the image, the channel's cell is true exactly for the anchors at
    which the pattern stays inside the image. *)
Theorem background_channel_mask pick (img pattern : ndarray3 Z)
    (algo_config : InsertAtRandomLocationConfig)
    (allow_overlap : per_channel bool) (mask : ndarray3 bool)
    (k : nat) (mv r c : Z) :
  valid_locations pick img pattern algo_config true allow_overlap = Ok mask →
  (k < dim_chans img)%nat →
  broadcast allow_overlap (dim_chans img) !! k = Some false →
  resolve (min_val algo_config) (dim_chans img) k = Ok mv →
  (∀ i j, 0 ≤ i < Z.of_nat (dim_rows img) → 0 ≤ j < Z.of_nat (dim_cols img) →
          at3 img i j k ≤ mv) →
  (dim_rows pattern ≤ dim_rows img + 1)%nat →
  (dim_cols pattern ≤ dim_cols img + 1)%nat →
  0 ≤ r < Z.of_nat (dim_rows img) → 0 ≤ c < Z.of_nat (dim_cols img) →
  at3 mask r c k = true ↔
  r + Z.of_nat (dim_rows pattern) ≤ Z.of_nat (dim_rows img)
  ∧ c + Z.of_nat (dim_cols pattern) ≤ Z.of_nat (dim_cols img).
Proof.
  intros Hv Hk Hao Hres Hbg Hpr Hpc Hr Hc.
  apply valid_locations_ok in Hv as (_ & _ & Hchan). specialize (Hchan k Hk).
  rewrite Hao in Hchan. destruct Hchan as (_ & mk & Hmk & ->).
  unfold channel_mask in Hmk. rewrite Hres in Hmk. simpl in Hmk.
  assert (∀ i j,
            0 ≤ i < Z.of_nat (nrows (logical_not (le_scalar (channel img k) mv))) →
            0 ≤ j < Z.of_nat (ncols (logical_not (le_scalar (channel img k) mv))) →
            at2 (logical_not (le_scalar (channel img k) mv)) i j = false)
    as Hnofg.
  { intros i j Hi Hj. simpl in *. apply negb_false_iff, Z.leb_le.
    by apply Hbg. }
  rewrite (apply_algorithm_no_foreground _ _ _ _ _ _ _ _ _ _ Hnofg Hmk).
  rewrite remove_boundaries_true by (simpl; lia). simpl.
  rewrite Z.leb_le. specialize (Hbg r c Hr Hc). tauto.
Qed.

Lemma background_channel_mask_witness :
  ∃ mask,
    valid_locations pick_first short_img pattern_2x2
      (config "edge_tracing" 0 0) true (Uniform false) = Ok mask
    ∧ (at3 mask 1 0 0 = true ↔ 1 + 2 ≤ 3 ∧ 0 + 2 ≤ 1).
Proof.
  eexists. split; [reflexivity|].
  apply (background_channel_mask pick_first short_img pattern_2x2
           (config "edge_tracing" 0 0) (Uniform false) _ 0%nat 0 1 0);
    try reflexivity; simpl; lia.
Defined.

(** ** The two helpers of the walk, in full *)

Lemma edge_length_loop_full (fuel : nat) (ci cj di dj i_rows i_cols : Z)
    (s : gset (Z * Z)) (len : Z) :
  (size s ≤ fuel)%nat → di ≠ 0 ∨ dj ≠ 0 →
  ∃ L s',
    edge_length_loop fuel ci cj di dj i_rows i_cols s len = Some (len + L, s')
    ∧ 0 ≤ L ∧ (di ≠ 0 → dj ≠ 0 → L ≤ 1)
    ∧ (∀ t, 1 ≤ t ≤ L →
         (0 ≤ ci + t * di < i_rows ∧ 0 ≤ cj + t * dj < i_cols)
         ∧ (ci + t * di, cj + t * dj) ∈ s)
    ∧ (∀ p, p ∈ s' ↔
            p ∈ s ∧ ∀ t, 1 ≤ t ≤ L → p ≠ (ci + t * di, cj + t * dj))
    ∧ (di = 0 ∨ dj = 0 ∨ L = 0 →
       ¬ ((0 ≤ ci + (L + 1) * di < i_rows ∧ 0 ≤ cj + (L + 1) * dj < i_cols)
          ∧ (ci + (L + 1) * di, cj + (L + 1) * dj) ∈ s)).
Proof.
  intros Hfuel Hdir. revert ci cj s len Hfuel.
  induction fuel as [|fuel IH]; intros ci cj s len Hfuel.
  - assert (s = ∅) as -> by (apply leibniz_equiv, size_empty_iff; lia).
    exists 0, ∅. simpl.
    replace (bool_decide ((ci + di, cj + dj) ∈ (∅ : gset (Z * Z)))) with false
      by (symmetry; apply bool_decide_eq_false; set_solver).
    rewrite !andb_false_r, Z.add_0_r.
    split; [done|]. split; [lia|]. split; [lia|]. split; [intros; lia|].
    split; [intros p; split; [intros Hp; by apply not_elem_of_empty in Hp|
                              by intros [Hp _]]|].
    intros _ [_ Hin]. by apply not_elem_of_empty in Hin.
  - simpl.
    destruct ((0 <=? ci + di) && (ci + di <? i_rows) && (0 <=? cj + dj)
              && (cj + dj <? i_cols)
              && bool_decide ((ci + di, cj + dj) ∈ s)) eqn:Hguard.
    + rewrite !andb_true_iff, bool_decide_eq_true in Hguard.
      destruct Hguard as [[[[Hi0 Hi1] Hj0] Hj1] Hin].
      apply Z.leb_le in Hi0, Hj0. apply Z.ltb_lt in Hi1, Hj1.
      assert (size (s ∖ {[(ci + di, cj + dj)]}) = pred (size s)) as Hsize.
      { rewrite size_difference by set_solver. rewrite size_singleton. lia. }
      assert (size s ≠ 0%nat) as Hne.
      { intros H0. apply size_empty_iff in H0. set_solver. }
      destruct (negb (di =? 0) && negb (dj =? 0)) eqn:Hdiag.
      * exists 1, (s ∖ {[(ci + di, cj + dj)]}).
        apply andb_true_iff in Hdiag as [Hd1 Hd2].
        apply negb_true_iff, Z.eqb_neq in Hd1, Hd2.
        split; [done|]. split; [lia|]. split; [lia|]. split.
        { intros t Ht. assert (t = 1) as -> by lia. by rewrite !Z.mul_1_l. }
        split; [|lia].
        intros p. rewrite elem_of_difference, elem_of_singleton. split.
        -- intros [Hp Hnp]. split; [done|]. intros t Ht.
           assert (t = 1) as -> by lia. by rewrite !Z.mul_1_l.
        -- intros [Hp Hall]. split; [done|].
           specialize (Hall 1 ltac:(lia)). by rewrite !Z.mul_1_l in Hall.
      * assert (di = 0 ∨ dj = 0) as Horth.
        { apply andb_false_iff in Hdiag as [H|H];
            apply negb_false_iff, Z.eqb_eq in H; tauto. }
        destruct (IH (ci + di) (cj + dj) (s ∖ {[(ci + di, cj + dj)]}) (len + 1))
          as (L & s' & Heq & HL & Hd & Hrun & Hset & Hmax); [lia|].
        exists (1 + L), s'. rewrite Heq.
        split; [f_equal; f_equal; lia|]. split; [lia|].
        split; [intros; lia|]. split.
        { intros t Ht. destruct (decide (t = 1)) as [->|Hne1].
          - by rewrite !Z.mul_1_l.
          - destruct (Hrun (t - 1) ltac:(lia)) as [Hb Hm].
            replace (ci + di + (t - 1) * di) with (ci + t * di) in * by lia.
            replace (cj + dj + (t - 1) * dj) with (cj + t * dj) in * by lia.
            split; [done|]. set_solver. }
        split.
        { intros p. rewrite Hset, elem_of_difference, elem_of_singleton. split.
          - intros [[Hp Hnp] Hall]. split; [done|]. intros t Ht.
            destruct (decide (t = 1)) as [->|Hne1].
            + by rewrite !Z.mul_1_l.
            + specialize (Hall (t - 1) ltac:(lia)).
              replace (ci + di + (t - 1) * di) with (ci + t * di) in Hall by lia.
              by replace (cj + dj + (t - 1) * dj) with (cj + t * dj) in Hall by lia.
          - intros [Hp Hall]. split.
            + split; [done|]. specialize (Hall 1 ltac:(lia)).
              by rewrite !Z.mul_1_l in Hall.
            + intros t Ht. specialize (Hall (1 + t) ltac:(lia)).
              replace (ci + (1 + t) * di) with (ci + di + t * di) in Hall by lia.
              by replace (cj + (1 + t) * dj) with (cj + dj + t * dj) in Hall by lia. }
        intros _ [Hb Hm]. apply Hmax; [tauto|].
        replace (ci + di + (L + 1) * di) with (ci + (1 + L + 1) * di) by lia.
        replace (cj + dj + (L + 1) * dj) with (cj + (1 + L + 1) * dj) by lia.
        split; [done|].
        apply elem_of_difference. split; [done|].
        rewrite elem_of_singleton. intros [= H1 H2].
        assert ((1 + L) * di = 0) by lia. assert ((1 + L) * dj = 0) by lia.
        nia.
    + exists 0, s. rewrite Z.add_0_r.
      split; [done|]. split; [lia|]. split; [lia|]. split; [intros; lia|].
      split; [intros p; split; [intros Hp; split; [done|intros; lia]|
                                by intros [Hp _]]|].
      intros _ [[Hi Hj] Hin].
      replace ((0 + 1) * di) with di in Hi, Hin by lia.
      replace ((0 + 1) * dj) with dj in Hj, Hin by lia.
      assert ((0 <=? ci + di) && (ci + di <? i_rows) && (0 <=? cj + dj)
              && (cj + dj <? i_cols)
              && bool_decide ((ci + di, cj + dj) ∈ s) = true); [|congruence].
      rewrite !andb_true_iff, bool_decide_eq_true, !Z.leb_le, !Z.ltb_lt.
      repeat split; (lia || done).
Qed.

(** X14.  [_get_edge_length_in_direction] returns, for a direction other
    than (0, 0), a length [L >= 0] with: the [L] pixels of the run from the
    current position are inside the array and were in the set; exactly
    these pixels have left the set; a diagonal run has length at most 1; and
    a run along a row or column, or an empty run, is maximal (the next pixel
    is outside the array or not in the set). *)
Theorem _get_edge_length_in_direction_run (ci cj di dj i_rows i_cols : Z)
    (s : gset (Z * Z)) :
  di ≠ 0 ∨ dj ≠ 0 →
  ∃ L s',
    _get_edge_length_in_direction ci cj di dj i_rows i_cols s = Some (L, s')
    ∧ 0 ≤ L ∧ (di ≠ 0 → dj ≠ 0 → L ≤ 1)
    ∧ (∀ t, 1 ≤ t ≤ L →
         (0 ≤ ci + t * di < i_rows ∧ 0 ≤ cj + t * dj < i_cols)
         ∧ (ci + t * di, cj + t * dj) ∈ s)
    ∧ (∀ p, p ∈ s' ↔
            p ∈ s ∧ ∀ t, 1 ≤ t ≤ L → p ≠ (ci + t * di, cj + t * dj))
    ∧ (di = 0 ∨ dj = 0 ∨ L = 0 →
       ¬ ((0 ≤ ci + (L + 1) * di < i_rows ∧ 0 ≤ cj + (L + 1) * dj < i_cols)
          ∧ (ci + (L + 1) * di, cj + (L + 1) * dj) ∈ s)).
Proof.
  intros Hdir. unfold _get_edge_length_in_direction.
  destruct (edge_length_loop_full (size s) ci cj di dj i_rows i_cols s 0)
    as (L & s' & Heq & H); [done|done|].
  exists L, s'. rewrite Heq. split; [done|exact H].
Qed.

Lemma _get_edge_length_in_direction_run_witness :
  ∃ L s',
    _get_edge_length_in_direction 0 0 0 1 1 4 {[(0, 1); (0, 2)]} = Some (L, s')
    ∧ 0 ≤ L.
Proof.
  destruct (_get_edge_length_in_direction_run 0 0 0 1 1 4 {[(0, 1); (0, 2)]})
    as (L & s' & Heq & HL & _).
  - right. lia.
  - exists L, s'. split; [exact Heq|exact HL].
Defined.

Lemma next_edge_loop_full (dirs : list (Z * Z)) (ci cj i_rows i_cols : Z)
    (s : gset (Z * Z)) :
  Forall (λ d, d.1 ≠ 0 ∨ d.2 ≠ 0) dirs →
  ∃ move s',
    next_edge_loop dirs ci cj i_rows i_cols s = Some (move, s')
    ∧ match move with
      | None =>
          s' = s ∧ ∀ d, d ∈ dirs → ¬ neighbour_in i_rows i_cols s ci cj d
      | Some (ai, aj) =>
          ∃ pre d post L,
            dirs = pre ++ d :: post
            ∧ (∀ d', d' ∈ pre → ¬ neighbour_in i_rows i_cols s ci cj d')
            ∧ neighbour_in i_rows i_cols s ci cj d
            ∧ 1 ≤ L ∧ ai = d.1 * L ∧ aj = d.2 * L
            ∧ (∀ p, p ∈ s' ↔
                    p ∈ s ∧ ∀ t, 1 ≤ t ≤ L → p ≠ (ci + t * d.1, cj + t * d.2))
      end.
Proof.
  induction 1 as [|[di dj] dirs Hd Hdirs IH].
  - exists None, s. split; [done|]. split; [done|].
    intros d Hin. by apply elem_of_nil in Hin.
  - cbn [next_edge_loop]. unfold _get_edge_length_in_direction.
    destruct (edge_length_loop_full (size s) ci cj di dj i_rows i_cols s 0)
      as (L & s1 & Heq & HL & _ & Hrun & Hset & Hmax); [done|done|].
    rewrite Heq, Z.add_0_l.
    destruct (negb (L =? 0)) eqn:HL0.
    + apply negb_true_iff, Z.eqb_neq in HL0.
      exists (Some (di * L, dj * L)), s1. split; [done|].
      exists [], (di, dj), dirs, L. split; [done|].
      split; [intros d' Hin; by apply elem_of_nil in Hin|].
      split.
      { destruct (Hrun 1 ltac:(lia)) as [[Hi Hj] Hin].
        replace (1 * di) with di in Hi, Hin by lia.
        replace (1 * dj) with dj in Hj, Hin by lia.
        exact (conj (conj Hi Hj) Hin). }
      split; [lia|]. split; [done|]. split; [done|]. exact Hset.
    + apply negb_false_iff, Z.eqb_eq in HL0. subst L.
      assert (s1 = s) as ->.
      { apply leibniz_equiv. intros p. rewrite Hset. split.
        - by intros [Hp _].
        - intros Hp. split; [done|]. intros t Ht. lia. }
      assert (¬ neighbour_in i_rows i_cols s ci cj (di, dj)) as Hno.
      { unfold neighbour_in. cbn [fst snd]. intros [[Hi Hj] Hin].
        apply Hmax; [tauto|].
        replace ((0 + 1) * di) with di by lia.
        replace ((0 + 1) * dj) with dj by lia.
        exact (conj (conj Hi Hj) Hin). }
      destruct IH as (move & s' & Hloop & Hpost).
      exists move, s'. split; [done|].
      destruct move as [[ai aj]|].
      * destruct Hpost as (pre & d & post & L & -> & Hpre & Hrest).
        exists ((di, dj) :: pre), d, post, L. split; [done|].
        split; [|exact Hrest].
        intros d' [->|Hin]%elem_of_cons; [done|by apply Hpre].
      * destruct Hpost as [-> Hall]. split; [done|].
        intros d [->|Hin]%elem_of_cons; [done|by apply Hall].
Qed.

(** X15.  [_get_next_edge_from_pixel] always returns.  It returns [None]
    exactly when no direction of [DIRECTIONS] leads from the current
    position to a pixel that is inside the array and in the set, and the set
    is then unchanged.  Otherwise the move is [length] steps ([length >= 1])
    in the first direction of [DIRECTIONS], in list order, that leads to such
    a pixel, and exactly the pixels of that run have left the set. *)
Theorem _get_next_edge_from_pixel_first_direction (ci cj i_rows i_cols : Z)
    (s : gset (Z * Z)) :
  ∃ move s',
    _get_next_edge_from_pixel ci cj i_rows i_cols s = Some (move, s')
    ∧ match move with
      | None =>
          s' = s
          ∧ ∀ d, d ∈ DIRECTIONS → ¬ neighbour_in i_rows i_cols s ci cj d
      | Some (ai, aj) =>
          ∃ pre d post L,
            DIRECTIONS = pre ++ d :: post
            ∧ (∀ d', d' ∈ pre → ¬ neighbour_in i_rows i_cols s ci cj d')
            ∧ neighbour_in i_rows i_cols s ci cj d
            ∧ 1 ≤ L ∧ ai = d.1 * L ∧ aj = d.2 * L
            ∧ (∀ p, p ∈ s' ↔
                    p ∈ s ∧ ∀ t, 1 ≤ t ≤ L → p ≠ (ci + t * d.1, cj + t * d.2))
      end.
Proof.
  apply next_edge_loop_full.
  unfold DIRECTIONS. repeat constructor; cbn [fst snd]; lia.
Qed.

(** ** Anchors off the top or left edge, unknown algorithm tags, results *)

(** X16.  [pattern_fit] accepts an anchor that hangs off the top or the left
    edge of the image: when the anchor row is negative with the footprint
    reaching row 0 (or the same for columns), the pattern is no larger than
    the image in that dimension and the footprint does not pass the bottom
    or right edge, the slice read is empty and the answer is true whatever
    the image holds. *)
Theorem pattern_fit_negative_anchor (chan_img chan_pattern : ndarray2 Z)
    (r c : Z) :
  let p_rows := Z.of_nat (nrows chan_pattern) in
  let p_cols := Z.of_nat (ncols chan_pattern) in
  let i_rows := Z.of_nat (nrows chan_img) in
  let i_cols := Z.of_nat (ncols chan_img) in
  (r < 0 ≤ r + p_rows ∧ p_rows ≤ i_rows)
  ∨ (c < 0 ≤ c + p_cols ∧ p_cols ≤ i_cols) →
  r + p_rows ≤ i_rows → c + p_cols ≤ i_cols →
  pattern_fit chan_img chan_pattern (r, c) = true.
Proof.
  intros p_rows p_cols i_rows i_cols Hneg Hr Hc.
  rewrite pattern_fit_in_bounds by done.
  destruct (valid_location chan_img chan_pattern (r, c)) eqn:Hv; [done|].
  apply valid_location_false in Hv as (i & j & Hi & Hj & _).
  unfold in_slice, slice_bound in Hi, Hj.
  fold p_rows p_cols i_rows i_cols in Hi, Hj.
  apply andb_true_iff in Hi as [Hi0 Hi1]. apply andb_true_iff in Hj as [Hj0 Hj1].
  apply Z.leb_le in Hi0, Hj0. apply Z.ltb_lt in Hi1, Hj1.
  destruct Hneg as [[Hn Hp]|[Hn Hp]].
  - destruct (Z.ltb_spec r 0); [|lia].
    destruct (Z.ltb_spec (r + p_rows) 0); lia.
  - destruct (Z.ltb_spec c 0); [|lia].
    destruct (Z.ltb_spec (c + p_cols) 0); lia.
Qed.

Lemma pattern_fit_negative_anchor_witness :
  pattern_fit (channel block_img 0) (channel pattern_2x2 0) (-1, 2) = true.
Proof.
  apply (pattern_fit_negative_anchor (channel block_img 0)
           (channel pattern_2x2 0) (-1) 2); simpl; lia.
Defined.

Lemma resolve_fits (p : per_channel Z) (num_chans k : nat) :
  per_channel_fits p num_chans → (k < num_chans)%nat →
  ∃ v, resolve p num_chans k = Ok v.
Proof.
  destruct p as [v|vs]; simpl; intros Hfit Hk; [by eexists|].
  rewrite Hfit, Nat.eqb_refl.
  destruct (lookup_lt_is_Some_2 vs k) as [v ->]; [lia|]. by eexists.
Qed.

Lemma apply_algorithm_total pick algo_config num_chans chan_idx chan_img
    p_rows p_cols img_mask mask (tv : Z) :
  resolve (threshold_val algo_config) num_chans chan_idx = Ok tv →
  ∃ mask',
    apply_algorithm pick algo_config num_chans chan_idx chan_img p_rows p_cols
      img_mask mask = Ok mask'.
Proof.
  intros Htv. unfold apply_algorithm. rewrite Htv.
  destruct (String.eqb _ "edge_tracing").
  { unfold edge_tracing.
    destruct (edge_tracing_loop_below pick
                (size (list_to_set (edge_pixel_coords img_mask) : gset (Z * Z)))
                p_rows p_cols (Z.of_nat (nrows chan_img))
                (Z.of_nat (ncols chan_img)) mask
                (list_to_set (edge_pixel_coords img_mask)))
      as (mask' & -> & _); [done|]. by eexists. }
  destruct (String.eqb _ "brute_force"); [by eexists|].
  destruct (String.eqb _ "threshold"); [by eexists|].
  destruct (String.eqb _ "bounding_boxes"); by eexists.
Qed.

Lemma channels_loop_total pick (img pattern : ndarray3 Z) algo_config
    (allow_overlap : list bool) (chans : list nat) (out : ndarray3 bool) :
  (∀ k, k ∈ chans →
        ∃ mv, resolve (min_val algo_config) (dim_chans img) k = Ok mv) →
  (∀ k, k ∈ chans →
        ∃ tv, resolve (threshold_val algo_config) (dim_chans img) k = Ok tv) →
  (∀ k, k ∈ chans → is_Some (allow_overlap !! k)) →
  ∃ m,
    channels_loop pick img pattern algo_config true allow_overlap chans out
    = Ok m.
Proof.
  revert out. induction chans as [|k chans IH]; intros out Hmv Htv Hao.
  - by eexists.
  - cbn [channels_loop].
    destruct (Hao k) as [b ->]; [by left|].
    destruct b.
    + apply IH; intros k' Hk'; [apply Hmv|apply Htv|apply Hao]; by right.
    + destruct (Hmv k) as [mv Hres]; [by left|].
      destruct (Htv k) as [tv Hrest]; [by left|].
      unfold channel_mask. rewrite Hres. simpl.
      match goal with
      | |- context [apply_algorithm ?p ?a ?n ?k ?ci ?pr ?pc ?im ?m] =>
          destruct (apply_algorithm_total p a n k ci pr pc im m tv Hrest)
            as (mk & ->)
      end.
      simpl. apply IH; intros k' Hk'; [apply Hmv|apply Htv|apply Hao]; by right.
Qed.

Lemma channels_loop_total_channels pick (img pattern : ndarray3 Z) algo_config
    (allow_overlap : list bool) (chans : list nat) (out : ndarray3 bool) :
  (∀ k, k ∈ chans → is_Some (allow_overlap !! k)) →
  (∀ k, k ∈ chans →
        ∃ mk, channel_mask pick algo_config (dim_chans img) k (channel img k)
                (channel pattern k) = Ok mk) →
  ∃ m,
    channels_loop pick img pattern algo_config true allow_overlap chans out
    = Ok m.
Proof.
  revert out. induction chans as [|k chans IH]; intros out Hao Hmk.
  - by eexists.
  - cbn [channels_loop].
    destruct (Hao k) as [b ->]; [by left|].
    destruct b.
    + apply IH; intros k' Hk'; [apply Hao|apply Hmk]; by right.
    + destruct (Hmk k) as [mk ->]; [by left|]. cbn [bind_result].
      apply IH; intros k' Hk'; [apply Hao|apply Hmk]; by right.
Qed.

Lemma apply_algorithm_unknown pick algo_config num_chans chan_idx chan_img
    p_rows p_cols img_mask mask :
  algorithm algo_config
  ∉ ["edge_tracing"; "brute_force"; "threshold"; "bounding_boxes"] →
  apply_algorithm pick algo_config num_chans chan_idx chan_img p_rows p_cols
    img_mask mask = Ok mask.
Proof.
  intros Halg. rewrite !not_elem_of_cons in Halg.
  destruct Halg as (H1 & H2 & H3 & H4 & _).
  apply String.eqb_neq in H1, H2, H3, H4.
  unfold apply_algorithm. by rewrite H1, H2, H3, H4.
Qed.

(** X17.  With wrap protection, a non-empty image, equal channel counts and
    [min_val] and [allow_overlap] each a scalar or a sequence with one entry
    per channel, a call whose algorithm tag is none of the four known ones
    returns a mask and raises nothing, and no invalidation runs: for a
    pattern at most one row and one column larger than the image, a cell of
    a channel that does not allow overlap is true exactly when its own pixel
    is at most [min_val] and the pattern placed there stays inside the
    image. *)
Theorem unknown_algorithm_mask pick (img pattern : ndarray3 Z)
    (algo_config : InsertAtRandomLocationConfig)
    (allow_overlap : per_channel bool) :
  algorithm algo_config
  ∉ ["edge_tracing"; "brute_force"; "threshold"; "bounding_boxes"] →
  (1 ≤ dim_rows img)%nat → (1 ≤ dim_cols img)%nat →
  dim_chans pattern = dim_chans img →
  per_channel_fits (min_val algo_config) (dim_chans img) →
  per_channel_fits allow_overlap (dim_chans img) →
  ∃ mask,
    valid_locations pick img pattern algo_config true allow_overlap = Ok mask
    ∧ ∀ (k : nat) (mv r c : Z),
        (k < dim_chans img)%nat →
        broadcast allow_overlap (dim_chans img) !! k = Some false →
        resolve (min_val algo_config) (dim_chans img) k = Ok mv →
        (dim_rows pattern ≤ dim_rows img + 1)%nat →
        (dim_cols pattern ≤ dim_cols img + 1)%nat →
        0 ≤ r < Z.of_nat (dim_rows img) → 0 ≤ c < Z.of_nat (dim_cols img) →
        (at3 mask r c k = true ↔
         at3 img r c k ≤ mv
         ∧ r + Z.of_nat (dim_rows pattern) ≤ Z.of_nat (dim_rows img)
         ∧ c + Z.of_nat (dim_cols pattern) ≤ Z.of_nat (dim_cols img)).
Proof.
  intros Halg _ _ Hch Hmv Hao.
  assert (∃ mask,
            valid_locations pick img pattern algo_config true allow_overlap
            = Ok mask) as [mask Hv].
  { unfold valid_locations. rewrite Hch, Nat.eqb_refl. cbn [negb].
    apply channels_loop_total_channels.
    - intros k Hk. apply elem_of_seq in Hk.
      destruct allow_overlap as [b|bs]; simpl in *.
      + exists b. apply lookup_replicate_2. lia.
      + apply lookup_lt_is_Some_2. lia.
    - intros k Hk. apply elem_of_seq in Hk.
      destruct (resolve_fits (min_val algo_config) (dim_chans img) k)
        as [mv Hres]; [done|lia|].
      unfold channel_mask. rewrite Hres. cbn [bind_result].
      rewrite apply_algorithm_unknown by done. by eexists. }
  exists mask. split; [done|].
  intros k mv r c Hk Hf Hres Hpr Hpc Hr Hc.
  apply valid_locations_ok in Hv as (_ & _ & Hchan). specialize (Hchan k Hk).
  rewrite Hf in Hchan. destruct Hchan as (_ & mk & Hmk & ->).
  unfold channel_mask in Hmk. rewrite Hres in Hmk. cbn [bind_result] in Hmk.
  rewrite apply_algorithm_unknown in Hmk by done.
  injection Hmk as <-.
  rewrite remove_boundaries_true by (simpl; lia). simpl.
  by rewrite Z.leb_le.
Qed.

Lemma unknown_algorithm_mask_witness :
  ∃ mask,
    valid_locations pick_first block_img pattern_2x2 (config "nearest" 0 0)
      true (Uniform false) = Ok mask
    ∧ (at3 mask 1 1 0 = true ↔ at3 block_img 1 1 0 ≤ 0 ∧ 1 + 2 ≤ 10 ∧ 1 + 2 ≤ 10).
Proof.
  destruct (unknown_algorithm_mask pick_first block_img pattern_2x2
              (config "nearest" 0 0) (Uniform false))
    as (mask & Hv & Hcells).
  - rewrite !not_elem_of_cons. repeat split; try discriminate.
    apply not_elem_of_nil.
  - simpl. lia.
  - simpl. lia.
  - reflexivity.
  - exact I.
  - exact I.
  - exists mask. split; [exact Hv|].
    apply (Hcells 0%nat 0 1 1); try reflexivity; simpl; lia.
Defined.

(** X18.  A returned mask has the shape of the image, in all three
    dimensions, whatever the pattern, the configuration and the flags. *)
Theorem valid_locations_shape pick (img pattern : ndarray3 Z)
    (algo_config : InsertAtRandomLocationConfig) (protect_wrap : bool)
    (allow_overlap : per_channel bool) (mask : ndarray3 bool) :
  valid_locations pick img pattern algo_config protect_wrap allow_overlap
  = Ok mask →
  dim_rows mask = dim_rows img ∧ dim_cols mask = dim_cols img
  ∧ dim_chans mask = dim_chans img.
Proof.
  intros Hv. by apply valid_locations_ok in Hv as (_ & Hdims & _).
Qed.

Lemma valid_locations_shape_witness :
  ∃ mask,
    valid_locations pick_last block_img pattern_2x2 (config "edge_tracing" 0 0)
      true (Uniform false) = Ok mask
    ∧ dim_rows mask = 10%nat ∧ dim_cols mask = 10%nat ∧ dim_chans mask = 1%nat.
Proof.
  eexists. split; [reflexivity|].
  apply (valid_locations_shape pick_last block_img pattern_2x2
           (config "edge_tracing" 0 0) true (Uniform false)).
  reflexivity.
Defined.

(** X19.  With wrap protection, a non-empty image, equal channel counts and
    every per-channel setting ([min_val], [threshold_val], [allow_overlap])
    either a scalar or a sequence with one entry per channel, the call
    returns a mask and raises nothing, for every algorithm tag, pattern size
    and pop order. *)
Theorem valid_locations_never_raises pick (img pattern : ndarray3 Z)
    (algo_config : InsertAtRandomLocationConfig)
    (allow_overlap : per_channel bool) :
  (1 ≤ dim_rows img)%nat → (1 ≤ dim_cols img)%nat →
  dim_chans pattern = dim_chans img →
  per_channel_fits (min_val algo_config) (dim_chans img) →
  per_channel_fits (threshold_val algo_config) (dim_chans img) →
  per_channel_fits allow_overlap (dim_chans img) →
  ∃ mask,
    valid_locations pick img pattern algo_config true allow_overlap = Ok mask.
Proof.
  intros _ _ Hch Hmv Htv Hao. unfold valid_locations.
  rewrite Hch, Nat.eqb_refl. cbn [negb].
  apply channels_loop_total.
  - intros k Hk. apply elem_of_seq in Hk. apply resolve_fits; [done|lia].
  - intros k Hk. apply elem_of_seq in Hk. apply resolve_fits; [done|lia].
  - intros k Hk. apply elem_of_seq in Hk.
    destruct allow_overlap as [b|bs]; simpl in *.
    + exists b. apply lookup_replicate_2. lia.
    + apply lookup_lt_is_Some_2. lia.
Qed.

Lemma valid_locations_never_raises_witness :
  ∃ mask,
    valid_locations pick_first img_3chan (full3 2 2 3 0)
      (config_seq "threshold" (PerChannel [0; 0; 0]) (PerChannel [1; 1; 1]))
      true (PerChannel [false; true; false]) = Ok mask.
Proof.
  apply (valid_locations_never_raises pick_first img_3chan (full3 2 2 3 0)
           (config_seq "threshold" (PerChannel [0; 0; 0]) (PerChannel [1; 1; 1]))
           (PerChannel [false; true; false]));
    simpl; (lia || reflexivity).
Defined.
